(** * grout: grid tile indexing for chunked raster access

    A shallow embedding of [src/grout/__init__.py] (classes [TileSpec] and
    [Grout], function [tile_index]) and the properties of its tile geometry.

    Python values are modelled as follows.
    - [int] is [Z]; [divmod], [//] and [%] are [Z.div] and [Z.modulo] (both
      round towards minus infinity, as Python does).
    - [int / int] is true division: the quotient correctly rounded to IEEE
      binary64, as given by [SFdiv] of the standard library's [SpecFloat];
      [math.ceil] of the resulting float is exact.  So
      [math.ceil(ncol / block_width)] is the ceiling of the rounded quotient;
      [FloatFacts.int_truediv_ceil] shows that it is the ceiling of the
      quotient whenever both integers are positive and below [2^53].
    - the coordinates ([extent], [transform], and the four bounds of a tile)
      belong to a number type [F] on which the code only uses [+], [-], [*],
      [/] and unary minus, together with the conversion Python applies to
      an [int] operand.  Two instances are given: binary64 ([float], the type
      the signatures announce) and exact rationals ([fractions.Fraction]).
    - exceptions are the [Raise] results of a small error monad; a generator
      is described by the values it yields followed by the exception that
      ended it, if any.
    - [str] of an [int] is its decimal numeral ([DecimalString]); [list] of a
      grid takes [len] of it as a size hint before it iterates; the two table
      libraries of [tile_index] are parameters.

    Statements about whole grids are made for sizes that are positive and
    below [2^53] ([Grout.valid_dims]); what the code computes beyond is shown
    on concrete grids ([Example.wide], [Example.many], [Example.huge],
    [Example.tiny], [Example.vast]). *)

From Stdlib Require Import ZArith List Lia Bool QArith Qabs Qcanon Sorted FinFun.
From Stdlib Require Import Floats.SpecFloat.
From Stdlib Require String Ascii DecimalString DecimalZ.
Import ListNotations.
Open Scope Z_scope.

(* ================================================================== *)
(** ** Python runtime: exceptions, ranges and generators *)

Module Py.

Inductive exn := ValueError | IndexError | ZeroDivisionError | OverflowError.

Inductive result (A : Type) :=
| Ok (a : A)
| Raise (e : exn).
Arguments Ok {A} a.
Arguments Raise {A} e.

Definition bind {A B} (r : result A) (k : A -> result B) : result B :=
  match r with
  | Ok a => k a
  | Raise e => Raise e
  end.

(** [range(n)]: the integers [0, 1, ..., n-1]; empty when [n <= 0]. *)
Definition range (n : Z) : list Z := map Z.of_nat (seq 0 (Z.to_nat n)).

(** A generator run to exhaustion: the values yielded, then the exception
    that stopped it ([None] for a normal [StopIteration]). *)
Definition gen (A : Type) : Type := (list A * option exn)%type.

Definition gen_done {A} : gen A := ([], None).
Definition gen_raise {A} (e : exn) : gen A := ([], Some e).

(** [yield v], where evaluating [v] may raise. *)
Definition yield {A} (r : result A) : gen A :=
  match r with
  | Ok a => ([a], None)
  | Raise e => ([], Some e)
  end.

(** Sequencing: the second generator runs only if the first ended normally. *)
Definition gen_seq {A} (g1 g2 : gen A) : gen A :=
  match g1 with
  | (xs, None) => (xs ++ fst g2, snd g2)
  | (xs, Some e) => (xs, Some e)
  end.

(** [for x in l: body(x)] inside a generator. *)
Fixpoint for_in {A B} (l : list A) (body : A -> gen B) : gen B :=
  match l with
  | [] => gen_done
  | x :: l' => gen_seq (body x) (for_in l' body)
  end.

(** [next(it)] on a generator object: the object's own state is what it has
    left to produce. *)
Definition next {A} (it : gen A) : result (option A) * gen A :=
  match it with
  | (x :: xs, e) => (Ok (Some x), (xs, e))
  | ([], None) => (Ok None, gen_done)
  | ([], Some e) => (Raise e, gen_done)
  end.

(** Generator objects.  Calling a generator function creates a new object
    with a frame of its own; the state of the object is what its body has
    left to produce.  The store holds the generator objects created so far,
    an object being named by its position. *)
Definition store (A : Type) : Type := list (gen A).

Definition call_generator {A} (body : gen A) (st : store A) : nat * store A :=
  (length st, st ++ [body]).

Fixpoint put {A} (n : nat) (x : A) (l : list A) : list A :=
  match l, n with
  | [], _ => []
  | _ :: l', O => x :: l'
  | y :: l', S n' => y :: put n' x l'
  end.

(** [next(it)] on the object [it] of the store ([None]: no such object);
    only that object changes. *)
Definition next_of {A} (it : nat) (st : store A)
  : option (result (option A)) * store A :=
  match nth_error st it with
  | Some g => let '(r, g') := next g in (Some r, put it g' st)
  | None => (None, st)
  end.

(** A sequence of [next] calls, on the objects named in [sched] in that
    order: the object and the outcome of each call, and the final store. *)
Fixpoint run {A} (sched : list nat) (st : store A)
  : list (nat * option (result (option A))) * store A :=
  match sched with
  | [] => ([], st)
  | it :: sched' =>
      let '(r, st') := next_of it st in
      let '(out, st'') := run sched' st' in
      ((it, r) :: out, st'')
  end.

(** The outcomes of the calls made on the object [it]. *)
Definition calls_on {A} (it : nat) (out : list (nat * option (result (option A))))
  : list (option (result (option A))) :=
  map snd (filter (fun c => Nat.eqb (fst c) it) out).

(** [n] successive [next] calls on one generator object. *)
Fixpoint take_next {A} (n : nat) (it : gen A) : list (result (option A)) :=
  match n with
  | O => []
  | S n' => let '(r, it') := next it in r :: take_next n' it'
  end.

(** [sys.maxsize], on a 64-bit build. *)
Definition maxsize : Z := 2 ^ 63 - 1.

(** [len(obj)], given what [obj.__len__()] returns: the interpreter accepts
    a size from 0 to [sys.maxsize]. *)
Definition len (n : Z) : result Z :=
  if n <? 0 then Raise ValueError
  else if maxsize <? n then Raise OverflowError
  else Ok n.

End Py.

Export Py.

Declare Scope py_scope.
Notation "x <- e ;; k" := (bind e (fun x => k))
  (at level 61, e at next level, right associativity) : py_scope.
Open Scope py_scope.

(* ================================================================== *)
(** ** binary64 floats *)

Module Float.

Definition float := spec_float.
Definition prec : Z := 53.
Definition emax : Z := 1024.

(** The ceiling of [a / b] for [0 < b]. *)
Definition ceil_div (a b : Z) : Z := - ((- a) / b).

(** The ceiling of [m * 2^e]. *)
Definition ceil_pow2 (m e : Z) : Z :=
  if 0 <=? e then m * 2 ^ e else ceil_div m (2 ^ (- e)).

(** [float(z)] as applied to the [int] operand of mixed arithmetic: rounded to
    nearest-even; [None] stands for the [OverflowError] of an [int] too large
    for a float. *)
Definition float_of_int (z : Z) : option float :=
  match binary_normalize prec emax z 0 false with
  | S754_infinity _ => None
  | x => Some x
  end.

(** [a / b] on two [int]s. *)
Definition int_truediv (a b : Z) : result float :=
  match b with
  | Z0 => Raise ZeroDivisionError
  | _ =>
    match a with
    | Z0 => Ok (S754_zero (b <? 0))
    | _ =>
      match SFdiv prec emax (S754_finite (a <? 0) (Z.to_pos (Z.abs a)) 0)
                            (S754_finite (b <? 0) (Z.to_pos (Z.abs b)) 0) with
      | S754_infinity _ => Raise OverflowError
      | q => Ok q
      end
    end
  end.

(** [math.ceil(x)] on a float. *)
Definition math_ceil (x : float) : result Z :=
  match x with
  | S754_zero _ => Ok 0
  | S754_finite s m e => Ok (ceil_pow2 (cond_Zopp s (Z.pos m)) e)
  | S754_infinity _ => Raise OverflowError
  | S754_nan => Raise ValueError
  end.

Definition is_zero (x : float) : bool :=
  match x with
  | S754_zero _ => true
  | _ => false
  end.

(** The value of a finite float as a rational. *)
Definition to_Q (x : float) : Q :=
  match x with
  | S754_finite s m e =>
      if 0 <=? e then inject_Z (cond_Zopp s (Z.pos m) * 2 ^ e)
      else Qmake (cond_Zopp s (Z.pos m)) (Z.to_pos (2 ^ (- e)))
  | _ => 0%Q
  end.

(** What [binary_round_aux] computes on a mantissa of 53 or 54 digits: the
    mantissa rounded to nearest-even and the exponent of its last digit. *)
Definition rounded (q e : Z) (l : location) : Z * Z :=
  if q <? 2 ^ 53 then (round_nearest_even q l, e)
  else (round_nearest_even (q / 2)
          (loc_of_shr_record (shr_1 (shr_record_of_loc q l))), e + 1).

(** Neither an infinity nor a NaN. *)
Definition is_finite (x : float) : bool :=
  match x with
  | S754_zero _ | S754_finite _ _ _ => true
  | _ => false
  end.

Definition is_nan (x : float) : bool :=
  match x with
  | S754_nan => true
  | _ => false
  end.

(** [x == y] on two floats: the two zeros are equal, a NaN equals nothing. *)
Definition eqb (x y : float) : bool := SFeqb x y.

Definition has_sign (sx : bool) (x : float) : Prop :=
  match x with
  | S754_zero s | S754_infinity s | S754_finite s _ _ => s = sx
  | S754_nan => False
  end.

End Float.

(* ================================================================== *)
(** ** The numbers the coordinates are made of *)

(** The operations [Grout] applies to coordinates.  [of_int] is the
    conversion of an [int] operand ([None]: [OverflowError]); dividing by a
    number for which [is_zero] holds raises [ZeroDivisionError]. *)
Class Number (F : Type) := {
  of_int : Z -> option F;
  add : F -> F -> F;
  sub : F -> F -> F;
  mul : F -> F -> F;
  div : F -> F -> F;
  neg : F -> F;
  is_zero : F -> bool
}.

(** What the proofs need of a number type: integers with an exact binary64
    image convert, to a non-zero number unless they are zero, and unary minus
    undoes itself. *)
Class NumberLaws (F : Type) {num : Number F} : Prop := {
  of_int_small : forall z, Z.abs z < 2 ^ 53 -> exists x, of_int z = Some x;
  of_int_nonzero : forall z x, z <> 0 -> Z.abs z < 2 ^ 53 ->
                               of_int z = Some x -> is_zero x = false;
  neg_involutive : forall x, neg (neg x) = x
}.

(** Python [float]. *)
#[export] Instance float_number : Number Float.float := {
  of_int := Float.float_of_int;
  add := SFadd Float.prec Float.emax;
  sub := SFsub Float.prec Float.emax;
  mul := SFmul Float.prec Float.emax;
  div := SFdiv Float.prec Float.emax;
  neg := SFopp;
  is_zero := Float.is_zero
}.

(** Python [fractions.Fraction]: rationals in lowest terms. *)
Abbreviation Fraction := Qc.

#[export] Instance fraction_number : Number Fraction := {
  of_int := fun z => Some (Q2Qc (inject_Z z));
  add := Qcplus;
  sub := Qcminus;
  mul := Qcmult;
  div := Qcdiv;
  neg := Qcopp;
  is_zero := fun x => Qnum (this x) =? 0
}.

Section Mixed.
Context {F : Type} {num : Number F}.

(** [z * x] with [z] an [int]. *)
Definition int_mul (z : Z) (x : F) : result F :=
  match of_int z with
  | Some f => Ok (mul f x)
  | None => Raise OverflowError
  end.

(** [x / z] with [z] an [int]. *)
Definition truediv_int (x : F) (z : Z) : result F :=
  match of_int z with
  | Some f => if is_zero f then Raise ZeroDivisionError else Ok (div x f)
  | None => Raise OverflowError
  end.

End Mixed.

(* ================================================================== *)
(** ** [TileSpec] and [Grout] *)

Module TileSpec.
Record t {F : Type} := mk {
  col : Z;
  row : Z;
  offset_x : Z;
  offset_y : Z;
  ncol : Z;
  nrow : Z;
  xmin : F;
  xmax : F;
  ymin : F;
  ymax : F
}.
Arguments t F : clear implicits.
End TileSpec.

Module Grout.
Section WithNumber.
Context {F : Type} {num : Number F}.

Record t := mk {
  ncol : Z;
  nrow : Z;
  block_width : Z;
  block_height : Z;
  xres : F;
  yres : F;
  xmin : F;
  ymax : F;
  tile_cols : Z;
  tile_rows : Z
}.

(** The argument of [__getitem__]: a linear index or a [(col, row)] tuple. *)
Inductive index :=
| Linear (idx : Z)
| Pair (tc tr : Z).

Definition __init__ (dim blocksize : Z * Z)
    (extent : option (F * F * F * F))
    (transform : option (F * F * F * F * F * F)) : result t :=
  let '(ncol, nrow) := dim in
  let '(block_width, block_height) := blocksize in
  georef <-
    match extent with
    | Some (xmin, xmax, ymin, ymax) =>
        xres <- truediv_int (sub xmax xmin) ncol ;;
        yres <- truediv_int (sub ymax ymin) nrow ;;
        Ok (xres, yres, xmin, ymax)
    | None =>
        match transform with
        | Some (xmin, xres, _, ymax, _, yres) => Ok (xres, neg yres, xmin, ymax)
        | None => Raise ValueError
        end
    end ;;
  let '(xres, yres, xmin, ymax) := georef in
  qc <- Float.int_truediv ncol block_width ;;
  tile_cols <- Float.math_ceil qc ;;
  qr <- Float.int_truediv nrow block_height ;;
  tile_rows <- Float.math_ceil qr ;;
  Ok (mk ncol nrow block_width block_height xres yres xmin ymax tile_cols tile_rows).

Definition __iter__ (self : t) : gen (TileSpec.t F) :=
  for_in (range (tile_rows self)) (fun tr =>
    for_in (range (tile_cols self)) (fun tc =>
      let offset_x := tc * block_width self in
      let offset_y := tr * block_height self in
      let ncol := Z.min (block_width self) (ncol self - offset_x) in
      let nrow := Z.min (block_height self) (nrow self - offset_y) in
      yield (
        dx <- int_mul offset_x (xres self) ;;
        let tile_xmin := add (xmin self) dx in
        wx <- int_mul ncol (xres self) ;;
        let tile_xmax := add tile_xmin wx in
        dy <- int_mul offset_y (yres self) ;;
        let tile_ymax := sub (ymax self) dy in
        hy <- int_mul nrow (yres self) ;;
        let tile_ymin := sub tile_ymax hy in
        Ok (TileSpec.mk F tc tr offset_x offset_y ncol nrow
              tile_xmin tile_xmax tile_ymin tile_ymax)))).

Definition __len__ (self : t) : Z := tile_rows self * tile_cols self.

Definition __getitem__ (self : t) (idx : index) : result (TileSpec.t F) :=
  pos <-
    match idx with
    | Pair tc tr => Ok (tc, tr)
    | Linear i =>
        if tile_cols self =? 0 then Raise ZeroDivisionError
        else Ok (i mod tile_cols self, i / tile_cols self)
    end ;;
  let '(tc, tr) := pos in
  if negb ((0 <=? tc) && (tc <? tile_cols self) && (0 <=? tr) && (tr <? tile_rows self))
  then Raise IndexError
  else
    let offset_x := tc * block_width self in
    let offset_y := tr * block_height self in
    let ncol := Z.min (block_width self) (ncol self - offset_x) in
    let nrow := Z.min (block_height self) (nrow self - offset_y) in
    dx <- int_mul offset_x (xres self) ;;
    let tile_xmin := add (xmin self) dx in
    wx <- int_mul ncol (xres self) ;;
    let tile_xmax := add tile_xmin wx in
    dy <- int_mul offset_y (yres self) ;;
    let tile_ymax := sub (ymax self) dy in
    hy <- int_mul nrow (yres self) ;;
    let tile_ymin := sub tile_ymax hy in
    Ok (TileSpec.mk F tc tr offset_x offset_y ncol nrow
          tile_xmin tile_xmax tile_ymin tile_ymax).

(** [iter(self)]: [__iter__] is a generator function, so each call creates
    a new generator object, whose body has not started. *)
Definition iter (self : t) (st : store (TileSpec.t F)) : nat * store (TileSpec.t F) :=
  call_generator (__iter__ self) st.

(** A generator function: calling it raises nothing, the body runs when the
    generator is first advanced.  [len(self)] is [len] of what [__len__]
    returns, at line 163 and again at each turn of the loop. *)
Definition index_partition (self : t) (n : Z) : gen (Z * Z) :=
  match (l <- len (__len__ self) ;;
         q <- Float.int_truediv l n ;; Float.math_ceil q) with
  | Raise e => gen_raise e
  | Ok per_chunk =>
      for_in (range n) (fun i =>
        let start := i * per_chunk in
        match len (__len__ self) with
        | Raise e => gen_raise e
        | Ok l =>
            let stop := Z.min (start + per_chunk) l in
            if start <? stop then yield (Ok (start, stop)) else gen_done
        end)
  end.

(** The record that [__iter__] (lines 102-119) and [__getitem__] (lines
    143-159) both build for the tile at column [tc] and row [tr]. *)
Definition tile (self : t) (tc tr : Z) : result (TileSpec.t F) :=
  let offset_x := tc * block_width self in
  let offset_y := tr * block_height self in
  let ncol := Z.min (block_width self) (ncol self - offset_x) in
  let nrow := Z.min (block_height self) (nrow self - offset_y) in
  dx <- int_mul offset_x (xres self) ;;
  let tile_xmin := add (xmin self) dx in
  wx <- int_mul ncol (xres self) ;;
  let tile_xmax := add tile_xmin wx in
  dy <- int_mul offset_y (yres self) ;;
  let tile_ymax := sub (ymax self) dy in
  hy <- int_mul nrow (yres self) ;;
  let tile_ymin := sub tile_ymax hy in
  Ok (TileSpec.mk F tc tr offset_x offset_y ncol nrow
        tile_xmin tile_xmax tile_ymin tile_ymax).

(** Grid and tile sizes that are positive and have an exact binary64 image. *)
Definition valid_dims (dim blocksize : Z * Z) : Prop :=
  0 < fst dim < 2 ^ 53 /\ 0 < snd dim < 2 ^ 53 /\
  0 < fst blocksize < 2 ^ 53 /\ 0 < snd blocksize < 2 ^ 53.

(** A grid of such sizes whose tile counts are the exact ceilings. *)
Definition well_formed (self : t) : Prop :=
  valid_dims (ncol self, nrow self) (block_width self, block_height self) /\
  tile_cols self = Float.ceil_div (ncol self) (block_width self) /\
  tile_rows self = Float.ceil_div (nrow self) (block_height self).

(** The tiles of row [tr], as [__iter__] yields them. *)
Definition row_tiles (self : t) (tr : Z) : list (TileSpec.t F) :=
  filter (fun s => TileSpec.row s =? tr) (fst (__iter__ self)).

(** The tiles of column [tc], as [__iter__] yields them. *)
Definition col_tiles (self : t) (tc : Z) : list (TileSpec.t F) :=
  filter (fun s => TileSpec.col s =? tc) (fst (__iter__ self)).

End WithNumber.
Arguments t F : clear implicits.
End Grout.

(* ================================================================== *)
(** ** Sorting tiles by a key *)

Fixpoint insert_by {A} (key : A -> Z) (x : A) (l : list A) : list A :=
  match l with
  | [] => [x]
  | y :: l' => if key x <=? key y then x :: l else y :: insert_by key x l'
  end.

(** Insertion sort by increasing key. *)
Fixpoint sort_by {A} (key : A -> Z) (l : list A) : list A :=
  match l with
  | [] => []
  | x :: l' => insert_by key x (sort_by key l')
  end.

(** The rational with the value of an integer. *)
Definition Z2Qc (z : Z) : Fraction := Q2Qc (inject_Z z).

(** The tile at [(tc, tr)] of a grid on rationals, where no conversion can
    fail. *)
Definition exact_tile (g : Grout.t Fraction) (tc tr : Z) : TileSpec.t Fraction :=
  let offset_x := tc * Grout.block_width g in
  let offset_y := tr * Grout.block_height g in
  let ncol := Z.min (Grout.block_width g) (Grout.ncol g - offset_x) in
  let nrow := Z.min (Grout.block_height g) (Grout.nrow g - offset_y) in
  let tile_xmin := (Grout.xmin g + Z2Qc offset_x * Grout.xres g)%Qc in
  let tile_ymax := (Grout.ymax g - Z2Qc offset_y * Grout.yres g)%Qc in
  TileSpec.mk Fraction tc tr offset_x offset_y ncol nrow
    tile_xmin (tile_xmin + Z2Qc ncol * Grout.xres g)%Qc
    (tile_ymax - Z2Qc nrow * Grout.yres g)%Qc tile_ymax.

(* ================================================================== *)
(** ** Partitions of an index interval *)

(** [covers a b l]: the ranges of [l] are non-empty and laid end to end from
    [a] to [b]; so they are sorted, disjoint and contiguous, and their union
    is [a, b). *)
Fixpoint covers (a b : Z) (l : list (Z * Z)) : Prop :=
  match l with
  | [] => a = b
  | (start, stop) :: l' => start = a /\ start < stop /\ covers stop b l'
  end.

(* ================================================================== *)
(** ** Concrete grids *)

Module Example.

(** The float whose value is the integer [z] (for [z] below [2^53]). *)
Definition fl (z : Z) : Float.float :=
  match Float.float_of_int z with
  | Some x => x
  | None => S754_nan
  end.

(** [Grout(dim=(300, 200), blocksize=(256, 256), extent=(0.0, 300.0, 0.0, 200.0))] *)
Definition edge : result (Grout.t Float.float) :=
  Grout.__init__ (300, 200) (256, 256) (Some (fl 0, fl 300, fl 0, fl 200)) None.

(** [Grout(dim=(10**17 + 1, 1), blocksize=(10**17, 1), extent=(0.0, 1.0, 0.0, 1.0))] *)
Definition wide : result (Grout.t Float.float) :=
  Grout.__init__ (10 ^ 17 + 1, 1) (10 ^ 17, 1) (Some (fl 0, fl 1, fl 0, fl 1)) None.

(** [Grout(dim=(3, 3002399751580331), blocksize=(1, 1), extent=(0.0, 1.0, 0.0, 1.0))],
    a grid of [2^53 + 1] tiles. *)
Definition many : result (Grout.t Float.float) :=
  Grout.__init__ (3, 3002399751580331) (1, 1) (Some (fl 0, fl 1, fl 0, fl 1)) None.

(** [Grout(dim=(1000, 1000), blocksize=(256, 256),
          extent=(1e9, 1e9 + 100.0, 0.0, 100.0))] *)
Definition far : result (Grout.t Float.float) :=
  Grout.__init__ (1000, 1000) (256, 256)
    (Some (fl 1000000000, fl 1000000100, fl 0, fl 100)) None.

(** [Grout(dim=(1000, 500), blocksize=(256, 256), extent=(0.0, 100.0, 0.0, 50.0))] *)
Definition basic : result (Grout.t Float.float) :=
  Grout.__init__ (1000, 500) (256, 256) (Some (fl 0, fl 100, fl 0, fl 50)) None.

(** [Grout(dim=(86400, 43200), blocksize=(512, 512),
          extent=(-180.0, 180.0, -90.0, 90.0))] *)
Definition gebco : result (Grout.t Float.float) :=
  Grout.__init__ (86400, 43200) (512, 512)
    (Some (fl (-180), fl 180, fl (-90), fl 90)) None.

(** The float nearest to [0.1]. *)
Definition tenth : Float.float := S754_finite false 7205759403792794 (-56).

(** [Grout(dim=(1000, 500), blocksize=(100, 100),
          transform=(0.0, 0.1, 0.0, 50.0, 0.0, -0.1))] *)
Definition geotransform : result (Grout.t Float.float) :=
  Grout.__init__ (1000, 500) (100, 100) None
    (Some (fl 0, tenth, fl 0, fl 50, fl 0, SFopp tenth)).

(** [Grout(dim=(2**1025, 1), blocksize=(2**1023, 1),
          transform=(0.0, 1.0, 0.0, 1.0, 0.0, -1.0))]: four tile columns, of
    which the third starts at pixel [2**1024]. *)
Definition huge : result (Grout.t Float.float) :=
  Grout.__init__ (2 ^ 1025, 1) (2 ^ 1023, 1) None
    (Some (fl 0, fl 1, fl 0, fl 1, fl 0, fl (-1))).

(** [Grout(dim=(1, 1), blocksize=(2**1100, 1), extent=(0.0, 1.0, 0.0, 1.0))]:
    the quotient [1 / 2**1100] is [0.0]. *)
Definition tiny : result (Grout.t Float.float) :=
  Grout.__init__ (1, 1) (2 ^ 1100, 1) (Some (fl 0, fl 1, fl 0, fl 1)) None.

(** [Grout(dim=(2**40, 2**40), blocksize=(1, 1), extent=(0.0, 1.0, 0.0, 1.0))],
    a grid of [2**80] tiles. *)
Definition vast : result (Grout.t Float.float) :=
  Grout.__init__ (2 ^ 40, 2 ^ 40) (1, 1) (Some (fl 0, fl 1, fl 0, fl 1)) None.

(** [Grout(dim=(1000, 1000), blocksize=(256, 256),
          transform=(0.1, 0.1, 0.0, 100.0, 0.0, -0.1))] *)
Definition shifted : result (Grout.t Float.float) :=
  Grout.__init__ (1000, 1000) (256, 256) None
    (Some (tenth, tenth, fl 0, fl 100, fl 0, SFopp tenth)).

(** The same grid on exact rationals. *)
Definition far_exact : result (Grout.t Fraction) :=
  Grout.__init__ (1000, 1000) (256, 256)
    (Some (Q2Qc 1000000000, Q2Qc 1000000100, Q2Qc 0, Q2Qc 100)) None.

End Example.

(* ================================================================== *)
(** ** [Grout.__repr__] and [tile_index] *)

Module Repr.
Import Ascii String.
Local Open Scope string_scope.

(** [str(z)] of an [int], which is what [{z}] gives in an f-string. *)
Definition str (z : Z) : string :=
  DecimalString.NilEmpty.string_of_int (Z.to_int z).

(** The characters [str] produces. *)
Definition numeric (c : Ascii.ascii) : bool :=
  existsb (Ascii.eqb c)
    ["-"; "0"; "1"; "2"; "3"; "4"; "5"; "6"; "7"; "8"; "9"]%char.

Fixpoint all_numeric (s : string) : bool :=
  match s with
  | EmptyString => true
  | String c s' => numeric c && all_numeric s'
  end.

Definition __repr__ {F : Type} (self : Grout.t F) : string :=
  "Grout(dim=(" ++ str (Grout.ncol self) ++ ", " ++ str (Grout.nrow self) ++ "), "
  ++ "blocksize=(" ++ str (Grout.block_width self) ++ ", "
  ++ str (Grout.block_height self) ++ "), "
  ++ "tiles=(" ++ str (Grout.tile_cols self) ++ ", " ++ str (Grout.tile_rows self) ++ "))".

End Repr.

Module TileIndex.
Import String.
Section WithBackends.
Context {F : Type} {num : Number F}.

(** The constructors of the two table libraries, [pandas.DataFrame] and
    [polars.DataFrame], applied to the list of records; both libraries are
    taken to be installed. *)
Variables PandasFrame PolarsFrame : Type.
Variable pd_DataFrame : list (TileSpec.t F) -> PandasFrame.
Variable pl_DataFrame : list (TileSpec.t F) -> PolarsFrame.

(** What [tile_index] returns. *)
Inductive table :=
| Tiles (tiles : list (TileSpec.t F))
| Pandas (df : PandasFrame)
| Polars (df : PolarsFrame).

(** [list(obj)] on an object that has [__len__] and a generator [__iter__]:
    [list] takes the length as a size hint, then advances the generator to
    its end, and gives the values or the exception that stopped it.
    Allocation is taken never to fail. *)
Definition list_of {A} (hint : Z) (it : gen A) : result (list A) :=
  _ <- len hint ;;
  match it with
  | (xs, None) => Ok xs
  | (_, Some e) => Raise e
  end.

Definition tile_index (g : Grout.t F) (backend : string) : result table :=
  tiles <- list_of (Grout.__len__ g) (Grout.__iter__ g) ;;
  if String.eqb backend "list"%string then Ok (Tiles tiles)
  else if String.eqb backend "pandas"%string then Ok (Pandas (pd_DataFrame tiles))
  else if String.eqb backend "polars"%string then Ok (Polars (pl_DataFrame tiles))
  else Raise ValueError.

End WithBackends.
End TileIndex.

(** Pixel [(x, y)] of the grid lies in the tile [s]. *)
Definition pixel_in {F : Type} (s : TileSpec.t F) (x y : Z) : Prop :=
  TileSpec.offset_x s <= x < TileSpec.offset_x s + TileSpec.ncol s /\
  TileSpec.offset_y s <= y < TileSpec.offset_y s + TileSpec.nrow s.

(* ================================================================== *)
(** * Properties *)

(** ** binary64: the ceiling of an [int / int] quotient *)

Module FloatFacts.
Import Float.

Lemma digits2_size p : digits2_pos p = Pos.size p.
Proof. induction p; simpl; congruence. Qed.

(** [digits2_pos p] is the number of binary digits of [p]. *)
Lemma digits_bounds p :
  2 ^ (Z.pos (digits2_pos p) - 1) <= Z.pos p < 2 ^ Z.pos (digits2_pos p).
Proof.
  rewrite digits2_size. split.
  - pose proof (Pos.size_le p) as H.
    apply Pos2Z.pos_le_pos in H. rewrite Pos2Z.inj_pow in H.
    replace (Z.pos (Pos.size p)) with (Z.succ (Z.pos (Pos.size p) - 1)) in H by lia.
    rewrite Z.pow_succ_r in H by lia. change (Z.pos p~0) with (2 * Z.pos p) in H. lia.
  - pose proof (Pos.size_gt p) as H.
    apply Pos2Z.pos_lt_pos in H. now rewrite Pos2Z.inj_pow in H.
Qed.

Lemma digits_unique p k :
  2 ^ (k - 1) <= Z.pos p < 2 ^ k -> Z.pos (digits2_pos p) = k.
Proof.
  intros [Hl Hu]. pose proof (digits_bounds p) as [Dl Du].
  set (d := Z.pos (digits2_pos p)) in *.
  assert (0 < d) by (subst d; lia).
  destruct (Z.lt_trichotomy d k) as [Hlt | [Heq | Hgt]]; trivial; exfalso.
  - assert (2 ^ d <= 2 ^ (k - 1)) by (apply Z.pow_le_mono_r; lia). lia.
  - assert (0 <= k).
    { destruct (Z.lt_ge_cases k 0) as [Hn|]; trivial.
      rewrite (Z.pow_neg_r 2 k) in Hu by trivial. lia. }
    assert (2 ^ k <= 2 ^ (d - 1)) by (apply Z.pow_le_mono_r; lia). lia.
Qed.

Lemma loc_roundtrip m l : loc_of_shr_record (shr_record_of_loc m l) = l.
Proof. destruct l as [|[]]; reflexivity. Qed.

Lemma shr_fexp_keep m e l :
  Zdigits2 m = 53 -> -1074 <= e ->
  shr_fexp prec emax m e l = (shr_record_of_loc m l, e).
Proof.
  intros Hd He. unfold shr_fexp, fexp, SpecFloat.emin, prec, emax. rewrite Hd.
  replace (Z.max (53 + e - 53) (3 - 1024 - 53) - e) with 0 by lia.
  reflexivity.
Qed.

Lemma shr_fexp_once m e l :
  Zdigits2 m = 54 -> -1075 <= e ->
  shr_fexp prec emax m e l = (shr_1 (shr_record_of_loc m l), e + 1).
Proof.
  intros Hd He. unfold shr_fexp, fexp, SpecFloat.emin, prec, emax. rewrite Hd.
  replace (Z.max (54 + e - 53) (3 - 1024 - 53) - e) with 1 by lia.
  reflexivity.
Qed.

Lemma Zdigits2_range q k :
  0 < k -> 2 ^ (k - 1) <= q < 2 ^ k -> Zdigits2 q = k.
Proof.
  intros Hk H. assert (0 < 2 ^ (k - 1)) by (apply Z.pow_pos_nonneg; lia).
  destruct q as [|p|p]; try lia. simpl. now apply digits_unique.
Qed.

(** The mantissa kept by one right shift and the location of what it dropped. *)
Lemma shr_1_pos q l :
  0 < q ->
  shr_1 (shr_record_of_loc q l) =
  {| shr_m := q / 2; shr_r := Z.odd q;
     shr_s := match l with loc_Exact => false | _ => true end |}.
Proof.
  intros Hq. destruct q as [|p|p]; try lia.
  assert (Hdiv : forall p', Z.pos p'~0 / 2 = Z.pos p' /\ Z.pos p'~1 / 2 = Z.pos p').
  { intros p'. split.
    - change (Z.pos p'~0) with (2 * Z.pos p'). rewrite Z.mul_comm. apply Z.div_mul. lia.
    - change (Z.pos p'~1) with (2 * Z.pos p' + 1). symmetry.
      apply Z.div_unique with (r := 1); lia. }
  destruct p as [p|p|]; destruct l as [|[]]; simpl shr_1; cbn [shr_record_of_loc shr_1 orb];
    rewrite ?(proj1 (Hdiv p)), ?(proj2 (Hdiv p)); reflexivity.
Qed.


(** The second normalisation of [binary_round_aux]: a mantissa that rounding
    carried to [2^53] is shifted once more, the value is kept. *)
Lemma finish_round sx M E :
  2 ^ 52 <= M <= 2 ^ 53 -> -1074 <= E <= 900 ->
  exists m e,
    (let '(mrs, e'') := shr_fexp prec emax M E loc_Exact in
     match shr_m mrs with
     | Z0 => S754_zero sx
     | Zpos m => if Z.leb e'' (emax - prec) then S754_finite sx m e'' else S754_infinity sx
     | _ => S754_nan
     end) = S754_finite sx m e /\ E <= e <= E + 1 /\ Z.pos m * 2 ^ (e - E) = M.
Proof.
  intros HM HE.
  destruct (Z.eq_dec M (2 ^ 53)) as [-> | Hne].
  - rewrite shr_fexp_once by (try reflexivity; lia).
    exists (4503599627370496%positive), (E + 1). cbn [shr_1 shr_record_of_loc shr_m].
    replace (E + 1 <=? emax - prec) with true by (symmetry; apply Z.leb_le; unfold emax, prec; lia).
    replace (E + 1 - E) with 1 by lia. repeat split; try lia.
  - rewrite shr_fexp_keep by (try lia; apply Zdigits2_range; lia).
    destruct M as [|m|m]; try lia. exists m, E. cbn [shr_record_of_loc shr_m].
    replace (E <=? emax - prec) with true by (symmetry; apply Z.leb_le; unfold emax, prec; lia).
    replace (E - E) with 0 by lia. repeat split; try lia.
Qed.

Lemma round_nearest_even_range q l :
  q <= round_nearest_even q l <= q + 1.
Proof. destruct l as [|[]]; simpl; try destruct (Z.even q); lia. Qed.

Lemma binary_round_aux_pos sx q e l :
  2 ^ 52 <= q < 2 ^ 54 -> -1074 <= e <= 899 ->
  exists m e2,
    binary_round_aux prec emax sx q e l = S754_finite sx m e2 /\
    snd (rounded q e l) <= e2 <= snd (rounded q e l) + 1 /\
    Z.pos m * 2 ^ (e2 - snd (rounded q e l)) = fst (rounded q e l).
Proof.
  intros Hq He. unfold binary_round_aux, rounded.
  destruct (Z.ltb_spec q (2 ^ 53)) as [Hlt | Hge].
  - rewrite shr_fexp_keep by (try lia; apply Zdigits2_range; lia).
    cbn [fst snd shr_m]. rewrite loc_roundtrip.
    replace (shr_m (shr_record_of_loc q l)) with q by (destruct l as [|[]]; reflexivity).
    pose proof (round_nearest_even_range q l).
    apply finish_round; lia.
  - rewrite shr_fexp_once by (try lia; apply Zdigits2_range; lia).
    cbn [fst snd]. rewrite shr_1_pos by lia. cbn [shr_m].
    match goal with |- context [round_nearest_even ?a ?b] =>
      pose proof (round_nearest_even_range a b) end.
    assert (2 ^ 52 <= q / 2 < 2 ^ 53).
    { split; [apply Z.div_le_lower_bound | apply Z.div_lt_upper_bound]; lia. }
    apply finish_round; lia.
Qed.

Lemma ceil_div_spec x y : 0 < y -> (ceil_div x y - 1) * y < x <= ceil_div x y * y.
Proof.
  intros Hy. unfold ceil_div.
  pose proof (Z.div_mod (- x) y ltac:(lia)).
  pose proof (Z.mod_pos_bound (- x) y Hy). nia.
Qed.

Lemma ceil_div_unique x y k : 0 < y -> (k - 1) * y < x <= k * y -> ceil_div x y = k.
Proof.
  intros Hy H. unfold ceil_div.
  rewrite <- (Z.div_unique (- x) y (- k) (k * y - x)); lia.
Qed.

(** The location of a remainder [r] of a division by [b]: how [2 * r]
    compares with [b]. *)
Lemma new_location_spec b r :
  0 <= r < b ->
  new_location b r = if r =? 0 then loc_Exact else loc_Inexact (2 * r ?= b).
Proof.
  intros Hr. unfold new_location, new_location_even, new_location_odd.
  destruct (Z.even b) eqn:Hev; destruct (Z.eqb_spec r 0); trivial.
  f_equal.
  assert (Hodd : Z.odd b = true) by (rewrite <- Z.negb_even, Hev; reflexivity).
  apply Z.odd_spec in Hodd. destruct Hodd as [c Hc].
  destruct (Z.compare_spec (2 * r + 1) b), (Z.compare_spec (2 * r) b); trivial; lia.
Qed.

(** Rounding to nearest on a grid fine enough to separate [a/b] from the
    integer below it keeps the ceiling. *)
Lemma ceil_div_round a b N M :
  0 < a -> 0 < b -> 0 < N -> b < 2 * N ->
  (M = a * N / b \/ M = a * N / b + 1) ->
  (M = a * N / b -> 2 * ((a * N) mod b) <= b) ->
  ((a * N) mod b = 0 -> M = a * N / b) ->
  ceil_div M N = ceil_div a b.
Proof.
  intros Ha Hb HN HbN HM Hdown Hex.
  pose proof (ceil_div_spec a b Hb) as Hk. set (k := ceil_div a b) in *.
  pose proof (Z.div_mod (a * N) b ltac:(lia)) as Hdm.
  pose proof (Z.mod_pos_bound (a * N) b Hb) as Hr.
  set (Q := a * N / b) in *. set (r := (a * N) mod b) in *.
  apply ceil_div_unique; trivial. split.
  - assert ((k - 1) * N <= Q) by nia.
    destruct (Z.eq_dec Q ((k - 1) * N)) as [HQ | HQ]; [|lia].
    assert (r = N * (a - (k - 1) * b)) by nia.
    assert (N <= r) by nia.
    destruct HM as [HM | HM]; [specialize (Hdown HM); lia | lia].
  - assert (Q <= k * N) by nia.
    destruct (Z.eq_dec Q (k * N)) as [HQ | HQ]; [|lia].
    assert (r = 0) by nia. specialize (Hex ltac:(assumption)). lia.
Qed.

Lemma rounded_ceil a b s :
  0 < a -> 0 < b -> 1 <= s -> b < 2 ^ s -> 0 < a * 2 ^ s / b ->
  snd (rounded (a * 2 ^ s / b) (- s) (new_location b ((a * 2 ^ s) mod b))) <= 0 /\
  ceil_div (fst (rounded (a * 2 ^ s / b) (- s) (new_location b ((a * 2 ^ s) mod b))))
           (2 ^ (- snd (rounded (a * 2 ^ s / b) (- s) (new_location b ((a * 2 ^ s) mod b)))))
  = ceil_div a b.
Proof.
  intros Ha Hb Hs Hbs Hq.
  pose proof (Z.mod_pos_bound (a * 2 ^ s) b Hb) as Hr.
  pose proof (Z.div_mod (a * 2 ^ s) b ltac:(lia)) as Hdm.
  rewrite new_location_spec by trivial.
  set (q := a * 2 ^ s / b) in *. set (r := (a * 2 ^ s) mod b) in *.
  unfold rounded. destruct (Z.ltb_spec q (2 ^ 53)) as [Hlt | Hge]; cbn [fst snd].
  - split; [lia|]. rewrite Z.opp_involutive.
    assert (0 < 2 ^ s) by (apply Z.pow_pos_nonneg; lia).
    apply ceil_div_round; trivial; try lia; fold q; fold r.
    + pose proof (round_nearest_even_range q (if r =? 0 then loc_Exact else loc_Inexact (2 * r ?= b))).
      destruct (Z.eqb_spec r 0); cbn [round_nearest_even] in *; lia.
    + destruct (Z.eqb_spec r 0); [lia|].
      destruct (Z.compare_spec (2 * r) b); cbn [round_nearest_even]; lia.
    + intros ->. reflexivity.
  - split; [lia|]. replace (- (- s + 1)) with (s - 1) by lia.
    set (N := 2 ^ (s - 1)).
    assert (HN : 0 < N) by (apply Z.pow_pos_nonneg; lia).
    assert (H2N : 2 ^ s = 2 * N).
    { unfold N. rewrite <- Z.pow_succ_r by lia. f_equal. lia. }
    rewrite H2N in *. rewrite shr_1_pos by lia.
    assert (HQ : a * N / b = q / 2).
    { unfold q. rewrite H2N, Z.div_div by lia.
      replace (a * (2 * N)) with (a * N * 2) by lia.
      now rewrite Z.div_mul_cancel_r by lia. }
    pose proof (Z.div_mod (a * N) b ltac:(lia)) as Hdm'.
    pose proof (Z.mod_pos_bound (a * N) b Hb) as Hr'.
    pose proof (Z.div_mod q 2 ltac:(lia)) as Hq2.
    rewrite Zmod_odd in Hq2.
    apply ceil_div_round; trivial; try lia; rewrite HQ;
      set (Q := q / 2) in *; set (r' := (a * N) mod b) in *.
    + match goal with |- context [round_nearest_even ?x ?y] =>
        pose proof (round_nearest_even_range x y) end. lia.
    + destruct (Z.odd q); [|lia].
      destruct (Z.eqb_spec r 0) as [Hr0|Hr0]; [lia|].
      cbn [loc_of_shr_record round_nearest_even]. lia.
    + intros Hr0. destruct (Z.odd q); [lia|].
      destruct (Z.eqb_spec r 0); [reflexivity|lia].
Qed.

Lemma ceil_pow2_shift m E k :
  0 <= k -> E <= 0 -> ceil_pow2 m (E + k) = ceil_div (m * 2 ^ k) (2 ^ (- E)).
Proof.
  intros Hk HE. unfold ceil_pow2, ceil_div.
  assert (HN : 0 < 2 ^ (- E)) by (apply Z.pow_pos_nonneg; lia).
  destruct (Z.leb_spec 0 (E + k)).
  - replace (2 ^ k) with (2 ^ (E + k) * 2 ^ (- E))
      by (rewrite <- Z.pow_add_r by lia; f_equal; lia).
    replace (- (m * (2 ^ (E + k) * 2 ^ (- E)))) with (- (m * 2 ^ (E + k)) * 2 ^ (- E)) by lia.
    rewrite Z.div_mul by lia. lia.
  - replace (2 ^ (- E)) with (2 ^ (- (E + k)) * 2 ^ k)
      by (rewrite <- Z.pow_add_r by lia; f_equal; lia).
    assert (0 < 2 ^ k) by (apply Z.pow_pos_nonneg; lia).
    assert (0 < 2 ^ (- (E + k))) by (apply Z.pow_pos_nonneg; lia).
    replace (- (m * 2 ^ k)) with (- m * 2 ^ k) by lia.
    rewrite Z.div_mul_cancel_r by lia. reflexivity.
Qed.

(** The integer quotient [SFdiv] hands to rounding: [a * 2^s / b] with
    [s = 53 + digits b - digits a], which has 53 or 54 digits. *)
Lemma SFdiv_core_pos pa pb :
  Z.pos pa < 2 ^ 53 -> Z.pos pb < 2 ^ 53 ->
  SFdiv_core_binary prec emax (Z.pos pa) 0 (Z.pos pb) 0 =
  (Z.pos pa * 2 ^ (53 + Z.pos (digits2_pos pb) - Z.pos (digits2_pos pa)) / Z.pos pb,
   - (53 + Z.pos (digits2_pos pb) - Z.pos (digits2_pos pa)),
   new_location (Z.pos pb)
     ((Z.pos pa * 2 ^ (53 + Z.pos (digits2_pos pb) - Z.pos (digits2_pos pa))) mod Z.pos pb)).
Proof.
  intros Ha Hb. unfold SFdiv_core_binary. cbn [Zdigits2].
  pose proof (digits_bounds pa) as Da. pose proof (digits_bounds pb) as Db.
  set (d1 := Z.pos (digits2_pos pa)) in *. set (d2 := Z.pos (digits2_pos pb)) in *.
  assert (0 < d1) by (subst d1; lia). assert (0 < d2) by (subst d2; lia).
  assert (d1 <= 53).
  { destruct (Z.le_gt_cases d1 53); trivial.
    assert (2 ^ 53 <= 2 ^ (d1 - 1)) by (apply Z.pow_le_mono_r; lia). lia. }
  assert (d2 <= 53).
  { destruct (Z.le_gt_cases d2 53); trivial.
    assert (2 ^ 53 <= 2 ^ (d2 - 1)) by (apply Z.pow_le_mono_r; lia). lia. }
  set (s := 53 + d2 - d1).
  replace (Z.min (fexp prec emax (d1 + 0 - (d2 + 0))) (0 - 0)) with (- s)
    by (unfold fexp, SpecFloat.emin, prec, emax; lia).
  replace (0 - 0 - - s) with s by lia.
  assert (Hs : 0 < s) by (subst s; lia).
  destruct s as [|ps|ps] eqn:Es; try lia. rewrite <- Es.
  rewrite Z.shiftl_mul_pow2 by lia.
  unfold Z.div, Z.modulo.
  destruct (Z.div_eucl (Z.pos pa * 2 ^ s) (Z.pos pb)) as [q r]. reflexivity.
Qed.

(** [math.ceil(a / b)] is the ceiling of the quotient when [a] and [b] are
    positive and below [2^53]: the float nearest to [a / b] lies on a grid of
    step at most [1 / (2 * b)], too fine to reach the integer below [a / b]. *)
Theorem int_truediv_ceil a b :
  0 < a < 2 ^ 53 -> 0 < b < 2 ^ 53 ->
  exists q, int_truediv a b = Ok q /\ math_ceil q = Ok (ceil_div a b).
Proof.
  intros Ha Hb.
  destruct a as [|pa|pa]; try lia. destruct b as [|pb|pb]; try lia.
  unfold int_truediv. cbn [Z.abs Z.to_pos Z.ltb Z.compare SFdiv xorb].
  rewrite SFdiv_core_pos by lia.
  pose proof (digits_bounds pa) as Da. pose proof (digits_bounds pb) as Db.
  set (d1 := Z.pos (digits2_pos pa)) in *. set (d2 := Z.pos (digits2_pos pb)) in *.
  assert (0 < d1) by (subst d1; lia). assert (0 < d2) by (subst d2; lia).
  assert (d1 <= 53).
  { destruct (Z.le_gt_cases d1 53); trivial.
    assert (2 ^ 53 <= 2 ^ (d1 - 1)) by (apply Z.pow_le_mono_r; lia). lia. }
  assert (d2 <= 53).
  { destruct (Z.le_gt_cases d2 53); trivial.
    assert (2 ^ 53 <= 2 ^ (d2 - 1)) by (apply Z.pow_le_mono_r; lia). lia. }
  set (s := 53 + d2 - d1).
  assert (Hs : 1 <= s) by (subst s; lia).
  assert (Hbs : Z.pos pb < 2 ^ s).
  { assert (2 ^ d2 <= 2 ^ s) by (apply Z.pow_le_mono_r; lia). lia. }
  (* the quotient has 53 or 54 digits *)
  assert (Hq : 2 ^ 52 <= Z.pos pa * 2 ^ s / Z.pos pb < 2 ^ 54).
  { assert (E1 : 2 ^ (d1 - 1) * 2 ^ s = 2 ^ 52 * 2 ^ d2).
    { rewrite <- !Z.pow_add_r by lia. f_equal. lia. }
    assert (E2 : 2 ^ d1 * 2 ^ s = 2 ^ 54 * 2 ^ (d2 - 1)).
    { rewrite <- !Z.pow_add_r by lia. f_equal. lia. }
    assert (0 < 2 ^ s) by (apply Z.pow_pos_nonneg; lia).
    split; [apply Z.div_le_lower_bound | apply Z.div_lt_upper_bound]; nia. }
  set (q := Z.pos pa * 2 ^ s / Z.pos pb) in *.
  set (l := new_location (Z.pos pb) ((Z.pos pa * 2 ^ s) mod Z.pos pb)).
  destruct (binary_round_aux_pos false q (- s) l) as (m & e2 & Hres & He2 & Hval); try lia.
  rewrite Hres. eexists; split; [reflexivity|].
  destruct (rounded_ceil (Z.pos pa) (Z.pos pb) s) as [HE Hceil]; try lia.
  fold q l in HE, Hceil.
  set (E := snd (rounded q (- s) l)) in *. set (M := fst (rounded q (- s) l)) in *.
  cbn [math_ceil cond_Zopp]. f_equal. rewrite <- Hceil, <- Hval.
  replace e2 with (E + (e2 - E)) at 1 by lia.
  apply ceil_pow2_shift; lia.
Qed.


Lemma iter_xO p k : Z.pos (Pos.iter xO p k) = Z.pos p * 2 ^ Z.pos k.
Proof.
  induction k using Pos.peano_ind.
  - rewrite Z.pow_1_r. change (Pos.iter xO p 1) with (p~0)%positive. lia.
  - rewrite Pos.iter_succ, Pos2Z.inj_succ, Z.pow_succ_r by lia.
    change (Z.pos (Pos.iter xO p k)~0) with (2 * Z.pos (Pos.iter xO p k)).
    rewrite IHk. lia.
Qed.

Lemma binary_round_small sx p :
  Z.pos p < 2 ^ 53 -> exists m e, binary_round prec emax sx p 0 = S754_finite sx m e.
Proof.
  intros Hp. unfold binary_round.
  pose proof (digits_bounds p) as Dp. set (d := Z.pos (digits2_pos p)) in *.
  assert (0 < d) by (subst d; lia).
  assert (d <= 53).
  { destruct (Z.le_gt_cases d 53); trivial.
    assert (2 ^ 53 <= 2 ^ (d - 1)) by (apply Z.pow_le_mono_r; lia). lia. }
  replace (fexp prec emax (d + 0)) with (d - 53)
    by (unfold fexp, SpecFloat.emin, prec, emax; lia).
  unfold shl_align. rewrite Z.sub_0_r.
  destruct (d - 53) as [|k|k] eqn:Ek; try lia.
  - destruct (binary_round_aux_pos sx (Z.pos p) 0 loc_Exact) as (m & e & Hr & _); try lia.
    { replace d with 53 in Dp by lia. simpl in Dp. lia. }
    eauto.
  - destruct (binary_round_aux_pos sx (Z.pos (Pos.iter xO p k)) (Z.neg k) loc_Exact)
      as (m & e & Hr & _); try lia; eauto.
    rewrite iter_xO.
    assert (E1 : 2 ^ (d - 1) * 2 ^ Z.pos k = 2 ^ 52) by (rewrite <- Z.pow_add_r by lia; f_equal; lia).
    assert (E2 : 2 ^ d * 2 ^ Z.pos k = 2 ^ 53) by (rewrite <- Z.pow_add_r by lia; f_equal; lia).
    assert (0 < 2 ^ Z.pos k) by (apply Z.pow_pos_nonneg; lia).
    nia.
Qed.

(** Integers below [2^53] in magnitude convert, without overflow and
    without vanishing. *)
Theorem float_of_int_small z :
  Z.abs z < 2 ^ 53 ->
  exists x, float_of_int z = Some x /\ (z <> 0 -> is_zero x = false).
Proof.
  intros Hz. unfold float_of_int, binary_normalize.
  destruct z as [|p|p].
  - eexists; split; [reflexivity | congruence].
  - destruct (binary_round_small false p Hz) as (m & e & ->).
    eexists; split; reflexivity.
  - destruct (binary_round_small true p Hz) as (m & e & ->).
    eexists; split; reflexivity.
Qed.

(** No rounding of a non-negative mantissa is a NaN, and the sign is kept. *)
Lemma shr_1_nonneg mrs : 0 <= shr_m mrs -> 0 <= shr_m (shr_1 mrs).
Proof. destruct mrs as [[|[p|p|]|p] r s]; simpl; lia. Qed.

Lemma iter_pos_inv {A} (P : A -> Prop) (f : A -> A) :
  (forall x, P x -> P (f x)) -> forall p x, P x -> P (iter_pos f p x).
Proof. intros Hf. induction p; simpl; auto. Qed.

Lemma shr_fexp_nonneg m e l : 0 <= m -> 0 <= shr_m (fst (shr_fexp prec emax m e l)).
Proof.
  intros Hm. unfold shr_fexp, shr.
  assert (0 <= shr_m (shr_record_of_loc m l)) by (destruct l as [|[]]; simpl; lia).
  destruct (fexp prec emax (Zdigits2 m + e) - e); simpl; trivial.
  apply (iter_pos_inv (fun r => 0 <= shr_m r)); trivial. apply shr_1_nonneg.
Qed.


Lemma binary_round_aux_sign sx m e l :
  0 <= m -> has_sign sx (binary_round_aux prec emax sx m e l).
Proof.
  intros Hm. unfold binary_round_aux.
  pose proof (shr_fexp_nonneg m e l Hm) as H1.
  destruct (shr_fexp prec emax m e l) as [mrs' e']. cbn [fst] in H1.
  pose proof (round_nearest_even_range (shr_m mrs') (loc_of_shr_record mrs')) as H2.
  pose proof (shr_fexp_nonneg (round_nearest_even (shr_m mrs') (loc_of_shr_record mrs')) e'
                loc_Exact ltac:(lia)) as H3.
  destruct (shr_fexp prec emax _ e' loc_Exact) as [mrs'' e'']. cbn [fst] in H3.
  destruct (shr_m mrs''); try lia; cbn [has_sign]; trivial.
  destruct (e'' <=? emax - prec); cbn [has_sign]; trivial.
Qed.

Lemma SFdiv_sign sx sy mx my :
  has_sign (xorb sx sy) (SFdiv prec emax (S754_finite sx mx 0) (S754_finite sy my 0)).
Proof.
  cbn [SFdiv]. unfold SFdiv_core_binary.
  match goal with |- context [Z.div_eucl ?a ?b] =>
    pose proof (Z.div_pos a b) as Hq; unfold Z.div in Hq;
    assert (Ha : 0 <= a); [| destruct (Z.div_eucl a b) as [q r]] end.
  { destruct (0 - 0 - _) eqn:E; try lia. rewrite Z.shiftl_mul_pow2 by lia.
    apply Z.mul_nonneg_nonneg; [lia | apply Z.pow_nonneg; lia]. }
  apply binary_round_aux_sign. apply Hq; lia.
Qed.

(** The quotient of two integers is never a NaN, so [math.ceil] accepts it;
    and the ceiling is non-negative for a non-negative dividend and a
    positive divisor, whatever their size. *)
Theorem int_truediv_finite a b q :
  int_truediv a b = Ok q -> exists k, math_ceil q = Ok k /\ (0 <= a -> 0 < b -> 0 <= k).
Proof.
  unfold int_truediv. destruct b as [|pb|pb]; try discriminate.
  - destruct a as [|pa|pa].
    + intros [= <-]. exists 0. split; [reflexivity | lia].
    + pose proof (SFdiv_sign false false pa pb) as Hs.
      cbn [Z.ltb Z.compare Z.abs Z.to_pos].
      destruct (SFdiv _ _ _ _) as [s|s| |s m e]; simpl in Hs; try discriminate; try contradiction;
        intros [= <-]; simpl; eexists; split; try reflexivity; intros _ _; try lia.
      subst s. unfold ceil_pow2, cond_Zopp.
      destruct (Z.leb_spec 0 e).
      * apply Z.mul_nonneg_nonneg; [lia | apply Z.pow_nonneg; lia].
      * assert (0 < 2 ^ (- e)) by (apply Z.pow_pos_nonneg; lia).
        pose proof (ceil_div_spec (Z.pos m) (2 ^ (- e)) ltac:(lia)). nia.
    + pose proof (SFdiv_sign true false pa pb) as Hs.
      cbn [Z.ltb Z.compare Z.abs Z.to_pos].
      destruct (SFdiv _ _ _ _) as [s|s| |s m e]; simpl in Hs; try discriminate; try contradiction;
        intros [= <-]; simpl; eexists; split; try reflexivity; lia.
  - destruct a as [|pa|pa].
    + intros [= <-]. exists 0. split; [reflexivity | lia].
    + pose proof (SFdiv_sign false true pa pb) as Hs.
      cbn [Z.ltb Z.compare Z.abs Z.to_pos].
      destruct (SFdiv _ _ _ _) as [s|s| |s m e]; simpl in Hs; try discriminate; try contradiction;
        intros [= <-]; simpl; eexists; split; try reflexivity; lia.
    + pose proof (SFdiv_sign true true pa pb) as Hs.
      cbn [Z.ltb Z.compare Z.abs Z.to_pos].
      destruct (SFdiv _ _ _ _) as [s|s| |s m e]; simpl in Hs; try discriminate; try contradiction;
        intros [= <-]; simpl; eexists; split; try reflexivity; lia.
Qed.

Lemma int_truediv_raises a b e :
  int_truediv a b = Raise e -> e = ZeroDivisionError \/ e = OverflowError.
Proof.
  unfold int_truediv. destruct b, a; try discriminate;
    try (intros [= <-]; now left);
    destruct (SFdiv _ _ _ _); try discriminate; intros [= <-]; now right.
Qed.

(** [math.ceil(a / b)] raises for a zero divisor or a quotient beyond the
    float range, and for nothing else. *)
Lemma ceil_truediv_raises a b e :
  (q <- int_truediv a b ;; math_ceil q) = Raise e ->
  (e = ZeroDivisionError /\ b = 0) \/ (e = OverflowError /\ b <> 0).
Proof.
  destruct (int_truediv a b) as [q|e'] eqn:Hq; cbn [bind].
  - destruct (int_truediv_finite a b q Hq) as (k & -> & _). discriminate.
  - intros [= <-]. unfold int_truediv in Hq.
    destruct b; [left; split; congruence | right | right];
      (split; [|discriminate]);
      destruct a; try discriminate;
      destruct (SFdiv _ _ _ _); congruence.
Qed.

End FloatFacts.

(* ================================================================== *)
(** ** Number types *)

#[export] Instance float_laws : NumberLaws Float.float.
Proof.
  split.
  - intros z Hz. destruct (FloatFacts.float_of_int_small z Hz) as (x & Hx & _). eauto.
  - intros z x Hz Hs Hx. cbn in Hx.
    destruct (FloatFacts.float_of_int_small z Hs) as (y & Hy & Hnz).
    rewrite Hy in Hx. injection Hx as <-. auto.
  - intros [s|s| |s m e]; cbn; now rewrite ?negb_involutive.
Qed.

#[export] Instance fraction_laws : NumberLaws Fraction.
Proof.
  split.
  - intros z _. cbn. eauto.
  - intros z x Hz _ [= <-]. unfold is_zero, fraction_number, Q2Qc, this.
    apply Z.eqb_neq. intros Hn.
    pose proof (Qred_correct (inject_Z z)) as Hq. unfold Qeq in Hq.
    rewrite Hn in Hq. cbn in Hq. lia.
  - intros x. apply Qcopp_involutive.
Qed.

(* ================================================================== *)
(** ** Ranges and generators *)

Section Generators.
Context {A B : Type}.

Lemma range_In i n : In i (range n) <-> 0 <= i < n.
Proof.
  unfold range. rewrite in_map_iff. split.
  - intros (k & <- & Hk). apply in_seq in Hk. lia.
  - intros Hi. exists (Z.to_nat i). rewrite in_seq. split; lia.
Qed.

Lemma range_length n : length (range n) = Z.to_nat n.
Proof. unfold range. now rewrite length_map, length_seq. Qed.

Lemma range_nil n : n <= 0 -> range n = [].
Proof. intros Hn. unfold range. now replace (Z.to_nat n) with O by lia. Qed.

Lemma gen_seq_done_r (g : gen B) : gen_seq g gen_done = g.
Proof. destruct g as [xs [e|]]; cbn; now rewrite ?app_nil_r. Qed.

Lemma gen_seq_done_l (g : gen B) : gen_seq gen_done g = g.
Proof. now destruct g. Qed.

Lemma gen_seq_assoc (g1 g2 g3 : gen B) :
  gen_seq (gen_seq g1 g2) g3 = gen_seq g1 (gen_seq g2 g3).
Proof.
  destruct g1 as [xs [e|]], g2 as [ys [e'|]], g3 as [zs o]; cbn;
    now rewrite <- ?app_assoc.
Qed.

Lemma for_in_app (l1 l2 : list A) (body : A -> gen B) :
  for_in (l1 ++ l2) body = gen_seq (for_in l1 body) (for_in l2 body).
Proof.
  induction l1 as [|x l1 IH]; cbn [app for_in].
  - now rewrite gen_seq_done_l.
  - now rewrite IH, gen_seq_assoc.
Qed.

Lemma for_in_ext (l : list A) (f g : A -> gen B) :
  (forall x, In x l -> f x = g x) -> for_in l f = for_in l g.
Proof.
  induction l as [|x l IH]; intros H; cbn [for_in]; trivial.
  rewrite (H x), IH; auto with datatypes.
Qed.

Lemma for_in_done (l : list A) : for_in l (fun _ => @gen_done B) = gen_done.
Proof. induction l as [|x l IH]; cbn [for_in]; trivial. now rewrite IH. Qed.

(** A loop whose every [yield] evaluates without raising runs to its end and
    yields once per element. *)
Lemma for_in_yield_ok (l : list A) (f : A -> result B) :
  (forall x, In x l -> exists y, f x = Ok y) ->
  exists ys, for_in l (fun x => yield (f x)) = (ys, None) /\ map Ok ys = map f l.
Proof.
  induction l as [|x l IH]; intros H; cbn [for_in map].
  - now exists [].
  - destruct (H x) as [y Hy]; auto with datatypes.
    destruct IH as (ys & Hys & Hmap); auto with datatypes.
    exists (y :: ys). rewrite Hy, Hys. cbn. now rewrite Hmap.
Qed.

(** Generator objects do not share state: under any interleaving each one
    gives what it gives when advanced alone. *)
(** Advancing a generator that ends normally [n] times gives its first [n]
    values, then reports exhaustion. *)
Lemma take_next_ok (ys : list B) (n : nat) :
  take_next n (ys, None) =
  map (fun y => Ok (Some y)) (firstn n ys) ++ repeat (Ok None) (n - length ys).
Proof.
  revert ys. induction n as [|n IH]; intros ys; trivial.
  destruct ys as [|y ys]; cbn [take_next next firstn map length app].
  - change (@gen_done B) with (@nil B, @None exn). rewrite IH.
    rewrite firstn_nil. cbn [map app length]. now rewrite !Nat.sub_0_r.
  - rewrite IH. reflexivity.
Qed.

End Generators.

Lemma put_length {A} (n : nat) (x : A) (l : list A) : length (put n x l) = length l.
Proof.
  revert n. induction l as [|y l IH]; intros [|n]; cbn [put length]; auto.
Qed.

Lemma nth_error_put_eq {A} (n : nat) (x : A) (l : list A) :
  (n < length l)%nat -> nth_error (put n x l) n = Some x.
Proof.
  revert n. induction l as [|y l IH]; intros [|n]; cbn [put length nth_error]; try lia.
  - reflexivity.
  - intros H. apply IH. lia.
Qed.

Lemma nth_error_put_neq {A} (n m : nat) (x : A) (l : list A) :
  n <> m -> nth_error (put n x l) m = nth_error l m.
Proof.
  revert n m. induction l as [|y l IH]; intros [|n] [|m] H; cbn [put nth_error];
    trivial; try congruence.
  apply IH. congruence.
Qed.

(** Two distinct generator objects advanced in any order: each gives what it
    gives when advanced alone, and the other objects of the store are left
    as they were. *)
Lemma run_two {A} (a b : nat) (sched : list nat) :
  a <> b -> Forall (fun it => it = a \/ it = b) sched ->
  forall (st : store A) ga gb,
    nth_error st a = Some ga -> nth_error st b = Some gb ->
    calls_on a (fst (run sched st)) =
      map Some (take_next (count_occ Nat.eq_dec sched a) ga) /\
    calls_on b (fst (run sched st)) =
      map Some (take_next (count_occ Nat.eq_dec sched b) gb) /\
    forall c, c <> a -> c <> b -> nth_error (snd (run sched st)) c = nth_error st c.
Proof.
  intros Hab Hs. induction Hs as [|it sched Hit Hs IH]; intros st ga gb Ha Hb.
  - cbn. auto.
  - assert (La : (a < length st)%nat) by (apply nth_error_Some; congruence).
    assert (Lb : (b < length st)%nat) by (apply nth_error_Some; congruence).
    cbn [run count_occ]. unfold next_of. destruct Hit as [-> | ->].
    + rewrite Ha. destruct (next ga) as [r ga'] eqn:Hn.
      destruct (IH (put a ga' st) ga' gb) as (IHa & IHb & IHc).
      { now apply nth_error_put_eq. }
      { now rewrite nth_error_put_neq. }
      destruct (run sched (put a ga' st)) as [out st'']. cbn [fst snd] in *.
      unfold calls_on in *. cbn [filter fst].
      rewrite Nat.eqb_refl. replace (Nat.eqb a b) with false
        by (symmetry; now apply Nat.eqb_neq).
      destruct (Nat.eq_dec a a) as [_|]; [|congruence].
      destruct (Nat.eq_dec a b) as [|_]; [congruence|].
      cbn [map snd take_next]. rewrite Hn, IHa. repeat split; trivial.
      intros c Hca Hcb. rewrite IHc by trivial. now apply nth_error_put_neq.
    + rewrite Hb. destruct (next gb) as [r gb'] eqn:Hn.
      destruct (IH (put b gb' st) ga gb') as (IHa & IHb & IHc).
      { now rewrite nth_error_put_neq by congruence. }
      { now apply nth_error_put_eq. }
      destruct (run sched (put b gb' st)) as [out st'']. cbn [fst snd] in *.
      unfold calls_on in *. cbn [filter fst].
      rewrite Nat.eqb_refl. replace (Nat.eqb b a) with false
        by (symmetry; apply Nat.eqb_neq; congruence).
      destruct (Nat.eq_dec b b) as [_|]; [|congruence].
      destruct (Nat.eq_dec b a) as [|_]; [congruence|].
      cbn [map snd take_next]. rewrite Hn, IHb. repeat split; trivial.
      intros c Hca Hcb. rewrite IHc by trivial. now apply nth_error_put_neq.
Qed.

Lemma for_in_map {A B C} (h : A -> B) (l : list A) (body : B -> gen C) :
  for_in (map h l) body = for_in l (fun x => body (h x)).
Proof. induction l as [|x l IH]; cbn [map for_in]; trivial. now rewrite IH. Qed.

Lemma seq_offset (a n : nat) : seq a n = map (fun k => (a + k)%nat) (seq 0 n).
Proof.
  induction a as [|a IH]; cbn [plus].
  - now rewrite map_id.
  - rewrite <- seq_shift, IH, map_map. reflexivity.
Qed.

(** Two nested [range] loops visit the pairs in row-major order: as one loop
    over the linear index, split by [divmod]. *)
Lemma nested_ranges {B} (R C : Z) (f : Z -> Z -> gen B) :
  0 <= R -> 0 <= C ->
  for_in (range R) (fun tr => for_in (range C) (fun tc => f tc tr)) =
  for_in (range (R * C)) (fun i => f (i mod C) (i / C)).
Proof.
  intros HR HC. destruct (Z.eq_dec C 0) as [-> | HC0].
  - rewrite Z.mul_0_r. cbn [range Z.to_nat seq map for_in]. apply for_in_done.
  - pattern R. apply natlike_ind; trivial.
    intros r Hr IH. unfold range at 1. rewrite Z2Nat.inj_succ, seq_S, map_app by trivial.
    rewrite for_in_app. fold (range r). rewrite IH. cbn [plus map for_in].
    rewrite gen_seq_done_r, Z2Nat.id by trivial.
    replace (Z.succ r * C) with (r * C + C) by lia. unfold range at 3.
    rewrite Z2Nat.inj_add, seq_app, map_app, for_in_app by nia.
    fold (range (r * C)). f_equal. cbn [plus].
    rewrite (seq_offset (Z.to_nat (r * C))).
    unfold range. rewrite !for_in_map. apply for_in_ext.
    intros k Hk. apply in_seq in Hk.
    rewrite Nat2Z.inj_add, Z2Nat.id by nia.
    rewrite Z.add_comm, Z.mod_add, Z.div_add by lia.
    rewrite Z.mod_small, Z.div_small by lia. reflexivity.
Qed.

Lemma range_app a b :
  0 <= a -> 0 <= b -> range (a + b) = range a ++ map (fun j => a + j) (range b).
Proof.
  intros Ha Hb. unfold range. rewrite Z2Nat.inj_add, seq_app by lia.
  rewrite map_app. f_equal. cbn [plus]. rewrite (seq_offset (Z.to_nat a)), !map_map.
  apply map_ext. intros k. lia.
Qed.

(* ================================================================== *)
(** ** Construction *)

Section Construction.
Context {F : Type} {num : Number F} {laws : NumberLaws F}.
Import Grout.

Lemma truediv_int_raises (x : F) (z : Z) (e : exn) :
  truediv_int x z = Raise e -> e = ZeroDivisionError \/ e = OverflowError.
Proof.
  unfold truediv_int. destruct (of_int z) as [f|]; [destruct (is_zero f)|];
    intros [= <-]; auto.
Qed.

Lemma truediv_int_ok (x : F) (z : Z) :
  0 < z < 2 ^ 53 -> exists y, truediv_int x z = Ok y.
Proof.
  intros Hz. unfold truediv_int.
  destruct (of_int_small z ltac:(lia)) as [f Hf]. rewrite Hf.
  rewrite (of_int_nonzero z f); eauto; lia.
Qed.

(** What a successful construction stored. *)
Lemma init_inv dim blocksize extent transform (g : Grout.t F) :
  __init__ dim blocksize extent transform = Ok g ->
  ncol g = fst dim /\ nrow g = snd dim /\
  block_width g = fst blocksize /\ block_height g = snd blocksize /\
  (q <- Float.int_truediv (fst dim) (fst blocksize) ;; Float.math_ceil q) = Ok (tile_cols g) /\
  (q <- Float.int_truediv (snd dim) (snd blocksize) ;; Float.math_ceil q) = Ok (tile_rows g) /\
  match extent, transform with
  | Some (x0, x1, y0, y1), _ =>
      truediv_int (sub x1 x0) (fst dim) = Ok (xres g) /\
      truediv_int (sub y1 y0) (snd dim) = Ok (yres g) /\
      xmin g = x0 /\ ymax g = y1
  | None, Some (x0, rx, _, y1, _, ry) =>
      xmin g = x0 /\ xres g = rx /\ ymax g = y1 /\ yres g = neg ry
  | None, None => False
  end.
Proof.
  destruct dim as [w h], blocksize as [bw bh]. unfold __init__. cbn [fst snd].
  destruct extent as [[[[x0 x1] y0] y1]|].
  - destruct (truediv_int (sub x1 x0) w) as [rx|] eqn:Hx; [|discriminate].
    destruct (truediv_int (sub y1 y0) h) as [ry|] eqn:Hy; [|discriminate].
    cbn [bind].
    destruct (Float.int_truediv w bw) as [qc|]; [|discriminate]. cbn [bind].
    destruct (Float.math_ceil qc) as [tc|]; [|discriminate]. cbn [bind].
    destruct (Float.int_truediv h bh) as [qr|]; [|discriminate]. cbn [bind].
    destruct (Float.math_ceil qr) as [tr|]; [|discriminate]. cbn [bind].
    intros [= <-]. cbn. auto 10.
  - destruct transform as [[[[[[x0 rx] r1] y1] r2] ry]|]; [|discriminate].
    cbn [bind].
    destruct (Float.int_truediv w bw) as [qc|]; [|discriminate]. cbn [bind].
    destruct (Float.math_ceil qc) as [tc|]; [|discriminate]. cbn [bind].
    destruct (Float.int_truediv h bh) as [qr|]; [|discriminate]. cbn [bind].
    destruct (Float.math_ceil qr) as [tr|]; [|discriminate]. cbn [bind].
    intros [= <-]. cbn. auto 10.
Qed.

(** The tile counts of a grid of valid sizes are the exact ceilings. *)
Lemma init_well_formed dim blocksize extent transform (g : Grout.t F) :
  valid_dims dim blocksize ->
  __init__ dim blocksize extent transform = Ok g ->
  well_formed g.
Proof.
  intros Hv Hg.
  destruct (init_inv _ _ _ _ _ Hg) as (E1 & E2 & E3 & E4 & Hc & Hr & _).
  destruct Hv as (Hw & Hh & Hbw & Hbh).
  destruct (FloatFacts.int_truediv_ceil _ _ Hw Hbw) as (qc & Hqc & Hcc).
  destruct (FloatFacts.int_truediv_ceil _ _ Hh Hbh) as (qr & Hqr & Hcr).
  rewrite Hqc in Hc. rewrite Hqr in Hr. cbn [bind] in Hc, Hr.
  unfold well_formed, valid_dims. cbn [fst snd]. rewrite E1, E2, E3, E4.
  repeat split; try lia; congruence.
Qed.

(** Positive sizes, whatever their magnitude, give non-negative tile counts. *)
Lemma init_counts_nonneg dim blocksize extent transform (g : Grout.t F) :
  0 <= fst dim -> 0 <= snd dim -> 0 < fst blocksize -> 0 < snd blocksize ->
  __init__ dim blocksize extent transform = Ok g ->
  0 <= tile_cols g /\ 0 <= tile_rows g.
Proof.
  intros Hw Hh Hbw Hbh Hg.
  destruct (init_inv _ _ _ _ _ Hg) as (_ & _ & _ & _ & Hc & Hr & _).
  destruct (Float.int_truediv (fst dim) (fst blocksize)) as [qc|] eqn:Eqc; [|discriminate].
  destruct (Float.int_truediv (snd dim) (snd blocksize)) as [qr|] eqn:Eqr; [|discriminate].
  destruct (FloatFacts.int_truediv_finite _ _ _ Eqc) as (kc & Hkc & Hpc).
  destruct (FloatFacts.int_truediv_finite _ _ _ Eqr) as (kr & Hkr & Hpr).
  cbn [bind] in Hc, Hr. rewrite Hkc in Hc. rewrite Hkr in Hr.
  injection Hc as <-. injection Hr as <-. auto.
Qed.

(** Construction succeeds on valid sizes as soon as a reference is given. *)
Lemma init_ok dim blocksize extent transform :
  valid_dims dim blocksize ->
  extent <> None \/ transform <> None ->
  exists g : Grout.t F, __init__ dim blocksize extent transform = Ok g.
Proof.
  intros (Hw & Hh & Hbw & Hbh) Href.
  destruct dim as [w h], blocksize as [bw bh]. cbn [fst snd] in *.
  destruct (FloatFacts.int_truediv_ceil _ _ Hw Hbw) as (qc & Hqc & Hcc).
  destruct (FloatFacts.int_truediv_ceil _ _ Hh Hbh) as (qr & Hqr & Hcr).
  unfold __init__.
  destruct extent as [[[[x0 x1] y0] y1]|].
  - destruct (truediv_int_ok (sub x1 x0) w Hw) as [rx ->].
    destruct (truediv_int_ok (sub y1 y0) h Hh) as [ry ->].
    cbn [bind]. rewrite Hqc. cbn [bind]. rewrite Hcc. cbn [bind].
    rewrite Hqr. cbn [bind]. rewrite Hcr. cbn [bind]. eauto.
  - destruct transform as [[[[[[x0 rx] r1] y1] r2] ry]|]; [|destruct Href; congruence].
    cbn [bind]. rewrite Hqc. cbn [bind]. rewrite Hcc. cbn [bind].
    rewrite Hqr. cbn [bind]. rewrite Hcr. cbn [bind]. eauto.
Qed.

End Construction.

(* ================================================================== *)
(** ** Tiles: lookup and iteration *)

Section Tiles.
Context {F : Type} {num : Number F} {laws : NumberLaws F}.
Import Grout.

Lemma iter_unfold (self : Grout.t F) :
  __iter__ self =
  for_in (range (tile_rows self)) (fun tr =>
    for_in (range (tile_cols self)) (fun tc => yield (tile self tc tr))).
Proof. reflexivity. Qed.

Lemma getitem_in (self : Grout.t F) tc tr :
  0 <= tc < tile_cols self -> 0 <= tr < tile_rows self ->
  __getitem__ self (Pair tc tr) = tile self tc tr.
Proof.
  intros Hc Hr. unfold __getitem__. cbn [bind].
  replace (0 <=? tc) with true by (symmetry; apply Z.leb_le; lia).
  replace (tc <? tile_cols self) with true by (symmetry; apply Z.ltb_lt; lia).
  replace (0 <=? tr) with true by (symmetry; apply Z.leb_le; lia).
  replace (tr <? tile_rows self) with true by (symmetry; apply Z.ltb_lt; lia).
  reflexivity.
Qed.

Lemma getitem_out (self : Grout.t F) tc tr :
  ~ (0 <= tc < tile_cols self /\ 0 <= tr < tile_rows self) ->
  __getitem__ self (Pair tc tr) = Raise IndexError.
Proof.
  intros Hout. unfold __getitem__. cbn [bind].
  destruct (Z.leb_spec 0 tc), (Z.ltb_spec tc (tile_cols self)),
    (Z.leb_spec 0 tr), (Z.ltb_spec tr (tile_rows self)); cbn [andb negb]; trivial.
  exfalso. apply Hout. lia.
Qed.

Lemma getitem_linear (self : Grout.t F) i :
  tile_cols self <> 0 ->
  __getitem__ self (Linear i) =
  __getitem__ self (Pair (i mod tile_cols self) (i / tile_cols self)).
Proof.
  intros Hc. unfold __getitem__.
  destruct (Z.eqb_spec (tile_cols self) 0); [contradiction | reflexivity].
Qed.

Lemma int_mul_raises z (x : F) e : int_mul z x = Raise e -> e = OverflowError.
Proof. unfold int_mul. destruct (of_int z); [discriminate | now intros [= <-]]. Qed.

Lemma int_mul_ok z (x : F) : Z.abs z < 2 ^ 53 -> exists y, int_mul z x = Ok y.
Proof.
  intros Hz. unfold int_mul. destruct (of_int_small z Hz) as [f ->]. eauto.
Qed.

(** Building a tile record can only fail in the conversion of a pixel count. *)
Lemma tile_raises (self : Grout.t F) tc tr e :
  tile self tc tr = Raise e -> e = OverflowError.
Proof.
  unfold tile.
  repeat match goal with
  | |- context [int_mul ?z ?x] =>
      let H := fresh "H" in
      destruct (int_mul z x) eqn:H; cbn [bind];
      [| apply int_mul_raises in H; now intros [= <-]]
  end.
  discriminate.
Qed.

(** The integer fields of a tile record. *)
Lemma tile_inv (self : Grout.t F) tc tr s :
  tile self tc tr = Ok s ->
  TileSpec.col s = tc /\ TileSpec.row s = tr /\
  TileSpec.offset_x s = tc * block_width self /\
  TileSpec.offset_y s = tr * block_height self /\
  TileSpec.ncol s = Z.min (block_width self) (ncol self - TileSpec.offset_x s) /\
  TileSpec.nrow s = Z.min (block_height self) (nrow self - TileSpec.offset_y s).
Proof.
  unfold tile.
  repeat match goal with
  | |- context [int_mul ?z ?x] => destruct (int_mul z x); cbn [bind]; [|discriminate]
  end.
  intros [= <-]. cbn. auto 10.
Qed.

(** In a well-formed grid the last tile of each row and column starts inside
    the grid and reaches its edge. *)
Lemma well_formed_cols (self : Grout.t F) :
  well_formed self ->
  0 < tile_cols self /\
  (tile_cols self - 1) * block_width self < ncol self <= tile_cols self * block_width self.
Proof.
  intros ((Hw & Hh & Hbw & Hbh) & Ec & Er). cbn [fst snd] in *.
  pose proof (FloatFacts.ceil_div_spec (ncol self) (block_width self) ltac:(lia)).
  rewrite <- Ec in *. nia.
Qed.

Lemma well_formed_rows (self : Grout.t F) :
  well_formed self ->
  0 < tile_rows self /\
  (tile_rows self - 1) * block_height self < nrow self <= tile_rows self * block_height self.
Proof.
  intros ((Hw & Hh & Hbw & Hbh) & Ec & Er). cbn [fst snd] in *.
  pose proof (FloatFacts.ceil_div_spec (nrow self) (block_height self) ltac:(lia)).
  rewrite <- Er in *. nia.
Qed.

Lemma tile_ok (self : Grout.t F) tc tr :
  well_formed self ->
  0 <= tc < tile_cols self -> 0 <= tr < tile_rows self ->
  exists s, tile self tc tr = Ok s.
Proof.
  intros Hwf Hc Hr.
  pose proof (well_formed_cols self Hwf) as (_ & Hlc & _).
  pose proof (well_formed_rows self Hwf) as (_ & Hlr & _).
  destruct Hwf as ((Hw & Hh & Hbw & Hbh) & _). cbn [fst snd] in *.
  unfold tile.
  assert (0 <= tc * block_width self < ncol self) by nia.
  assert (0 <= tr * block_height self < nrow self) by nia.
  repeat match goal with
  | |- context [int_mul ?z ?x] =>
      let y := fresh "y" in let H := fresh "H" in
      destruct (int_mul_ok z x) as [y H]; [lia | rewrite H; cbn [bind]]
  end.
  eauto.
Qed.

End Tiles.

Section TileClaims.
Context {F : Type} {num : Number F} {laws : NumberLaws F}.
Import Grout.

(** The linear index [i] is in range exactly when its [divmod] is a tile
    position. *)
Lemma divmod_in_grid C R i :
  0 < C -> (0 <= i < C * R <-> 0 <= i mod C < C /\ 0 <= i / C < R).
Proof.
  intros HC. pose proof (Z.mod_pos_bound i C HC). pose proof (Z.div_mod i C ltac:(lia)).
  split; [intros Hi | intros [_ Hq]]; nia.
Qed.

(** Iteration is lookup by linear index, for every grid with non-negative
    tile counts, exceptions included. *)
Lemma iter_getitem (self : Grout.t F) :
  0 <= tile_cols self -> 0 <= tile_rows self ->
  __iter__ self =
  for_in (range (__len__ self)) (fun i => yield (__getitem__ self (Linear i))).
Proof.
  intros HC HR. rewrite iter_unfold.
  rewrite (nested_ranges (tile_rows self) (tile_cols self)
             (fun tc tr => yield (tile self tc tr))) by trivial.
  unfold __len__. apply for_in_ext. intros i Hi. apply range_In in Hi.
  assert (0 < tile_cols self) by nia.
  rewrite getitem_linear by lia. rewrite getitem_in; trivial;
    apply (divmod_in_grid (tile_cols self) (tile_rows self)); lia.
Qed.

(** The positions of the records a pair of nested loops yields, when both
    loops run to their end. *)
Lemma for_in_keys {A B K} (l : list A) (f : A -> result B) (k : B -> K) (h : A -> K) ys :
  (forall x y, f x = Ok y -> k y = h x) ->
  for_in l (fun x => yield (f x)) = (ys, None) ->
  map k ys = map h l.
Proof.
  intros Hk. revert ys. induction l as [|x l IH]; intros ys; cbn [for_in map].
  - now intros [= <-].
  - destruct (f x) as [y|e] eqn:Hx; cbn [yield gen_seq]; [|discriminate].
    destruct (for_in l _) as [zs o]. cbn [fst snd app]. intros [= <- ->].
    cbn [map]. rewrite (Hk x y Hx), IH; trivial.
Qed.

Lemma for_in_nested_keys {A B K} (rows cols : list A) (f : A -> A -> result B)
    (k : B -> K) (h : A -> A -> K) ys :
  (forall tc tr y, f tc tr = Ok y -> k y = h tr tc) ->
  for_in rows (fun tr => for_in cols (fun tc => yield (f tc tr))) = (ys, None) ->
  map k ys = flat_map (fun tr => map (h tr) cols) rows.
Proof.
  intros Hk. revert ys. induction rows as [|tr rows IH]; intros ys; cbn [for_in flat_map].
  - now intros [= <-].
  - destruct (for_in cols _) as [ys1 [e|]] eqn:H1; cbn [gen_seq]; [discriminate|].
    destruct (for_in rows _) as [ys2 o]. cbn [fst snd]. intros [= <- ->].
    rewrite map_app. f_equal; [|now apply IH].
    eapply for_in_keys; [|exact H1]. intros tc y. apply Hk.
Qed.

(** Lookup by [(col, row)] raises [IndexError] exactly outside the tile grid,
    for every grid. *)
Lemma getitem_pair_error (self : Grout.t F) tc tr :
  __getitem__ self (Pair tc tr) = Raise IndexError <->
  ~ (0 <= tc < tile_cols self /\ 0 <= tr < tile_rows self).
Proof.
  split; [|apply getitem_out].
  intros He [Hc Hr]. rewrite getitem_in in He by trivial.
  apply tile_raises in He. discriminate.
Qed.

(** Lookup by linear index raises [IndexError] exactly outside
    [0, tile_cols * tile_rows), for every grid with at least one column. *)
Lemma getitem_linear_error (self : Grout.t F) i :
  0 < tile_cols self ->
  (__getitem__ self (Linear i) = Raise IndexError <->
   ~ (0 <= i < tile_cols self * tile_rows self)).
Proof.
  intros HC. rewrite getitem_linear by lia. rewrite getitem_pair_error.
  now rewrite (divmod_in_grid (tile_cols self) (tile_rows self)).
Qed.


(** C7 (amended): for every grid, lookup by [(col, row)] raises [IndexError]
    exactly when [col] is outside [0, tile_cols) or [row] outside
    [0, tile_rows); for every grid with at least one tile column, lookup by
    linear index raises [IndexError] exactly when the index is outside
    [0, tile_cols * tile_rows).  On a grid of valid sizes there is at least
    one tile column and one tile row, and every in-range lookup, of either
    form, returns a record. *)
Theorem getitem_index_error (g : Grout.t F) :
  (forall tc tr, __getitem__ g (Pair tc tr) = Raise IndexError <->
                 ~ (0 <= tc < tile_cols g /\ 0 <= tr < tile_rows g)) /\
  (0 < tile_cols g ->
   forall i, __getitem__ g (Linear i) = Raise IndexError <->
             ~ (0 <= i < tile_cols g * tile_rows g)) /\
  (forall dim blocksize extent transform,
     valid_dims dim blocksize ->
     __init__ dim blocksize extent transform = Ok g ->
     0 < tile_cols g /\ 0 < tile_rows g /\
     (forall tc tr, 0 <= tc < tile_cols g -> 0 <= tr < tile_rows g ->
                    exists s, __getitem__ g (Pair tc tr) = Ok s) /\
     (forall i, 0 <= i < tile_cols g * tile_rows g ->
                exists s, __getitem__ g (Linear i) = Ok s)).
Proof.
  split; [intros tc tr; apply getitem_pair_error|].
  split; [intros HC i; now apply getitem_linear_error|].
  intros dim blocksize extent transform Hv Hg.
  pose proof (init_well_formed _ _ _ _ _ Hv Hg) as Hwf.
  pose proof (well_formed_cols g Hwf) as (HC & _).
  pose proof (well_formed_rows g Hwf) as (HR & _).
  assert (Hpair : forall tc tr, 0 <= tc < tile_cols g -> 0 <= tr < tile_rows g ->
                                exists s, __getitem__ g (Pair tc tr) = Ok s).
  { intros tc tr Hc Hr. rewrite getitem_in by trivial. now apply tile_ok. }
  split; [exact HC|]. split; [exact HR|]. split; [exact Hpair|].
  intros i Hi. rewrite getitem_linear by lia.
  apply Hpair; apply (divmod_in_grid (tile_cols g) (tile_rows g)); trivial.
Qed.

(** C3 (amended): for every grid with non-negative tile counts, [__iter__]
    goes through the linear indices 0, 1, ... in order and yields what
    [__getitem__] returns at each, up to the first one that raises, whose
    exception ends it.  On a grid of valid sizes none raises: [__iter__]
    ends normally after yielding exactly [__len__] records, the results of
    [__getitem__] on 0, 1, ..., [__len__ - 1], in row-major order (row 0 from
    column 0 upwards, then row 1, ...).  For every grid, each call of
    [iter] creates a generator object of its own, whatever the store holds
    already: two of them advanced in any interleaving each give what
    [__iter__] gives when advanced alone, and no other object changes. *)
Theorem iter_row_major (g : Grout.t F) :
  (0 <= tile_cols g -> 0 <= tile_rows g ->
   __iter__ g =
   for_in (range (__len__ g)) (fun i => yield (__getitem__ g (Linear i)))) /\
  (forall dim blocksize extent transform,
     valid_dims dim blocksize ->
     __init__ dim blocksize extent transform = Ok g ->
     exists tiles,
       __iter__ g = (tiles, None) /\
       Z.of_nat (length tiles) = __len__ g /\
       map Ok tiles = map (fun i => __getitem__ g (Linear i)) (range (__len__ g)) /\
       map (fun s => (TileSpec.row s, TileSpec.col s)) tiles =
         flat_map (fun tr => map (fun tc => (tr, tc)) (range (tile_cols g)))
                  (range (tile_rows g))) /\
  (forall st a st1 b st2 sched,
     iter g st = (a, st1) -> iter g st1 = (b, st2) ->
     a <> b /\
     (Forall (fun it => it = a \/ it = b) sched ->
      calls_on a (fst (run sched st2)) =
        map Some (take_next (count_occ Nat.eq_dec sched a) (__iter__ g)) /\
      calls_on b (fst (run sched st2)) =
        map Some (take_next (count_occ Nat.eq_dec sched b) (__iter__ g)) /\
      forall c, (c < length st)%nat ->
        nth_error (snd (run sched st2)) c = nth_error st c)).
Proof.
  split; [apply iter_getitem|]. split.
  - intros dim blocksize extent transform Hv Hg.
    pose proof (init_well_formed _ _ _ _ _ Hv Hg) as Hwf.
    pose proof (well_formed_cols g Hwf) as (HC & _).
    pose proof (well_formed_rows g Hwf) as (HR & _).
    pose proof (iter_getitem g ltac:(lia) ltac:(lia)) as Hit.
    destruct (for_in_yield_ok (range (__len__ g)) (fun i => __getitem__ g (Linear i)))
      as (tiles & Htiles & Hmap).
    { intros i Hi. apply range_In in Hi. unfold __len__ in Hi.
      rewrite getitem_linear by lia.
      rewrite getitem_in by (apply (divmod_in_grid (tile_cols g) (tile_rows g)); lia).
      apply tile_ok; trivial; apply (divmod_in_grid (tile_cols g) (tile_rows g)); lia. }
    assert (Hiter : __iter__ g = (tiles, None)) by now rewrite Hit.
    exists tiles. rewrite Hiter. repeat split; trivial.
    + apply (f_equal (@length _)) in Hmap. rewrite !length_map, range_length in Hmap.
      rewrite Hmap. unfold __len__. nia.
    + apply (for_in_nested_keys (range (tile_rows g)) (range (tile_cols g))
               (fun tc tr => tile g tc tr) _ (fun tr tc => (tr, tc))); [|exact Hiter].
      intros tc tr s Hs. apply tile_inv in Hs. destruct Hs as (-> & -> & _). reflexivity.
  - intros st a st1 b st2 sched. unfold iter, call_generator.
    intros [= <- <-] [= <- <-]. rewrite length_app. cbn [length].
    split; [lia|]. intros Hs.
    destruct (run_two (length st) (length st + 1) sched ltac:(lia) Hs
                ((st ++ [__iter__ g]) ++ [__iter__ g]) (__iter__ g) (__iter__ g))
      as (Ha & Hb & Hc).
    { rewrite nth_error_app1 by (rewrite length_app; cbn; lia).
      rewrite nth_error_app2 by lia. now rewrite Nat.sub_diag. }
    { rewrite nth_error_app2 by (rewrite length_app; cbn; lia).
      rewrite length_app. cbn [length]. now rewrite Nat.sub_diag. }
    split; [exact Ha|]. split; [exact Hb|].
    intros c Hlt. rewrite Hc by lia.
    rewrite !nth_error_app1; trivial; rewrite ?length_app; cbn [length]; lia.
Qed.

End TileClaims.

(* ================================================================== *)
(** ** Tile geometry and tile count *)

Section Geometry.
Context {F : Type} {num : Number F} {laws : NumberLaws F}.
Import Grout.

(** On a grid of valid sizes the tile count is the product of the two exact
    ceilings. *)
Lemma len_exact dim blocksize extent transform (g : Grout.t F) :
  valid_dims dim blocksize ->
  __init__ dim blocksize extent transform = Ok g ->
  tile_cols g = Float.ceil_div (fst dim) (fst blocksize) /\
  tile_rows g = Float.ceil_div (snd dim) (snd blocksize) /\
  __len__ g = Float.ceil_div (fst dim) (fst blocksize) *
              Float.ceil_div (snd dim) (snd blocksize).
Proof.
  intros Hv Hg. destruct (init_well_formed _ _ _ _ _ Hv Hg) as (_ & Ec & Er).
  destruct (init_inv _ _ _ _ _ Hg) as (E1 & E2 & E3 & E4 & _).
  unfold __len__. rewrite Ec, Er, E1, E2, E3, E4. repeat split; lia.
Qed.

(** The width of the last column of an exactly counted grid. *)
Lemma last_column_width W b :
  0 < W -> 0 < b ->
  let C := Float.ceil_div W b in
  Z.min b (W - (C - 1) * b) = W - (C - 1) * b /\
  (W - (C - 1) * b < b <-> W mod b <> 0) /\
  (W - (C - 1) * b = b <-> W mod b = 0).
Proof.
  intros HW Hb C. pose proof (FloatFacts.ceil_div_spec W b Hb) as HC. fold C in HC.
  pose proof (Z.div_mod W b ltac:(lia)) as Hdm.
  pose proof (Z.mod_pos_bound W b Hb) as Hr.
  assert (Hmul : W mod b = 0 <-> W = C * b).
  { split; intros H.
    - rewrite H in Hdm. assert (W / b = C) by nia. nia.
    - rewrite H. apply Z.mod_mul. lia. }
  repeat split; try lia.
Qed.

(** On a grid of valid sizes every in-range lookup returns the record of the
    data model, and the last column and the last row are clipped exactly when
    the grid size is not a multiple of the tile size. *)
Lemma getitem_geometry dim blocksize extent transform (g : Grout.t F) tc tr :
  valid_dims dim blocksize ->
  __init__ dim blocksize extent transform = Ok g ->
  0 <= tc < tile_cols g -> 0 <= tr < tile_rows g ->
  exists s,
    __getitem__ g (Pair tc tr) = Ok s /\
    TileSpec.offset_x s = tc * block_width g /\
    TileSpec.offset_y s = tr * block_height g /\
    TileSpec.ncol s = Z.min (block_width g) (ncol g - TileSpec.offset_x s) /\
    TileSpec.nrow s = Z.min (block_height g) (nrow g - TileSpec.offset_y s) /\
    (tc = tile_cols g - 1 ->
       TileSpec.ncol s = ncol g - (tile_cols g - 1) * block_width g /\
       (TileSpec.ncol s < block_width g <-> ncol g mod block_width g <> 0) /\
       (TileSpec.ncol s = block_width g <-> ncol g mod block_width g = 0)) /\
    (tr = tile_rows g - 1 ->
       TileSpec.nrow s = nrow g - (tile_rows g - 1) * block_height g /\
       (TileSpec.nrow s < block_height g <-> nrow g mod block_height g <> 0) /\
       (TileSpec.nrow s = block_height g <-> nrow g mod block_height g = 0)).
Proof.
  intros Hv Hg Hc Hr. pose proof (init_well_formed _ _ _ _ _ Hv Hg) as Hwf.
  destruct (tile_ok g tc tr Hwf Hc Hr) as [s Hs]. exists s.
  rewrite getitem_in by trivial. split; trivial.
  destruct (tile_inv g tc tr s Hs) as (_ & _ & Ex & Ey & Ew & Eh).
  destruct Hwf as ((Hw & Hh & Hbw & Hbh) & Ec & Er). cbn [fst snd] in *.
  split; [exact Ex|]. split; [exact Ey|]. split; [exact Ew|]. split; [exact Eh|].
  split.
  - intros ->. rewrite Ew, Ex, Ec.
    pose proof (last_column_width (ncol g) (block_width g) ltac:(lia) ltac:(lia)) as (E & L1 & L2).
    rewrite E. auto.
  - intros ->. rewrite Eh, Ey, Er.
    pose proof (last_column_width (nrow g) (block_height g) ltac:(lia) ltac:(lia)) as (E & L1 & L2).
    rewrite E. auto.
Qed.

End Geometry.

(** C2: [__len__] returns [tile_rows * tile_cols], where the two counts are
    [math.ceil] of a float quotient.  On [Grout(dim=(10**17 + 1, 1),
    blocksize=(10**17, 1), ...)] the quotient [(10**17 + 1) / 10**17] rounds
    to [1.0]: [__len__] returns 1, whereas
    [ceil(grid_width / tile_width) * ceil(grid_height / tile_height)] is 2. *)
Theorem len_wide_grid :
  exists g, Example.wide = Ok g /\
    Grout.tile_cols g = 1 /\ Grout.tile_rows g = 1 /\ Grout.__len__ g = 1 /\
    Float.ceil_div (10 ^ 17 + 1) (10 ^ 17) * Float.ceil_div 1 1 = 2.
Proof.
  eexists. split; [vm_compute; reflexivity|].
  repeat split; vm_compute; reflexivity.
Qed.

(** C1: on [Grout(dim=(10**17 + 1, 1), blocksize=(10**17, 1), ...)], whose
    [tile_cols] is 1, column 0 is the last column; [__getitem__] gives it the
    width [min(tile_width, grid_width - offset_x) = 10**17], which is not
    [grid_width - (tile_cols - 1) * tile_width = 10**17 + 1], and is equal to
    the tile width although the grid width is not a multiple of it. *)
Theorem getitem_wide_grid :
  exists g s, Example.wide = Ok g /\
    Grout.tile_cols g - 1 = 0 /\
    Grout.__getitem__ g (Grout.Pair 0 0) = Ok s /\
    TileSpec.ncol s = 10 ^ 17 /\
    Grout.ncol g - (Grout.tile_cols g - 1) * Grout.block_width g = 10 ^ 17 + 1 /\
    TileSpec.ncol s = Grout.block_width g /\
    Grout.ncol g mod Grout.block_width g = 1.
Proof.
  do 2 eexists. split; [vm_compute; reflexivity|].
  split; [vm_compute; reflexivity|]. split; [vm_compute; reflexivity|].
  repeat split; vm_compute; reflexivity.
Qed.

(* ================================================================== *)
(** ** [index_partition] *)

Lemma covers_le a b l : covers a b l -> a <= b.
Proof.
  revert a. induction l as [|[s e] l IH]; cbn [covers]; intros a.
  - lia.
  - intros (-> & Hlt & Hc). apply IH in Hc. lia.
Qed.

(** The union of a cover of [a, b) is [a, b). *)
Lemma covers_union a b l i :
  covers a b l -> (a <= i < b <-> exists r, In r l /\ fst r <= i < snd r).
Proof.
  revert a. induction l as [|[s e] l IH]; cbn [covers]; intros a.
  - intros ->. split; [lia | intros (r & [] & _)].
  - intros (-> & Hlt & Hc). pose proof (covers_le _ _ _ Hc). split.
    + intros Hi. destruct (Z_lt_le_dec i e).
      * exists (a, e). cbn. split; [auto | lia].
      * destruct (proj1 (IH e Hc) ltac:(lia)) as (r & Hr & Hin).
        exists r. cbn. auto.
    + intros (r & [<- | Hr] & Hin); cbn in Hin; [lia|].
      assert (e <= i < b) by (apply (IH e Hc); eauto). lia.
Qed.

(** The ranges of a cover are in increasing order and do not overlap. *)
Lemma covers_sorted a b l :
  covers a b l ->
  Forall (fun r => a <= fst r < snd r /\ snd r <= b) l /\
  ForallOrdPairs (fun r1 r2 => snd r1 <= fst r2) l.
Proof.
  revert a. induction l as [|[s e] l IH]; cbn [covers]; intros a.
  - intros _. split; constructor.
  - intros (-> & Hlt & Hc). pose proof (covers_le _ _ _ Hc).
    destruct (IH e Hc) as [Hall Hord]. split.
    + constructor; [cbn; lia|]. eapply Forall_impl; [|exact Hall]. cbn. lia.
    + constructor; trivial. eapply Forall_impl; [|exact Hall]. cbn. lia.
Qed.

Section Partition.
Context {F : Type} {num : Number F}.
Import Grout.

(** The loop of [index_partition], for a positive chunk size, from chunk [a]
    on. *)
Lemma partition_loop pc L (m a : nat) :
  0 < pc ->
  exists rs,
    for_in (map Z.of_nat (seq a m)) (fun i =>
      let start := i * pc in
      let stop := Z.min (start + pc) L in
      if start <? stop then yield (Ok (start, stop)) else gen_done) = (rs, None) /\
    covers (Z.min (Z.of_nat a * pc) L) (Z.min (Z.of_nat (a + m) * pc) L) rs /\
    Forall (fun r => snd r - fst r <= pc) rs /\
    (length rs <= m)%nat.
Proof.
  intros Hpc.
  set (body := fun i : Z =>
    let start := i * pc in
    let stop := Z.min (start + pc) L in
    if start <? stop then yield (Ok (start, stop)) else gen_done).
  revert a. induction m as [|m IH]; intros a.
  - exists []. cbn [seq map for_in covers length]. rewrite Nat.add_0_r.
    repeat split; auto.
  - destruct (IH (S a)) as (rs & Hrs & Hcov & Hlen & Hn).
    replace (S a + m)%nat with (a + S m)%nat in Hcov by lia.
    cbn [seq map for_in]. rewrite Hrs. unfold body. cbv zeta.
    destruct (Z.ltb_spec (Z.of_nat a * pc) (Z.min (Z.of_nat a * pc + pc) L)) as [Hlt | Hge].
    + exists ((Z.of_nat a * pc, Z.min (Z.of_nat a * pc + pc) L) :: rs).
      cbn [yield gen_seq fst snd app covers length].
      replace (Z.of_nat (S a) * pc) with (Z.of_nat a * pc + pc) in Hcov by lia.
      repeat split; trivial; try lia.
      constructor; trivial. cbn. lia.
    + exists rs. cbn [gen_seq gen_done fst snd app].
      replace (Z.min (Z.of_nat a * pc) L) with (Z.min (Z.of_nat (S a) * pc) L) by lia.
      repeat split; trivial. lia.
Qed.

Lemma len_ok n : 0 <= n <= maxsize -> len n = Ok n.
Proof.
  intros H. unfold len. destruct (Z.ltb_spec n 0); [lia|].
  destruct (Z.ltb_spec maxsize n); [lia | reflexivity].
Qed.

Lemma len_raises n e :
  len n = Raise e ->
  (n < 0 /\ e = ValueError) \/ (maxsize < n /\ e = OverflowError).
Proof.
  unfold len. destruct (Z.ltb_spec n 0); [intros [= <-]; auto|].
  destruct (Z.ltb_spec maxsize n); [intros [= <-]; auto | discriminate].
Qed.

(** [index_partition] on a grid whose [len] is defined. *)
Lemma index_partition_len (g : Grout.t F) n :
  0 <= __len__ g <= maxsize ->
  index_partition g n =
  match (q <- Float.int_truediv (__len__ g) n ;; Float.math_ceil q) with
  | Raise e => gen_raise e
  | Ok per_chunk =>
      for_in (range n) (fun i =>
        let start := i * per_chunk in
        let stop := Z.min (start + per_chunk) (__len__ g) in
        if start <? stop then yield (Ok (start, stop)) else gen_done)
  end.
Proof. intros H. unfold index_partition. rewrite (len_ok _ H). reflexivity. Qed.

(** For a tile count and a number of chunks with an exact binary64 image,
    [index_partition] yields a cover of [0, __len__) by at most [n] ranges of
    length at most [ceil(__len__ / n)]. *)
Lemma index_partition_complete (g : Grout.t F) n :
  0 <= __len__ g < 2 ^ 53 -> 1 <= n < 2 ^ 53 ->
  exists rs,
    index_partition g n = (rs, None) /\
    covers 0 (__len__ g) rs /\
    Forall (fun r => snd r - fst r <= Float.ceil_div (__len__ g) n) rs /\
    Z.of_nat (length rs) <= n.
Proof.
  intros HL Hn. rewrite index_partition_len by (unfold maxsize; lia).
  destruct (Z.eq_dec (__len__ g) 0) as [E0 | Hne].
  - rewrite E0. unfold Float.int_truediv. destruct n; try lia. cbn [bind Float.math_ceil].
    exists []. rewrite (for_in_ext _ _ (fun _ => gen_done)), for_in_done.
    + repeat split; cbn; try constructor. lia.
    + intros i _. cbv zeta. rewrite Z.mul_0_r. reflexivity.
  - destruct (FloatFacts.int_truediv_ceil (__len__ g) n) as (q & -> & Hq); try lia.
    cbn [bind]. rewrite Hq.
    pose proof (FloatFacts.ceil_div_spec (__len__ g) n ltac:(lia)) as Hpc.
    set (pc := Float.ceil_div (__len__ g) n) in *.
    assert (0 < pc) by nia.
    destruct (partition_loop pc (__len__ g) (Z.to_nat n) 0 ltac:(lia)) as (rs & Hrs & Hcov & Hlen & Hcnt).
    exists rs. cbn [plus] in Hcov. rewrite Z2Nat.id in Hcov by lia.
    replace (Z.min (Z.of_nat 0 * pc) (__len__ g)) with 0 in Hcov by lia.
    replace (Z.min (n * pc) (__len__ g)) with (__len__ g) in Hcov by lia.
    split; [exact Hrs|]. repeat split; trivial. lia.
Qed.

Lemma for_in_no_raise {A B} (l : list A) (body : A -> gen B) :
  (forall x, snd (body x) = None) -> snd (for_in l body) = None.
Proof.
  intros H. induction l as [|x l IH]; cbn [for_in]; trivial.
  specialize (H x). destruct (body x) as [xs o]. cbn in H. subst o.
  cbn [gen_seq snd]. exact IH.
Qed.

(** C10 (amended): [index_partition(n)] evaluates [len(self)] before it
    divides.  On a grid whose [__len__] is between 0 and [sys.maxsize],
    [index_partition(0)] raises [ZeroDivisionError] at the first [next],
    before yielding anything; on a grid with a negative [__len__] every
    [index_partition(n)] raises [ValueError] there, and with a [__len__]
    above [sys.maxsize], [OverflowError].  [ZeroDivisionError] is raised for
    [n = 0] on a grid of the first kind and in no other case: a negative [n]
    yields no range at all, and an [n >= 1] ends normally (for a tile count
    and an [n] below [2^53]). *)
Theorem index_partition_zero (g : Grout.t F) :
  (0 <= __len__ g <= maxsize ->
   index_partition g 0 = ([], Some ZeroDivisionError) /\
   fst (next (index_partition g 0)) = Raise ZeroDivisionError) /\
  (__len__ g < 0 -> forall n, index_partition g n = ([], Some ValueError)) /\
  (maxsize < __len__ g -> forall n, index_partition g n = ([], Some OverflowError)) /\
  (forall n, snd (index_partition g n) = Some ZeroDivisionError <->
             n = 0 /\ 0 <= __len__ g <= maxsize) /\
  (forall n, n < 0 -> fst (index_partition g n) = []) /\
  (forall n, 1 <= n < 2 ^ 53 -> 0 <= __len__ g < 2 ^ 53 ->
             snd (index_partition g n) = None).
Proof.
  assert (H0 : 0 <= __len__ g <= maxsize ->
               index_partition g 0 = ([], Some ZeroDivisionError)).
  { intros H. rewrite index_partition_len by trivial. reflexivity. }
  assert (Hneg : __len__ g < 0 -> forall n, index_partition g n = ([], Some ValueError)).
  { intros H n. unfold index_partition, len.
    destruct (Z.ltb_spec (__len__ g) 0); [reflexivity | lia]. }
  assert (Hbig : maxsize < __len__ g ->
                 forall n, index_partition g n = ([], Some OverflowError)).
  { intros H n. unfold index_partition, len.
    destruct (Z.ltb_spec (__len__ g) 0); [unfold maxsize in H; lia|].
    destruct (Z.ltb_spec maxsize (__len__ g)); [reflexivity | lia]. }
  split; [intros H; split; [auto | now rewrite H0]|].
  split; [exact Hneg|]. split; [exact Hbig|]. split; [|split].
  - intros n.
    destruct (Z_lt_le_dec (__len__ g) 0) as [Hn | Hp].
    { rewrite Hneg by trivial. split; [discriminate | lia]. }
    destruct (Z_lt_le_dec maxsize (__len__ g)) as [Hb | Hf].
    { rewrite Hbig by trivial. split; [discriminate | lia]. }
    split; [|intros [-> _]; now rewrite H0 by lia].
    rewrite index_partition_len by lia.
    destruct (q <- Float.int_truediv (__len__ g) n ;; Float.math_ceil q) as [pc|e] eqn:Hq.
    + rewrite for_in_no_raise; [discriminate|].
      intros i. cbv zeta. now destruct (_ <? _).
    + apply FloatFacts.ceil_truediv_raises in Hq. cbn [gen_raise snd]. intros [= ->].
      destruct Hq as [[_ Hn] | [He _]]; [split; [trivial | lia] | discriminate].
  - intros n Hn.
    destruct (Z_lt_le_dec (__len__ g) 0) as [Hl | Hp]; [now rewrite Hneg|].
    destruct (Z_lt_le_dec maxsize (__len__ g)) as [Hb | Hf]; [now rewrite Hbig|].
    rewrite index_partition_len by lia.
    destruct (q <- Float.int_truediv (__len__ g) n ;; Float.math_ceil q); trivial.
    now rewrite range_nil by lia.
  - intros n Hn HL.
    destruct (index_partition_complete g n HL Hn) as (rs & -> & _). reflexivity.
Qed.

End Partition.

(** C6: [per_chunk] is [math.ceil] of a float quotient.  On a grid of
    [2^53 + 1] tiles the quotient [len / 1] rounds to [2^53], so
    [index_partition(1)] yields the single range [(0, 2^53)] and
    [index_partition(2)] two ranges that end at [2^53]: the last linear index
    is in no range. *)
Theorem index_partition_many_tiles :
  exists g, Example.many = Ok g /\
    Grout.__len__ g = 2 ^ 53 + 1 /\
    Grout.index_partition g 1 = ([(0, 2 ^ 53)], None) /\
    Grout.index_partition g 2 = ([(0, 2 ^ 52); (2 ^ 52, 2 ^ 53)], None) /\
    ~ covers 0 (Grout.__len__ g) (fst (Grout.index_partition g 1)).
Proof.
  eexists. split; [vm_compute; reflexivity|].
  split; [vm_compute; reflexivity|]. split; [vm_compute; reflexivity|].
  split; [vm_compute; reflexivity|].
  vm_compute. intros (_ & _ & H). discriminate H.
Qed.

(** C10, as stated, fails: [index_partition(-1)] ends normally (without
    yielding anything), so the method is total for an [n] below 1; and on
    the grid of [2**80] tiles [index_partition(0)] raises [OverflowError],
    which [len] raises before the division. *)
Lemma index_partition_negative :
  (exists g, Example.edge = Ok g /\ Grout.index_partition g (-1) = ([], None)) /\
  (exists g, Example.vast = Ok g /\
     Grout.index_partition g 0 = ([], Some OverflowError) /\
     fst (next (Grout.index_partition g 0)) = Raise OverflowError).
Proof.
  split.
  - eexists. split; vm_compute; reflexivity.
  - eexists. split; [vm_compute; reflexivity|]. split; vm_compute; reflexivity.
Qed.

(* ================================================================== *)
(** ** Coordinate reference *)

Section Reference.
Context {F : Type} {num : Number F} {laws : NumberLaws F}.
Import Grout.

(** One [math.ceil(a / b)] of the constructor, in a hypothesis that it raised
    [ValueError]: it did not. *)
Ltac step_ceil H :=
  match type of H with
  | context [Float.int_truediv ?a ?b] =>
      let q := fresh "q" in
      let E := fresh "E" in
      let k := fresh "k" in
      let Hk := fresh "Hk" in
      destruct (Float.int_truediv a b) as [q|?] eqn:E; cbn [bind] in H;
      [ destruct (FloatFacts.int_truediv_finite a b q E) as (k & Hk & _);
        rewrite Hk in H; cbn [bind] in H
      | apply FloatFacts.int_truediv_raises in E; destruct E; congruence ]
  end.

(** C8: construction raises [ValueError] exactly when neither [extent] nor
    [transform] is given.  With an extent [(xmin, xmax, ymin, ymax)] the grid
    stores [xres = (xmax - xmin) / ncol], [yres = (ymax - ymin) / nrow],
    [xmin] and [ymax]; with only a transform
    [(xmin, xres, _, ymax, _, -yres)] it stores [xmin], [xres] and [ymax] as
    given and the negated last entry, [yres] (whatever the sign of that
    entry, the stored [yres] is its negation).  On valid sizes construction
    returns such a grid as soon as one of the two is given. *)
Theorem init_reference dim blocksize extent transform :
  (__init__ dim blocksize extent transform = Raise ValueError <->
   extent = None /\ transform = None) /\
  (forall x0 x1 y0 y1 (g : Grout.t F),
     extent = Some (x0, x1, y0, y1) ->
     __init__ dim blocksize extent transform = Ok g ->
     truediv_int (sub x1 x0) (fst dim) = Ok (xres g) /\
     truediv_int (sub y1 y0) (snd dim) = Ok (yres g) /\
     xmin g = x0 /\ ymax g = y1) /\
  (forall x0 rx r1 y1 r2 ry (g : Grout.t F),
     extent = None ->
     transform = Some (x0, rx, r1, y1, r2, neg ry) ->
     __init__ dim blocksize extent transform = Ok g ->
     xmin g = x0 /\ ymax g = y1 /\ xres g = rx /\ yres g = ry) /\
  (forall x0 rx r1 y1 r2 t5 (g : Grout.t F),
     extent = None ->
     transform = Some (x0, rx, r1, y1, r2, t5) ->
     __init__ dim blocksize extent transform = Ok g ->
     yres g = neg t5) /\
  (valid_dims dim blocksize ->
   (forall x0 x1 y0 y1,
      extent = Some (x0, x1, y0, y1) ->
      exists g : Grout.t F,
        __init__ dim blocksize extent transform = Ok g /\
        truediv_int (sub x1 x0) (fst dim) = Ok (xres g) /\
        truediv_int (sub y1 y0) (snd dim) = Ok (yres g) /\
        xmin g = x0 /\ ymax g = y1) /\
   (forall x0 rx r1 y1 r2 ry,
      extent = None ->
      transform = Some (x0, rx, r1, y1, r2, neg ry) ->
      exists g : Grout.t F,
        __init__ dim blocksize extent transform = Ok g /\
        xmin g = x0 /\ ymax g = y1 /\ xres g = rx /\ yres g = ry)).
Proof.
  split; [|split; [|split; [|split]]].
  - split.
    + destruct dim as [w h], blocksize as [bw bh]. unfold __init__.
      destruct extent as [[[[x0 x1] y0] y1]|].
      * intros H. exfalso.
        destruct (truediv_int (sub x1 x0) w) as [rx|e] eqn:Hx; cbn [bind] in H;
          [|apply truediv_int_raises in Hx; destruct Hx; congruence].
        destruct (truediv_int (sub y1 y0) h) as [ry|e] eqn:Hy; cbn [bind] in H;
          [|apply truediv_int_raises in Hy; destruct Hy; congruence].
        do 2 step_ceil H. discriminate.
      * destruct transform as [[[[[[x0 rx] r1] y1] r2] ry]|]; [|auto].
        intros H. exfalso. cbn [bind] in H.
        do 2 step_ceil H. discriminate.
    + intros [-> ->]. now destruct dim, blocksize.
  - intros x0 x1 y0 y1 g -> Hg.
    destruct (init_inv _ _ _ _ _ Hg) as (_ & _ & _ & _ & _ & _ & H). exact H.
  - intros x0 rx r1 y1 r2 ry g -> -> Hg.
    destruct (init_inv _ _ _ _ _ Hg) as (_ & _ & _ & _ & _ & _ & (H1 & H2 & H3 & H4)).
    rewrite neg_involutive in H4. auto.
  - intros x0 rx r1 y1 r2 t5 g -> -> Hg.
    destruct (init_inv _ _ _ _ _ Hg) as (_ & _ & _ & _ & _ & _ & (_ & _ & _ & H4)).
    exact H4.
  - intros Hv. split.
    + intros x0 x1 y0 y1 ->.
      destruct (init_ok dim blocksize (Some (x0, x1, y0, y1)) transform Hv) as [g Hg];
        [left; discriminate|].
      exists g. split; [exact Hg|].
      destruct (init_inv _ _ _ _ _ Hg) as (_ & _ & _ & _ & _ & _ & H). exact H.
    + intros x0 rx r1 y1 r2 ry -> ->.
      destruct (init_ok dim blocksize None (Some (x0, rx, r1, y1, r2, neg ry)) Hv)
        as [g Hg]; [right; discriminate|].
      exists g. split; [exact Hg|].
      destruct (init_inv _ _ _ _ _ Hg) as (_ & _ & _ & _ & _ & _ & (H1 & H2 & H3 & H4)).
      rewrite neg_involutive in H4. auto.
Qed.

(** The extent decides alone: a transform given with it changes nothing,
    whatever the outcome of construction. *)
Lemma init_extent_only dim blocksize ext tr tr' :
  @__init__ F num dim blocksize (Some ext) tr = __init__ dim blocksize (Some ext) tr'.
Proof. reflexivity. Qed.

(** C9 (amended): with both an extent and a transform the transform is
    ignored entirely: the outcome of construction, a grid or an exception,
    is the outcome of construction from the extent alone, and the same
    whatever the transform.  On valid sizes that outcome is a grid, whose
    origin and resolutions are derived from the extent. *)
Theorem init_extent_precedence dim blocksize ext :
  (forall tr,
     @__init__ F num dim blocksize (Some ext) (Some tr) =
     __init__ dim blocksize (Some ext) None) /\
  (forall tr tr',
     @__init__ F num dim blocksize (Some ext) (Some tr) =
     __init__ dim blocksize (Some ext) (Some tr')) /\
  (valid_dims dim blocksize ->
   exists g : Grout.t F,
     (forall tr, __init__ dim blocksize (Some ext) (Some tr) = Ok g) /\
     __init__ dim blocksize (Some ext) None = Ok g /\
     (forall x0 x1 y0 y1, ext = (x0, x1, y0, y1) ->
        truediv_int (sub x1 x0) (fst dim) = Ok (xres g) /\
        truediv_int (sub y1 y0) (snd dim) = Ok (yres g) /\
        xmin g = x0 /\ ymax g = y1)).
Proof.
  split; [reflexivity|]. split; [reflexivity|].
  intros Hv.
  destruct (init_ok dim blocksize (Some ext) None Hv) as [g Hg];
    [left; discriminate|].
  exists g. split; [intros tr; exact Hg|]. split; [exact Hg|].
  intros x0 x1 y0 y1 ->.
  destruct (init_inv _ _ _ _ _ Hg) as (_ & _ & _ & _ & _ & _ & H). exact H.
Qed.

End Reference.

(* ================================================================== *)
(** ** Coverage: the tiles of a row and of a column *)

Lemma sort_by_sorted {A} (key : A -> Z) (l : list A) :
  StronglySorted (fun a b => key a <= key b) l -> sort_by key l = l.
Proof.
  induction 1 as [|x l Hs IH Hx]; cbn [sort_by]; trivial.
  rewrite IH. destruct l as [|y l]; cbn [insert_by]; trivial.
  inversion Hx; subst.
  now replace (key x <=? key y) with true by (symmetry; apply Z.leb_le; trivial).
Qed.

Lemma range_NoDup n : NoDup (range n).
Proof.
  unfold range. apply Injective_map_NoDup; [|apply seq_NoDup].
  intros a b. apply Nat2Z.inj.
Qed.

Lemma range_nth n (i : nat) :
  (i < Z.to_nat n)%nat -> nth_error (range n) i = Some (Z.of_nat i).
Proof.
  intros Hi. unfold range. rewrite nth_error_map, nth_error_seq.
  destruct (Nat.ltb_spec i (Z.to_nat n)); [reflexivity | lia].
Qed.

Lemma range_sorted {A} (f : Z -> A) (key : A -> Z) n :
  (forall i j, 0 <= i <= j -> key (f i) <= key (f j)) ->
  StronglySorted (fun a b => key a <= key b) (map f (range n)).
Proof.
  intros Hmono. unfold range. generalize 0%nat as a.
  induction (Z.to_nat n) as [|m IH]; intros a; cbn [seq map]; constructor; auto.
  apply Forall_forall. intros y Hy. rewrite map_map in Hy.
  apply in_map_iff in Hy. destruct Hy as (k & <- & Hk). apply in_seq in Hk.
  apply Hmono. lia.
Qed.

Lemma filter_all {A} (p : A -> bool) (l : list A) :
  (forall x, In x l -> p x = true) -> filter p l = l.
Proof.
  induction l as [|x l IH]; intros H; cbn [filter]; trivial.
  rewrite H, IH; auto with datatypes.
Qed.

Lemma filter_none {A} (p : A -> bool) (l : list A) :
  (forall x, In x l -> p x = false) -> filter p l = [].
Proof.
  induction l as [|x l IH]; intros H; cbn [filter]; trivial.
  rewrite H, IH; auto with datatypes.
Qed.

(** Selecting one row of a row-major list of records. *)
Lemma filter_row {A} (T : Z -> Z -> A) (row : A -> Z) (rows cols : list Z) tr :
  (forall tc tr', row (T tc tr') = tr') ->
  NoDup rows -> In tr rows ->
  filter (fun s => row s =? tr) (flat_map (fun tr' => map (fun tc => T tc tr') cols) rows)
  = map (fun tc => T tc tr) cols.
Proof.
  intros Hrow Hnd Hin.
  assert (Hout : forall l, ~ In tr l ->
            filter (fun s => row s =? tr)
              (flat_map (fun tr' => map (fun tc => T tc tr') cols) l) = []).
  { induction l as [|r l IH]; intros Hn; cbn [flat_map]; trivial.
    rewrite filter_app, IH by auto with datatypes. rewrite app_nil_r.
    apply filter_none. intros s Hs. apply in_map_iff in Hs. destruct Hs as (tc & <- & _).
    rewrite Hrow. apply Z.eqb_neq. intros ->. auto with datatypes. }
  induction Hnd as [|r rows Hr Hnd IH]; [destruct Hin|].
  cbn [flat_map]. rewrite filter_app. destruct Hin as [-> | Hin].
  - rewrite Hout by trivial. rewrite app_nil_r. apply filter_all.
    intros s Hs. apply in_map_iff in Hs. destruct Hs as (tc & <- & _).
    rewrite Hrow. apply Z.eqb_refl.
  - rewrite IH by trivial. rewrite filter_none; trivial.
    intros s Hs. apply in_map_iff in Hs. destruct Hs as (tc & <- & _).
    rewrite Hrow. apply Z.eqb_neq. intros ->. contradiction.
Qed.

(** Selecting one column of a row-major list of records. *)
Lemma filter_col {A} (T : Z -> Z -> A) (col : A -> Z) (rows cols : list Z) tc :
  (forall tc' tr, col (T tc' tr) = tc') ->
  NoDup cols -> In tc cols ->
  filter (fun s => col s =? tc) (flat_map (fun tr => map (fun tc' => T tc' tr) cols) rows)
  = map (fun tr => T tc tr) rows.
Proof.
  intros Hcol Hnd Hin.
  assert (Hone : forall r, filter (fun s => col s =? tc) (map (fun tc' => T tc' r) cols)
                           = [T tc r]).
  { intros r. induction Hnd as [|c cols Hc Hnd IH]; [destruct Hin|].
    cbn [map filter]. rewrite Hcol. destruct Hin as [-> | Hin].
    - rewrite Z.eqb_refl. f_equal. apply filter_none.
      intros s Hs. apply in_map_iff in Hs. destruct Hs as (c' & <- & Hc').
      rewrite Hcol. apply Z.eqb_neq. intros ->. contradiction.
    - replace (c =? tc) with false by (symmetry; apply Z.eqb_neq; intros ->; contradiction).
      now apply IH. }
  induction rows as [|r rows IH]; cbn [flat_map map]; trivial.
  now rewrite filter_app, IH, Hone.
Qed.

Lemma for_in_flat {A B} (l : list A) (body : A -> gen B) (h : A -> list B) :
  (forall x, body x = (h x, None)) -> for_in l body = (flat_map h l, None).
Proof.
  intros H. induction l as [|x l IH]; cbn [for_in flat_map]; trivial.
  now rewrite H, IH.
Qed.

Lemma for_in_total {A B} (l : list A) (h : A -> B) :
  for_in l (fun x => yield (Ok (h x))) = (map h l, None).
Proof.
  induction l as [|x l IH]; cbn [for_in map]; trivial. now rewrite IH.
Qed.

Lemma map_range_nth {A} (f : Z -> A) n (i : nat) a :
  nth_error (map f (range n)) i = Some a ->
  (i < Z.to_nat n)%nat /\ a = f (Z.of_nat i).
Proof.
  intros H. assert (Hi : (i < Z.to_nat n)%nat).
  { rewrite <- (range_length n), <- (length_map f). apply nth_error_Some. congruence. }
  rewrite nth_error_map, range_nth in H by trivial. cbn in H. split; congruence.
Qed.

Lemma Z2Qc_plus a b : Z2Qc (a + b) = (Z2Qc a + Z2Qc b)%Qc.
Proof.
  unfold Z2Qc, Qcplus. apply Q2Qc_eq_iff. cbn [this Q2Qc].
  rewrite !Qred_correct, inject_Z_plus. reflexivity.
Qed.

Section Rows.
Context {F : Type} {num : Number F} {laws : NumberLaws F}.
Import Grout.

(** On a well-formed grid the tiles of a row sorted by [offset_x] are the
    records found at columns 0, 1, ... of that row, and the tiles of a
    column sorted by [offset_y] those found at rows 0, 1, ... *)
Lemma sorted_tiles (g : Grout.t F) :
  well_formed g ->
  (forall tr, 0 <= tr < tile_rows g ->
     map Ok (sort_by TileSpec.offset_x (row_tiles g tr)) =
     map (fun tc => __getitem__ g (Pair tc tr)) (range (tile_cols g))) /\
  (forall tc, 0 <= tc < tile_cols g ->
     map Ok (sort_by TileSpec.offset_y (col_tiles g tc)) =
     map (fun tr => __getitem__ g (Pair tc tr)) (range (tile_rows g))).
Proof.
  intros Hwf.
  set (T := fun tc tr =>
    match tile g tc tr with
    | Ok s => s
    | Raise _ => TileSpec.mk F tc tr (tc * block_width g) (tr * block_height g) 0 0
                   (xmin g) (xmin g) (xmin g) (xmin g)
    end).
  assert (HT : forall tc tr, 0 <= tc < tile_cols g -> 0 <= tr < tile_rows g ->
                 tile g tc tr = Ok (T tc tr)).
  { intros tc tr Hc Hr. unfold T. destruct (tile_ok g tc tr Hwf Hc Hr) as [s ->].
    reflexivity. }
  assert (Hkeys : forall tc tr,
            TileSpec.col (T tc tr) = tc /\ TileSpec.row (T tc tr) = tr /\
            TileSpec.offset_x (T tc tr) = tc * block_width g /\
            TileSpec.offset_y (T tc tr) = tr * block_height g).
  { intros tc tr. unfold T. destruct (tile g tc tr) as [s|e] eqn:Hs; [|cbn; auto].
    apply tile_inv in Hs. tauto. }
  assert (Hiter : __iter__ g =
            (flat_map (fun tr => map (fun tc => T tc tr) (range (tile_cols g)))
                      (range (tile_rows g)), None)).
  { rewrite iter_unfold.
    rewrite (for_in_ext _ _ (fun tr => (map (fun tc => T tc tr) (range (tile_cols g)), None))).
    - now apply for_in_flat.
    - intros tr Htr. apply range_In in Htr.
      rewrite (for_in_ext _ _ (fun tc => yield (Ok (T tc tr)))).
      + apply (for_in_total (range (tile_cols g)) (fun tc => T tc tr)).
      + intros tc Htc. apply range_In in Htc. now rewrite HT. }
  destruct Hwf as ((Hw & Hh & Hbw & Hbh) & _). cbn [fst snd] in *.
  split.
  - intros tr Htr. unfold row_tiles. rewrite Hiter. cbn [fst].
    rewrite (filter_row T TileSpec.row);
      [| intros; apply Hkeys | apply range_NoDup | now apply range_In].
    rewrite sort_by_sorted.
    + rewrite map_map. apply map_ext_in. intros tc Htc. apply range_In in Htc.
      rewrite getitem_in by trivial. now rewrite HT.
    + apply (range_sorted (fun tc => T tc tr)). intros i j Hij.
      destruct (Hkeys i tr) as (_ & _ & -> & _). destruct (Hkeys j tr) as (_ & _ & -> & _).
      apply Z.mul_le_mono_nonneg_r; lia.
  - intros tc Htc. unfold col_tiles. rewrite Hiter. cbn [fst].
    rewrite (filter_col T TileSpec.col);
      [| intros; apply Hkeys | apply range_NoDup | now apply range_In].
    rewrite sort_by_sorted.
    + rewrite map_map. apply map_ext_in. intros tr Htr. apply range_In in Htr.
      rewrite getitem_in by trivial. now rewrite HT.
    + apply (range_sorted (fun tr => T tc tr)). intros i j Hij.
      destruct (Hkeys tc i) as (_ & _ & _ & ->). destruct (Hkeys tc j) as (_ & _ & _ & ->).
      apply Z.mul_le_mono_nonneg_r; lia.
Qed.

End Rows.

Section Exact.
Import Grout.

Lemma tile_exact (g : Grout.t Fraction) tc tr : tile g tc tr = Ok (exact_tile g tc tr).
Proof. reflexivity. Qed.

Lemma iter_exact (g : Grout.t Fraction) :
  __iter__ g =
  (flat_map (fun tr => map (fun tc => exact_tile g tc tr) (range (tile_cols g)))
            (range (tile_rows g)), None).
Proof.
  rewrite iter_unfold. apply for_in_flat. intros tr.
  apply (for_in_total (range (tile_cols g)) (fun tc => exact_tile g tc tr)).
Qed.

(** On exact rationals and a grid of valid sizes, the tiles of a row sorted
    by [offset_x] abut exactly, from the grid's [xmin] to
    [xmin + ncol * xres], and the tiles of a column sorted by [offset_y]
    abut exactly, from the grid's [ymax] down to [ymax - nrow * yres]. *)
Lemma coverage_rational dim blocksize extent transform (g : Grout.t Fraction) :
  valid_dims dim blocksize ->
  __init__ dim blocksize extent transform = Ok g ->
  (forall tr, 0 <= tr < tile_rows g ->
     let ts := sort_by TileSpec.offset_x (row_tiles g tr) in
     length ts = Z.to_nat (tile_cols g) /\
     (exists a, nth_error ts 0 = Some a /\ TileSpec.xmin a = xmin g) /\
     (forall i a b, nth_error ts i = Some a -> nth_error ts (S i) = Some b ->
                    TileSpec.xmin b = TileSpec.xmax a) /\
     (exists b, nth_error ts (length ts - 1) = Some b /\
                TileSpec.xmax b = (xmin g + Z2Qc (ncol g) * xres g)%Qc)) /\
  (forall tc, 0 <= tc < tile_cols g ->
     let ts := sort_by TileSpec.offset_y (col_tiles g tc) in
     length ts = Z.to_nat (tile_rows g) /\
     (exists a, nth_error ts 0 = Some a /\ TileSpec.ymax a = ymax g) /\
     (forall i a b, nth_error ts i = Some a -> nth_error ts (S i) = Some b ->
                    TileSpec.ymax b = TileSpec.ymin a) /\
     (exists b, nth_error ts (length ts - 1) = Some b /\
                TileSpec.ymin b = (ymax g - Z2Qc (nrow g) * yres g)%Qc)).
Proof.
  intros Hv Hg. pose proof (init_well_formed _ _ _ _ _ Hv Hg) as Hwf.
  pose proof (well_formed_cols g Hwf) as (HC & HlastC & HupC).
  pose proof (well_formed_rows g Hwf) as (HR & HlastR & HupR).
  destruct Hwf as ((Hw & Hh & Hbw & Hbh) & Ec & Er). cbn [fst snd] in *.
  split.
  - intros tr Htr. unfold row_tiles. rewrite iter_exact. cbn [fst].
    rewrite (filter_row (exact_tile g) TileSpec.row);
      [| reflexivity | apply range_NoDup | now apply range_In].
    rewrite sort_by_sorted
      by (apply (range_sorted (fun tc => exact_tile g tc tr)); intros i j Hij; cbn; nia).
    rewrite length_map, range_length. split; trivial. split; [|split].
    + exists (exact_tile g 0 tr). rewrite nth_error_map, range_nth by lia. split; trivial.
      cbn. change (Z2Qc 0) with 0%Qc. ring.
    + intros i a b Ha Hb.
      apply map_range_nth in Ha. destruct Ha as [_ ->].
      apply map_range_nth in Hb. destruct Hb as [Hi ->].
      cbn [exact_tile TileSpec.xmin TileSpec.xmax].
      replace (Z.min (block_width g) (ncol g - Z.of_nat i * block_width g))
        with (block_width g) by nia.
      replace (Z.of_nat (S i) * block_width g)
        with (Z.of_nat i * block_width g + block_width g) by lia.
      rewrite Z2Qc_plus. ring.
    + exists (exact_tile g (tile_cols g - 1) tr).
      rewrite nth_error_map, range_nth by lia.
      replace (Z.of_nat (Z.to_nat (tile_cols g) - 1)) with (tile_cols g - 1) by lia.
      split; trivial. cbn [exact_tile TileSpec.xmax].
      replace (Z.min (block_width g) (ncol g - (tile_cols g - 1) * block_width g))
        with (ncol g - (tile_cols g - 1) * block_width g) by lia.
      rewrite <- Qcplus_assoc, <- Qcmult_plus_distr_l, <- Z2Qc_plus.
      do 3 f_equal. lia.
  - intros tc Htc. unfold col_tiles. rewrite iter_exact. cbn [fst].
    rewrite (filter_col (exact_tile g) TileSpec.col);
      [| reflexivity | apply range_NoDup | now apply range_In].
    rewrite sort_by_sorted
      by (apply (range_sorted (fun tr => exact_tile g tc tr)); intros i j Hij; cbn; nia).
    rewrite length_map, range_length. split; trivial. split; [|split].
    + exists (exact_tile g tc 0). rewrite nth_error_map, range_nth by lia. split; trivial.
      cbn. change (Z2Qc 0) with 0%Qc. ring.
    + intros i a b Ha Hb.
      apply map_range_nth in Ha. destruct Ha as [_ ->].
      apply map_range_nth in Hb. destruct Hb as [Hi ->].
      cbn [exact_tile TileSpec.ymin TileSpec.ymax].
      replace (Z.min (block_height g) (nrow g - Z.of_nat i * block_height g))
        with (block_height g) by nia.
      replace (Z.of_nat (S i) * block_height g)
        with (Z.of_nat i * block_height g + block_height g) by lia.
      rewrite Z2Qc_plus. ring.
    + exists (exact_tile g tc (tile_rows g - 1)).
      rewrite nth_error_map, range_nth by lia.
      replace (Z.of_nat (Z.to_nat (tile_rows g) - 1)) with (tile_rows g - 1) by lia.
      split; trivial. cbn [exact_tile TileSpec.ymin].
      replace (Z.min (block_height g) (nrow g - (tile_rows g - 1) * block_height g))
        with (nrow g - (tile_rows g - 1) * block_height g) by lia.
      replace (Z2Qc (nrow g))
        with (Z2Qc ((tile_rows g - 1) * block_height g) +
              Z2Qc (nrow g - (tile_rows g - 1) * block_height g))%Qc
        by (rewrite <- Z2Qc_plus; f_equal; lia).
      ring.
Qed.

(** A float other than NaN equals itself. *)
Lemma eqb_refl (x : Float.float) : Float.is_nan x = false -> Float.eqb x x = true.
Proof.
  destruct x as [s|s| |s m e]; cbn; try discriminate; intros _.
  - reflexivity.
  - now destruct s.
  - unfold Float.eqb, SFeqb, SFcompare.
    rewrite Z.compare_refl, Pos.compare_cont_refl. now destruct s.
Qed.

(** Adding or subtracting the product of zero and a finite float leaves a
    float other than NaN as it is, up to the sign of a zero. *)
Lemma add_zero_times (x r : Float.float) :
  Float.is_finite r = true -> Float.is_nan x = false ->
  Float.eqb (add x (mul (S754_zero false) r)) x = true /\
  Float.eqb (sub x (mul (S754_zero false) r)) x = true.
Proof.
  intros Hr Hx.
  destruct r as [sr|sr| |sr mr er]; try discriminate;
    destruct x as [sx|sx| |sx mx ex]; try discriminate;
    cbn [add sub mul float_number SFadd SFsub SFmul xorb];
    try (split; apply eqb_refl; reflexivity);
    destruct sx, sr; split; reflexivity.
Qed.

(** On floats, on a well-formed grid with finite resolutions and an origin
    that is not NaN, the first tile of a row sorted by [offset_x] starts at
    the grid's [xmin] and the first tile of a column sorted by [offset_y] at
    the grid's [ymax]. *)
Lemma coverage_float_first (h : Grout.t Float.float) :
  well_formed h ->
  Float.is_finite (xres h) = true -> Float.is_finite (yres h) = true ->
  Float.is_nan (xmin h) = false -> Float.is_nan (ymax h) = false ->
  (forall tr, 0 <= tr < tile_rows h ->
     exists a, nth_error (sort_by TileSpec.offset_x (row_tiles h tr)) 0 = Some a /\
               Float.eqb (TileSpec.xmin a) (xmin h) = true) /\
  (forall tc, 0 <= tc < tile_cols h ->
     exists a, nth_error (sort_by TileSpec.offset_y (col_tiles h tc)) 0 = Some a /\
               Float.eqb (TileSpec.ymax a) (ymax h) = true).
Proof.
  intros Hwf Hrx Hry Hx Hy.
  destruct (sorted_tiles h Hwf) as [Hrows Hcols].
  pose proof (well_formed_cols h Hwf) as (HC & _).
  pose proof (well_formed_rows h Hwf) as (HR & _).
  assert (Hfirst : forall n, 0 < n -> range n = 0 :: map (fun i => 1 + i) (range (n - 1))).
  { intros n Hn. replace n with (1 + (n - 1)) at 1 by lia.
    rewrite range_app by lia. reflexivity. }
  assert (Hcorner : forall tc tr a, tile h tc tr = Ok a ->
            (tc = 0 -> Float.eqb (TileSpec.xmin a) (xmin h) = true) /\
            (tr = 0 -> Float.eqb (TileSpec.ymax a) (ymax h) = true)).
  { intros tc tr a. unfold tile.
    destruct (int_mul (tc * block_width h) (xres h)) as [dx|] eqn:Hdx;
      cbn [bind]; [|discriminate].
    destruct (int_mul (Z.min (block_width h) (ncol h - tc * block_width h)) (xres h))
      as [wx|]; cbn [bind]; [|discriminate].
    destruct (int_mul (tr * block_height h) (yres h)) as [dy|] eqn:Hdy;
      cbn [bind]; [|discriminate].
    destruct (int_mul (Z.min (block_height h) (nrow h - tr * block_height h)) (yres h))
      as [hy|]; cbn [bind]; [|discriminate].
    intros [= <-]. cbn [TileSpec.xmin TileSpec.ymax]. split; intros ->.
    - cbn in Hdx. injection Hdx as <-. now apply add_zero_times.
    - cbn in Hdy. injection Hdy as <-. now apply add_zero_times. }
  split.
  - intros tr Htr. specialize (Hrows tr Htr). rewrite (Hfirst _ HC) in Hrows.
    cbn [map] in Hrows. rewrite getitem_in in Hrows by lia.
    destruct (sort_by _ _) as [|a l]; [discriminate|]. cbn [map] in Hrows.
    injection Hrows as Ha _. exists a. split; [reflexivity|].
    symmetry in Ha. now apply (Hcorner 0 tr a Ha).
  - intros tc Htc. specialize (Hcols tc Htc). rewrite (Hfirst _ HR) in Hcols.
    cbn [map] in Hcols. rewrite getitem_in in Hcols by lia.
    destruct (sort_by _ _) as [|a l]; [discriminate|]. cbn [map] in Hcols.
    injection Hcols as Ha _. exists a. split; [reflexivity|].
    symmetry in Ha. now apply (Hcorner tc 0 a Ha).
Qed.


End Exact.

(* ================================================================== *)
(** ** The same grid on floats and on rationals *)



(* ================================================================== *)
(** ** Iteration and lookup on concrete grids *)

(** Iteration over the grid of [test_grout_basic] (four tile columns, two
    tile rows) is row-major, and two iterators over it advanced in turn, the
    first one twice as often, give the same tiles. *)
Lemma iter_row_major_basic :
  exists g,
    Example.basic = Ok g /\
    (exists tiles,
       Grout.__iter__ g = (tiles, None) /\
       Z.of_nat (length tiles) = Grout.__len__ g /\
       map (fun s => (TileSpec.row s, TileSpec.col s)) tiles =
         [(0, 0); (0, 1); (0, 2); (0, 3); (1, 0); (1, 1); (1, 2); (1, 3)]) /\
    (let st2 := snd (Grout.iter g (snd (Grout.iter g []))) in
     calls_on 1 (fst (run [0; 1; 0; 0; 1; 0]%nat st2)) =
       map Some (take_next 2 (Grout.__iter__ g)) /\
     calls_on 0 (fst (run [0; 1; 0; 0; 1; 0]%nat st2)) =
       map Some (take_next 4 (Grout.__iter__ g))).
Proof.
  eexists. split; [vm_compute; reflexivity|].
  match goal with |- context [Grout.__len__ ?g] =>
    assert (Hv : Grout.valid_dims (1000, 500) (256, 256))
      by (unfold Grout.valid_dims; cbn [fst snd]; lia);
    assert (Hg : Example.basic = Ok g) by (vm_compute; reflexivity);
    unfold Example.basic in Hg;
    destruct (iter_row_major g) as (_ & Hrow & Hfresh);
    destruct (Hrow _ _ _ _ Hv Hg) as (tiles & H1 & H2 & _ & H3);
    destruct (Hfresh [] 0%nat (snd (Grout.iter g [])) 1%nat
                (snd (Grout.iter g (snd (Grout.iter g []))))
                [0; 1; 0; 0; 1; 0]%nat eq_refl eq_refl) as (_ & Hrun)
  end.
  split.
  - exists tiles. split; [exact H1|]. split; [exact H2|]. exact H3.
  - cbv zeta. destruct Hrun as (Ha & Hb & _).
    + repeat (apply Forall_cons; [auto|]). apply Forall_nil.
    + split; [exact Hb | exact Ha].
Defined.

(** C3, as stated, fails: the grid of [Example.huge] has [__len__] 4, but
    the third tile starts at pixel [2**1024], which has no float: iteration
    yields two records and raises [OverflowError]. *)
Lemma iter_overflow :
  exists g t0 t1,
    Example.huge = Ok g /\
    Grout.__len__ g = 4 /\
    Grout.__iter__ g = ([t0; t1], Some OverflowError).
Proof.
  do 3 eexists. split; [vm_compute; reflexivity|].
  split; vm_compute; reflexivity.
Qed.


(** Lookup on the grid of [test_grout_basic]: every index from 0 to 7
    returns a record, every other one raises [IndexError]. *)
Lemma getitem_index_error_basic :
  exists g,
    Example.basic = Ok g /\
    (forall i, Grout.__getitem__ g (Grout.Linear i) = Raise IndexError <->
               ~ (0 <= i < 8)) /\
    (forall i, 0 <= i < 8 -> exists s, Grout.__getitem__ g (Grout.Linear i) = Ok s).
Proof.
  eexists. split; [vm_compute; reflexivity|].
  match goal with |- context [Grout.__getitem__ ?g] =>
    assert (Hv : Grout.valid_dims (1000, 500) (256, 256))
      by (unfold Grout.valid_dims; cbn [fst snd]; lia);
    assert (Hg : Example.basic = Ok g) by (vm_compute; reflexivity);
    unfold Example.basic in Hg;
    destruct (getitem_index_error g) as (_ & Hlin & Hin);
    destruct (Hin _ _ _ _ Hv Hg) as (_ & _ & _ & Hok)
  end.
  split; [apply Hlin; cbn; lia | exact Hok].
Defined.

(** C7, as stated, fails: on the grid of [Example.huge] the in-range
    position [(2, 0)] raises [OverflowError]; and the grid of
    [Example.tiny] has no tile column, so that lookup by a linear index
    raises [ZeroDivisionError], not [IndexError]. *)
Lemma getitem_beyond_floats :
  (exists g, Example.huge = Ok g /\
     Grout.tile_cols g = 4 /\ Grout.tile_rows g = 1 /\
     Grout.__getitem__ g (Grout.Pair 2 0) = Raise OverflowError /\
     Grout.__getitem__ g (Grout.Linear 2) = Raise OverflowError) /\
  (exists g, Example.tiny = Ok g /\
     Grout.tile_cols g = 0 /\ Grout.tile_rows g = 1 /\
     Grout.__getitem__ g (Grout.Linear 0) = Raise ZeroDivisionError /\
     Grout.__getitem__ g (Grout.Linear 5) = Raise ZeroDivisionError).
Proof.
  split; eexists; (split; [vm_compute; reflexivity|]);
    repeat split; vm_compute; reflexivity.
Qed.

(* ================================================================== *)
(** ** Coordinate references of the test suite *)

(** A transform given with the extent of the edge-tile grid is ignored, and
    the resolutions are those of the extent: one unit per pixel. *)
Lemma init_extent_precedence_edge :
  exists g : Grout.t Float.float,
    Grout.__init__ (300, 200) (256, 256)
      (Some (Example.fl 0, Example.fl 300, Example.fl 0, Example.fl 200))
      (Some (Example.fl 7, Example.fl 7, Example.fl 7, Example.fl 7, Example.fl 7, Example.fl 7))
    = Ok g /\
    Example.edge = Ok g /\
    Grout.xres g = Example.fl 1 /\ Grout.yres g = Example.fl 1 /\
    Grout.xmin g = Example.fl 0 /\ Grout.ymax g = Example.fl 200.
Proof.
  destruct (init_extent_precedence (300, 200) (256, 256)
              (Example.fl 0, Example.fl 300, Example.fl 0, Example.fl 200))
    as (_ & _ & Hok).
  destruct Hok as (g & H1 & H2 & H3).
  - unfold Grout.valid_dims; cbn [fst snd]; lia.
  - exists g. split; [apply H1|]. split; [exact H2|].
    destruct (H3 _ _ _ _ eq_refl) as (Hx & Hy & Hx0 & Hy1).
    cbn [fst snd] in Hx, Hy.
    split; [|split; [|split; [exact Hx0 | exact Hy1]]].
    + assert (E : truediv_int (sub (Example.fl 300) (Example.fl 0)) 300 = Ok (Example.fl 1))
        by (vm_compute; reflexivity).
      rewrite E in Hx. now injection Hx.
    + assert (E : truediv_int (sub (Example.fl 200) (Example.fl 0)) 200 = Ok (Example.fl 1))
        by (vm_compute; reflexivity).
      rewrite E in Hy. now injection Hy.
Defined.

(** C9, as stated, fails: with both references, a grid width of [2**1024]
    makes construction raise [OverflowError]. *)
Lemma init_both_overflow :
  @Grout.__init__ Float.float _ (2 ^ 1024, 5) (256, 256)
    (Some (Example.fl 0, Example.fl 1, Example.fl 0, Example.fl 1))
    (Some (Example.fl 0, Example.fl 1, Example.fl 0, Example.fl 1, Example.fl 0,
           Example.fl (-1)))
  = Raise OverflowError.
Proof. vm_compute. reflexivity. Qed.

(** The extent [(0, 100, 0, 50)] on 1000 by 500 pixels gives the resolution
    [0.1] both ways; the transform [(0.0, 0.1, 0.0, 50.0, 0.0, -0.1)] gives
    [xres = 0.1] and [yres = 0.1]. *)
Lemma init_reference_geotransform :
  (exists g,
     Example.basic = Ok g /\
     Grout.xmin g = Example.fl 0 /\ Grout.ymax g = Example.fl 50 /\
     Grout.xres g = Example.tenth /\ Grout.yres g = Example.tenth) /\
  (exists g,
     Example.geotransform = Ok g /\
     Grout.xmin g = Example.fl 0 /\ Grout.ymax g = Example.fl 50 /\
     Grout.xres g = Example.tenth /\ Grout.yres g = Example.tenth).
Proof.
  assert (Hv : Grout.valid_dims (1000, 500) (256, 256))
    by (unfold Grout.valid_dims; cbn [fst snd]; lia).
  assert (Hv' : Grout.valid_dims (1000, 500) (100, 100))
    by (unfold Grout.valid_dims; cbn [fst snd]; lia).
  split.
  - destruct (init_reference (1000, 500) (256, 256)
                (Some (Example.fl 0, Example.fl 100, Example.fl 0, Example.fl 50)) None)
      as (_ & _ & _ & _ & Hok).
    destruct (Hok Hv) as [Hext _].
    destruct (Hext _ _ _ _ eq_refl) as (g & Hg & Hx & Hy & Hx0 & Hy1).
    exists g. split; [exact Hg|]. split; [exact Hx0|]. split; [exact Hy1|].
    cbn [fst snd] in Hx, Hy. split.
    + assert (E : truediv_int (sub (Example.fl 100) (Example.fl 0)) 1000 = Ok Example.tenth)
        by (vm_compute; reflexivity).
      rewrite E in Hx. now injection Hx.
    + assert (E : truediv_int (sub (Example.fl 50) (Example.fl 0)) 500 = Ok Example.tenth)
        by (vm_compute; reflexivity).
      rewrite E in Hy. now injection Hy.
  - destruct (init_reference (1000, 500) (100, 100) None
                (Some (Example.fl 0, Example.tenth, Example.fl 0, Example.fl 50,
                       Example.fl 0, SFopp Example.tenth)))
      as (_ & _ & _ & _ & Hok).
    destruct (Hok Hv') as [_ Htr].
    destruct (Htr (Example.fl 0) Example.tenth (Example.fl 0) (Example.fl 50)
                (Example.fl 0) Example.tenth eq_refl eq_refl)
      as (g & Hg & H).
    exists g. split; [exact Hg | exact H].
Defined.

(* ================================================================== *)
(** ** The values of the test suite *)

(** [1 / 10] is the float [0.1], and [1 / 3] is [0x1.5555555555555p-2]. *)
Example truediv_tenth : Float.int_truediv 1 10 = Ok Example.tenth.
Proof. vm_compute; reflexivity. Qed.

Example truediv_third :
  Float.int_truediv 1 3 = Ok (S754_finite false 0x15555555555555 (-54)).
Proof. vm_compute; reflexivity. Qed.

(** [test_grout_basic]: 4 columns, 2 rows, 8 tiles. *)
Example test_grout_basic :
  exists g, Example.basic = Ok g /\
    Grout.tile_cols g = 4 /\ Grout.tile_rows g = 2 /\ Grout.__len__ g = 8.
Proof.
  eexists. split; [vm_compute; reflexivity|]. repeat split.
Qed.

(** [test_grout_edge_tiles]: two tiles, of widths 256 and 44 and height 200. *)
Example test_grout_edge_tiles :
  exists g, Example.edge = Ok g /\
    map (fun s => (TileSpec.ncol s, TileSpec.nrow s)) (fst (Grout.__iter__ g))
    = [(256, 200); (44, 200)] /\
    snd (Grout.__iter__ g) = None.
Proof.
  eexists. split; [vm_compute; reflexivity|]. split; vm_compute; reflexivity.
Qed.

(** [test_grout_transform]: the geotransform is stored with [yres] positive. *)
Example test_grout_transform :
  exists g, Example.geotransform = Ok g /\
    Grout.xmin g = Example.fl 0 /\ Grout.ymax g = Example.fl 50 /\
    Grout.xres g = Example.tenth /\ Grout.yres g = Example.tenth.
Proof.
  eexists. split; [vm_compute; reflexivity|]. repeat split.
Qed.

(** [test_gebco_scale]: 169 columns, 85 rows, 14365 tiles; the first tile
    starts at the top-left corner of the extent. *)
Example test_gebco_scale :
  exists g s, Example.gebco = Ok g /\
    Grout.tile_cols g = 169 /\ Grout.tile_rows g = 85 /\ Grout.__len__ g = 14365 /\
    Grout.__getitem__ g (Grout.Linear 0) = Ok s /\
    TileSpec.xmin s = Example.fl (-180) /\ TileSpec.ymax s = Example.fl 90.
Proof.
  do 2 eexists. split; [vm_compute; reflexivity|].
  do 3 (split; [reflexivity|]). split; [vm_compute; reflexivity|].
  split; vm_compute; reflexivity.
Qed.

(** [test_coordinate_coverage]: on the grid of the test the tiles of row 0
    abut exactly in floats too, from 0.0 to 10.0. *)
Example test_coordinate_coverage :
  exists g,
    Grout.__init__ (100, 100) (30, 30)
      (Some (Example.fl 0, Example.fl 10, Example.fl 0, Example.fl 10)) None = Ok g /\
    map (fun s => (Qred (Float.to_Q (TileSpec.xmin s)), Qred (Float.to_Q (TileSpec.xmax s))))
        (sort_by TileSpec.offset_x (Grout.row_tiles g 0))
    = [(0, 3); (3, 6); (6, 9); (9, 10)]%Q.
Proof.
  eexists. split; [vm_compute; reflexivity|]. vm_compute. reflexivity.
Qed.

(* ================================================================== *)
(** * Further properties *)

(* ================================================================== *)
(** ** Lookup on any grid *)

Section Indexing.
Context {F : Type} {num : Number F}.
Import Grout.

(** A record found at [(tc, tr)] is the record of that position, which is
    inside the tile grid. *)
Lemma getitem_pair_inv (g : Grout.t F) tc tr s :
  __getitem__ g (Pair tc tr) = Ok s ->
  0 <= tc < tile_cols g /\ 0 <= tr < tile_rows g /\ tile g tc tr = Ok s.
Proof.
  intros Hs.
  destruct (Z_lt_le_dec tc 0); [rewrite getitem_out in Hs by lia; discriminate|].
  destruct (Z_lt_le_dec tc (tile_cols g)); [|rewrite getitem_out in Hs by lia; discriminate].
  destruct (Z_lt_le_dec tr 0); [rewrite getitem_out in Hs by lia; discriminate|].
  destruct (Z_lt_le_dec tr (tile_rows g)); [|rewrite getitem_out in Hs by lia; discriminate].
  rewrite getitem_in in Hs by lia. auto.
Qed.

(** Every record that lookup returns is the record of an in-range position. *)
Lemma getitem_ok_inv (g : Grout.t F) idx s :
  __getitem__ g idx = Ok s ->
  0 <= TileSpec.col s < tile_cols g /\ 0 <= TileSpec.row s < tile_rows g /\
  tile g (TileSpec.col s) (TileSpec.row s) = Ok s.
Proof.
  assert (Hpair : forall tc tr, __getitem__ g (Pair tc tr) = Ok s ->
            0 <= TileSpec.col s < tile_cols g /\ 0 <= TileSpec.row s < tile_rows g /\
            tile g (TileSpec.col s) (TileSpec.row s) = Ok s).
  { intros tc tr Hs. destruct (getitem_pair_inv g tc tr s Hs) as (Hc & Hr & Ht).
    destruct (tile_inv g tc tr s Ht) as (-> & -> & _). auto. }
  destruct idx as [i | tc tr]; [|apply Hpair].
  destruct (Z.eq_dec (tile_cols g) 0) as [E0 | Hne].
  - unfold __getitem__. rewrite E0. discriminate.
  - rewrite getitem_linear by trivial. apply Hpair.
Qed.

(** Every record that iteration yields is one that lookup returns. *)
Lemma iter_in_getitem (g : Grout.t F) s :
  In s (fst (__iter__ g)) ->
  exists tc tr, __getitem__ g (Pair tc tr) = Ok s.
Proof.
  rewrite iter_unfold.
  assert (Hin : forall (l : list Z) (f : Z -> result (TileSpec.t F)),
            In s (fst (for_in l (fun x => yield (f x)))) -> exists x, In x l /\ f x = Ok s).
  { intros l f. induction l as [|x l IH]; cbn [for_in]; [intros []|].
    destruct (f x) as [y|e] eqn:Hx; cbn [yield gen_seq].
    - destruct (for_in l _) as [ys o]. cbn [fst] in *. intros [<- | Hs]; [eauto using in_eq|].
      destruct (IH Hs) as (x' & Hx' & Hf). eauto using in_cons.
    - intros []. }
  assert (Hout : forall (l : list Z) (body : Z -> gen (TileSpec.t F)),
            In s (fst (for_in l body)) -> exists x, In x l /\ In s (fst (body x))).
  { intros l body. induction l as [|x l IH]; cbn [for_in]; [intros []|].
    destruct (body x) as [ys [e|]] eqn:Hx; cbn [gen_seq fst].
    - intros Hs. exists x. rewrite Hx. auto using in_eq.
    - destruct (for_in l body) as [zs o]. cbn [fst] in *. intros Hs.
      apply in_app_or in Hs. destruct Hs as [Hs | Hs].
      + exists x. rewrite Hx. auto using in_eq.
      + destruct (IH Hs) as (x' & Hx' & Hb). eauto using in_cons. }
  intros Hs. apply Hout in Hs. destruct Hs as (tr & Htr & Hs).
  apply Hin in Hs. destruct Hs as (tc & Htc & Hs).
  apply range_In in Htr. apply range_In in Htc.
  exists tc, tr. now rewrite getitem_in.
Qed.

(** X1: for every grid, a record found at the linear index [i] carries the
    column and row with [row * tile_cols + col = i], and [i] is in
    [0, __len__); and a record found at [(col, row)] is found again at the
    linear index [row * tile_cols + col]. *)
Theorem linear_index_round_trip (g : Grout.t F) :
  (forall i s, __getitem__ g (Linear i) = Ok s ->
     TileSpec.row s * tile_cols g + TileSpec.col s = i /\ 0 <= i < __len__ g) /\
  (forall tc tr s, __getitem__ g (Pair tc tr) = Ok s ->
     __getitem__ g (Linear (tr * tile_cols g + tc)) = Ok s).
Proof.
  assert (Hpair : forall tc tr s, __getitem__ g (Pair tc tr) = Ok s ->
            0 <= tc < tile_cols g /\ 0 <= tr < tile_rows g /\
            TileSpec.col s = tc /\ TileSpec.row s = tr).
  { intros tc tr s Hs. destruct (getitem_pair_inv g tc tr s Hs) as (Hc & Hr & Ht).
    destruct (tile_inv g tc tr s Ht) as (-> & -> & _). auto. }
  split.
  - intros i s Hs.
    destruct (Z.eq_dec (tile_cols g) 0) as [E0 | Hne].
    { unfold __getitem__ in Hs. rewrite E0 in Hs. discriminate. }
    rewrite getitem_linear in Hs by trivial.
    destruct (Hpair _ _ s Hs) as (Hc & Hr & -> & ->).
    pose proof (Z.div_mod i (tile_cols g) Hne). split; [lia|].
    unfold __len__. rewrite Z.mul_comm.
    apply (divmod_in_grid (tile_cols g) (tile_rows g)); lia.
  - intros tc tr s Hs. destruct (Hpair _ _ s Hs) as (Hc & Hr & _).
    rewrite getitem_linear by lia.
    replace ((tr * tile_cols g + tc) mod tile_cols g) with tc
      by (apply Z.mod_unique with tr; lia).
    replace ((tr * tile_cols g + tc) / tile_cols g) with tr
      by (apply Z.div_unique with tc; lia).
    exact Hs.
Qed.

(** X2: a grid with no tile column or no tile row has no tiles: iteration
    ends at once, lookup by [(col, row)] always raises [IndexError], and
    lookup by linear index raises [ZeroDivisionError] when [tile_cols] is
    zero and [IndexError] otherwise.  [__len__] is then zero or negative,
    unless both counts are negative, when it is positive. *)
Theorem empty_grid (g : Grout.t F) :
  tile_cols g <= 0 \/ tile_rows g <= 0 ->
  __iter__ g = gen_done /\
  (forall tc tr, __getitem__ g (Pair tc tr) = Raise IndexError) /\
  (forall i, __getitem__ g (Linear i) =
             Raise (if tile_cols g =? 0 then ZeroDivisionError else IndexError)) /\
  (0 < __len__ g <-> tile_cols g < 0 /\ tile_rows g < 0).
Proof.
  intros Hempty. split; [|split; [|split]].
  - rewrite iter_unfold.
    destruct (Z_le_gt_dec (tile_rows g) 0) as [Hr | Hr].
    + now rewrite range_nil.
    + rewrite (range_nil (tile_cols g)) by lia. cbn [for_in]. apply for_in_done.
  - intros tc tr. apply getitem_out. lia.
  - intros i. destruct (Z.eqb_spec (tile_cols g) 0) as [E0 | Hne].
    + unfold __getitem__. rewrite E0. reflexivity.
    + rewrite getitem_linear by trivial. apply getitem_out.
      intros [Hc Hr].
      destruct (Z_lt_le_dec 0 (tile_cols g)) as [Hpos | Hneg].
      * lia.
      * lia.
  - unfold __len__. rewrite Z.lt_0_mul. lia.
Qed.

(** X3: for every grid, the tiles of a column are aligned, and so are the
    tiles of a row: two records found in the same column have the same
    [offset_x], [ncol], [xmin] and [xmax], and two records found in the same
    row have the same [offset_y], [nrow], [ymin] and [ymax]; this holds for
    floats as it does for exact numbers, since the bounds of a tile are
    computed from its own column and row alone. *)
Theorem tiles_aligned (g : Grout.t F) idx idx' s s' :
  __getitem__ g idx = Ok s -> __getitem__ g idx' = Ok s' ->
  (TileSpec.col s = TileSpec.col s' ->
     TileSpec.offset_x s = TileSpec.offset_x s' /\ TileSpec.ncol s = TileSpec.ncol s' /\
     TileSpec.xmin s = TileSpec.xmin s' /\ TileSpec.xmax s = TileSpec.xmax s') /\
  (TileSpec.row s = TileSpec.row s' ->
     TileSpec.offset_y s = TileSpec.offset_y s' /\ TileSpec.nrow s = TileSpec.nrow s' /\
     TileSpec.ymin s = TileSpec.ymin s' /\ TileSpec.ymax s = TileSpec.ymax s').
Proof.
  intros Hs Hs'.
  destruct (getitem_ok_inv g idx s Hs) as (_ & _ & Ht).
  destruct (getitem_ok_inv g idx' s' Hs') as (_ & _ & Ht').
  revert Ht Ht'. generalize (TileSpec.col s) (TileSpec.row s)
    (TileSpec.col s') (TileSpec.row s'). intros c r c' r'. unfold tile.
  split; intros ->.
  - destruct (int_mul (c' * block_width g) (xres g)) as [dx|]; [|discriminate].
    destruct (int_mul (Z.min (block_width g) (ncol g - c' * block_width g)) (xres g))
      as [wx|]; [|discriminate].
    cbn [bind] in *.
    destruct (int_mul (r * block_height g) (yres g)); [|discriminate].
    destruct (int_mul (Z.min (block_height g) (nrow g - r * block_height g)) (yres g));
      [|discriminate].
    destruct (int_mul (r' * block_height g) (yres g)); [|discriminate].
    destruct (int_mul (Z.min (block_height g) (nrow g - r' * block_height g)) (yres g));
      [|discriminate].
    cbn [bind] in *. injection Ht as <-. injection Ht' as <-. cbn. auto.
  - destruct (int_mul (c * block_width g) (xres g)); [|discriminate].
    destruct (int_mul (Z.min (block_width g) (ncol g - c * block_width g)) (xres g));
      [|discriminate].
    destruct (int_mul (c' * block_width g) (xres g)); [|discriminate].
    destruct (int_mul (Z.min (block_width g) (ncol g - c' * block_width g)) (xres g));
      [|discriminate].
    cbn [bind] in *.
    destruct (int_mul (r' * block_height g) (yres g)) as [dy|]; [|discriminate].
    destruct (int_mul (Z.min (block_height g) (nrow g - r' * block_height g)) (yres g))
      as [hy|]; [|discriminate].
    cbn [bind] in *. injection Ht as <-. injection Ht' as <-. cbn. auto.
Qed.

End Indexing.

(* ================================================================== *)
(** ** The exceptions of lookup and iteration *)

Section Errors.
Context {F : Type} {num : Number F}.
Import Grout.

(** The first exception of a loop is an exception of its body. *)
Lemma for_in_raises {A B} (l : list A) (body : A -> gen B) e :
  snd (for_in l body) = Some e -> exists x, In x l /\ snd (body x) = Some e.
Proof.
  induction l as [|x l IH]; cbn [for_in]; [discriminate|].
  destruct (body x) as [ys [e'|]] eqn:Hx; cbn [gen_seq snd].
  - intros [= ->]. exists x. rewrite Hx. auto using in_eq.
  - intros H. destruct (IH H) as (x' & Hin & Hb). eauto using in_cons.
Qed.

(** X4: for every grid, lookup raises nothing but [IndexError],
    [ZeroDivisionError] and [OverflowError]: [ZeroDivisionError] only for a
    linear index on a grid without tile columns, [IndexError] only for a
    position outside the tile grid, and [OverflowError] only for a position
    inside it; iteration raises nothing but [OverflowError]. *)
Theorem getitem_errors (g : Grout.t F) :
  (forall i e, __getitem__ g (Linear i) = Raise e ->
     (e = ZeroDivisionError /\ tile_cols g = 0) \/
     (tile_cols g <> 0 /\
      __getitem__ g (Pair (i mod tile_cols g) (i / tile_cols g)) = Raise e)) /\
  (forall tc tr e, __getitem__ g (Pair tc tr) = Raise e ->
     (e = IndexError /\ ~ (0 <= tc < tile_cols g /\ 0 <= tr < tile_rows g)) \/
     (e = OverflowError /\ 0 <= tc < tile_cols g /\ 0 <= tr < tile_rows g)) /\
  (forall e, snd (__iter__ g) = Some e -> e = OverflowError).
Proof.
  split; [|split].
  - intros i e He. destruct (Z.eq_dec (tile_cols g) 0) as [E0 | Hne].
    + left. unfold __getitem__ in He. rewrite E0 in He. cbn in He. split; congruence.
    + right. rewrite getitem_linear in He by trivial. auto.
  - intros tc tr e He.
    destruct (Z_lt_le_dec tc 0); [rewrite getitem_out in He by lia; left; split; [congruence | lia]|].
    destruct (Z_lt_le_dec tc (tile_cols g));
      [|rewrite getitem_out in He by lia; left; split; [congruence | lia]].
    destruct (Z_lt_le_dec tr 0); [rewrite getitem_out in He by lia; left; split; [congruence | lia]|].
    destruct (Z_lt_le_dec tr (tile_rows g));
      [|rewrite getitem_out in He by lia; left; split; [congruence | lia]].
    rewrite getitem_in in He by lia. apply tile_raises in He. right. repeat split; trivial; lia.
  - intros e He. rewrite iter_unfold in He.
    apply for_in_raises in He. destruct He as (tr & _ & He).
    apply for_in_raises in He. destruct He as (tc & _ & He).
    destruct (tile g tc tr) as [s|e'] eqn:Ht; [discriminate|].
    cbn in He. injection He as ->. now apply tile_raises in Ht.
Qed.

End Errors.

(* ================================================================== *)
(** ** The tiles as a partition of the pixel grid *)

(** One axis of the tiling: [C] tiles of size [b] reach across [W] pixels. *)
Lemma tile_span W b C c :
  0 < b -> (C - 1) * b < W <= C * b -> 0 <= c < C ->
  0 <= c * b /\ 0 < Z.min b (W - c * b) <= b /\ c * b + Z.min b (W - c * b) <= W /\
  (c < C - 1 -> Z.min b (W - c * b) = b) /\
  (c = C - 1 -> c * b + Z.min b (W - c * b) = W).
Proof.
  intros Hb HW Hc.
  assert (c * b <= (C - 1) * b) by (apply Z.mul_le_mono_nonneg_r; lia).
  assert (0 <= c * b) by (apply Z.mul_nonneg_nonneg; lia).
  split; [lia|]. split; [lia|]. split; [lia|]. split.
  - intros Hlt.
    assert ((c + 1) * b <= (C - 1) * b) by (apply Z.mul_le_mono_nonneg_r; lia). lia.
  - intros ->. lia.
Qed.

(** The tile of an axis that holds the pixel [x]. *)
Lemma pixel_span W b C x :
  0 < b -> (C - 1) * b < W <= C * b -> 0 <= x < W ->
  0 <= x / b < C /\
  x / b * b <= x < x / b * b + Z.min b (W - x / b * b) /\
  (forall c, c * b <= x < c * b + Z.min b (W - c * b) -> c = x / b).
Proof.
  intros Hb HW Hx.
  pose proof (Z.div_mod x b ltac:(lia)) as Hd.
  pose proof (Z.mod_pos_bound x b Hb) as Hm.
  assert (0 <= x / b) by (apply Z.div_pos; lia).
  assert (x / b < C) by (apply Z.div_lt_upper_bound; lia).
  split; [lia|]. split; [lia|].
  intros c Hc. apply Z.div_unique with (x - c * b); lia.
Qed.

Section Tiling.
Context {F : Type} {num : Number F} {laws : NumberLaws F}.
Import Grout.

(** X5: on a grid of valid sizes, [tile_cols] is the least number of tiles of
    width [block_width] that reach across [ncol] pixels, and [tile_rows] the
    least number of tiles of height [block_height] that reach down [nrow]
    pixels; so there is at least one tile. *)
Theorem tile_counts_least dim blocksize extent transform (g : Grout.t F) :
  valid_dims dim blocksize ->
  __init__ dim blocksize extent transform = Ok g ->
  (forall k, ncol g <= k * block_width g <-> tile_cols g <= k) /\
  (forall k, nrow g <= k * block_height g <-> tile_rows g <= k) /\
  1 <= tile_cols g /\ 1 <= tile_rows g /\ 1 <= __len__ g.
Proof.
  intros Hv Hg. pose proof (init_well_formed _ _ _ _ _ Hv Hg) as Hwf.
  pose proof (well_formed_cols g Hwf) as (HC & HlastC & HupC).
  pose proof (well_formed_rows g Hwf) as (HR & HlastR & HupR).
  destruct Hwf as ((Hw & Hh & Hbw & Hbh) & _). cbn [fst snd] in *.
  assert (Hk : forall W b C k, 0 < b -> (C - 1) * b < W <= C * b ->
                 (W <= k * b <-> C <= k)).
  { intros W b C k Hb HW. split; intros Hk.
    - destruct (Z_le_gt_dec C k); trivial.
      assert (k * b <= (C - 1) * b) by (apply Z.mul_le_mono_nonneg_r; lia). lia.
    - assert (C * b <= k * b) by (apply Z.mul_le_mono_nonneg_r; lia). lia. }
  split; [intros k; apply Hk; lia|]. split; [intros k; apply Hk; lia|].
  split; [lia|]. split; [lia|]. unfold __len__.
  assert (1 * 1 <= tile_rows g * tile_cols g) by (apply Z.mul_le_mono_nonneg; lia). lia.
Qed.

(** X6: on a grid of valid sizes, every record that lookup returns or
    iteration yields describes a non-empty window that lies inside the pixel
    grid and is no larger than the tile size; it has the full tile width
    except in the last column, where it ends at the right edge of the grid,
    and the full tile height except in the last row, where it ends at the
    bottom edge. *)
Theorem tile_inside_grid dim blocksize extent transform (g : Grout.t F) s :
  valid_dims dim blocksize ->
  __init__ dim blocksize extent transform = Ok g ->
  In s (fst (__iter__ g)) \/ (exists idx, __getitem__ g idx = Ok s) ->
  (0 <= TileSpec.offset_x s /\ 0 < TileSpec.ncol s <= block_width g /\
   TileSpec.offset_x s + TileSpec.ncol s <= ncol g) /\
  (0 <= TileSpec.offset_y s /\ 0 < TileSpec.nrow s <= block_height g /\
   TileSpec.offset_y s + TileSpec.nrow s <= nrow g) /\
  (TileSpec.col s < tile_cols g - 1 -> TileSpec.ncol s = block_width g) /\
  (TileSpec.col s = tile_cols g - 1 -> TileSpec.offset_x s + TileSpec.ncol s = ncol g) /\
  (TileSpec.row s < tile_rows g - 1 -> TileSpec.nrow s = block_height g) /\
  (TileSpec.row s = tile_rows g - 1 -> TileSpec.offset_y s + TileSpec.nrow s = nrow g).
Proof.
  intros Hv Hg Hs.
  assert (Hidx : exists idx, __getitem__ g idx = Ok s).
  { destruct Hs as [Hs | Hs]; trivial.
    destruct (iter_in_getitem g s Hs) as (tc & tr & H). eauto. }
  destruct Hidx as [idx Hidx].
  destruct (getitem_ok_inv g idx s Hidx) as (Hc & Hr & Ht).
  destruct (tile_inv g _ _ s Ht) as (_ & _ & Ex & Ey & Ew & Eh).
  pose proof (init_well_formed _ _ _ _ _ Hv Hg) as Hwf.
  pose proof (well_formed_cols g Hwf) as (HC & HlastC & HupC).
  pose proof (well_formed_rows g Hwf) as (HR & HlastR & HupR).
  destruct Hwf as ((Hw & Hh & Hbw & Hbh) & _). cbn [fst snd] in *.
  rewrite Ew, Eh. rewrite Ex, Ey.
  destruct (tile_span (ncol g) (block_width g) (tile_cols g) (TileSpec.col s))
    as (X1 & X2 & X3 & X4 & X5); [lia | lia | lia |].
  destruct (tile_span (nrow g) (block_height g) (tile_rows g) (TileSpec.row s))
    as (Y1 & Y2 & Y3 & Y4 & Y5); [lia | lia | lia |].
  auto 10.
Qed.

(** X7: on a grid of valid sizes the tiles partition the pixel grid: the
    pixel [(x, y)] lies in the tile at column [x // block_width] and row
    [y // block_height], and in no other tile. *)
Theorem pixel_in_one_tile dim blocksize extent transform (g : Grout.t F) x y :
  valid_dims dim blocksize ->
  __init__ dim blocksize extent transform = Ok g ->
  0 <= x < ncol g -> 0 <= y < nrow g ->
  (exists s, __getitem__ g (Pair (x / block_width g) (y / block_height g)) = Ok s /\
             pixel_in s x y) /\
  (forall idx s, __getitem__ g idx = Ok s -> pixel_in s x y ->
     TileSpec.col s = x / block_width g /\ TileSpec.row s = y / block_height g).
Proof.
  intros Hv Hg Hx Hy.
  pose proof (init_well_formed _ _ _ _ _ Hv Hg) as Hwf.
  pose proof (well_formed_cols g Hwf) as (HC & HlastC & HupC).
  pose proof (well_formed_rows g Hwf) as (HR & HlastR & HupR).
  pose proof Hwf as ((Hw & Hh & Hbw & Hbh) & _). cbn [fst snd] in *.
  destruct (pixel_span (ncol g) (block_width g) (tile_cols g) x) as (Hc & Hpx & Hux);
    [lia | lia | lia |].
  destruct (pixel_span (nrow g) (block_height g) (tile_rows g) y) as (Hr & Hpy & Huy);
    [lia | lia | lia |].
  split.
  - destruct (tile_ok g _ _ Hwf Hc Hr) as [s Hs]. exists s.
    rewrite getitem_in by trivial. split; trivial.
    destruct (tile_inv g _ _ s Hs) as (_ & _ & Ex & Ey & Ew & Eh).
    unfold pixel_in. rewrite Ew, Eh, Ex, Ey. auto.
  - intros idx s Hs (Hsx & Hsy).
    destruct (getitem_ok_inv g idx s Hs) as (_ & _ & Ht).
    destruct (tile_inv g _ _ s Ht) as (_ & _ & Ex & Ey & Ew & Eh).
    rewrite Ew, Ex in Hsx. rewrite Eh, Ey in Hsy. auto.
Qed.

End Tiling.

(* ================================================================== *)
(** ** The outcome of construction *)

Section Rebuild.
Context {F : Type} {num : Number F} {laws : NumberLaws F}.
Import Grout.

(** X8: a grid can be rebuilt from its own attributes: constructing with the
    stored sizes and the transform [(xmin, xres, _, ymax, _, -yres)] made of
    the stored origin and resolutions gives the same grid again, whether the
    grid came from an extent or from a transform. *)
Theorem init_transform_round_trip dim blocksize extent transform (g : Grout.t F) :
  __init__ dim blocksize extent transform = Ok g ->
  forall r1 r2,
    __init__ (ncol g, nrow g) (block_width g, block_height g) None
      (Some (xmin g, xres g, r1, ymax g, r2, neg (yres g))) = Ok g.
Proof.
  intros Hg r1 r2.
  destruct (init_inv _ _ _ _ _ Hg) as (E1 & E2 & E3 & E4 & Hc & Hr & _).
  unfold __init__. cbn [bind]. rewrite E1, E2, E3, E4.
  destruct (Float.int_truediv (fst dim) (fst blocksize)) as [qc|]; [|discriminate].
  cbn [bind] in *. rewrite Hc. cbn [bind].
  destruct (Float.int_truediv (snd dim) (snd blocksize)) as [qr|]; [|discriminate].
  cbn [bind] in *. rewrite Hr. cbn [bind].
  rewrite neg_involutive, <- E1, <- E2, <- E3, <- E4. now destruct g.
Qed.

End Rebuild.

Section Outcome.
Import Grout.

Lemma ceil_truediv_outcome a b :
  0 <= a < 2 ^ 53 -> 0 <= b < 2 ^ 53 ->
  (b = 0 /\ Float.int_truediv a b = Raise ZeroDivisionError) \/
  (b <> 0 /\ exists q k, Float.int_truediv a b = Ok q /\ Float.math_ceil q = Ok k).
Proof.
  intros Ha Hb. destruct (Z.eq_dec b 0) as [-> | Hnb]; [left; auto|].
  right. split; trivial. destruct (Z.eq_dec a 0) as [-> | Hna].
  - destruct b; try contradiction; do 2 eexists; split; reflexivity.
  - destruct (FloatFacts.int_truediv_ceil a b) as (q & Hq & Hk); try lia. eauto.
Qed.

Lemma truediv_int_outcome (x : Float.float) z :
  0 <= z < 2 ^ 53 ->
  (z = 0 /\ truediv_int x z = Raise ZeroDivisionError) \/
  (z <> 0 /\ exists y, truediv_int x z = Ok y).
Proof.
  intros Hz. destruct (Z.eq_dec z 0) as [-> | Hnz]; [left; auto|].
  right. split; trivial. apply truediv_int_ok. lia.
Qed.

(** X9: on floats and sizes from 0 up to [2^53], construction has exactly
    three outcomes.  It raises [ValueError] when no coordinate reference is
    given.  Otherwise it raises [ZeroDivisionError] when a tile size is zero,
    or when an extent is given and a grid size is zero; and it returns a grid
    in every other case, so also for a grid size of zero given with a
    transform only. *)
Theorem init_outcome dim blocksize
    (extent : option (Float.float * Float.float * Float.float * Float.float))
    transform :
  0 <= fst dim < 2 ^ 53 -> 0 <= snd dim < 2 ^ 53 ->
  0 <= fst blocksize < 2 ^ 53 -> 0 <= snd blocksize < 2 ^ 53 ->
  let given := extent <> None \/ transform <> None in
  let zero := fst blocksize = 0 \/ snd blocksize = 0 \/
              (extent <> None /\ (fst dim = 0 \/ snd dim = 0)) in
  (__init__ dim blocksize extent transform = Raise ValueError <-> ~ given) /\
  (__init__ dim blocksize extent transform = Raise ZeroDivisionError <-> given /\ zero) /\
  ((exists g, __init__ dim blocksize extent transform = Ok g) <-> given /\ ~ zero).
Proof.
  intros Hw Hh Hbw Hbh given zero.
  assert (H3 : (__init__ dim blocksize extent transform = Raise ValueError /\ ~ given) \/
               (__init__ dim blocksize extent transform = Raise ZeroDivisionError /\
                given /\ zero) \/
               ((exists g, __init__ dim blocksize extent transform = Ok g) /\
                given /\ ~ zero)).
  { subst given zero. destruct dim as [w h], blocksize as [bw bh]. cbn [fst snd] in *.
    unfold __init__.
    destruct extent as [[[[x0 x1] y0] y1]|].
    - destruct (truediv_int_outcome (sub x1 x0) w Hw) as [[-> ->] | [Hnw [rx ->]]];
        [right; left; cbn [bind]; intuition congruence|].
      destruct (truediv_int_outcome (sub y1 y0) h Hh) as [[-> ->] | [Hnh [ry ->]]];
        [right; left; cbn [bind]; intuition congruence|].
      cbn [bind].
      destruct (ceil_truediv_outcome w bw Hw Hbw) as [[-> ->] | [Hnbw (qc & kc & -> & Hkc)]];
        [right; left; cbn [bind]; intuition congruence|].
      cbn [bind]. rewrite Hkc. cbn [bind].
      destruct (ceil_truediv_outcome h bh Hh Hbh) as [[-> ->] | [Hnbh (qr & kr & -> & Hkr)]];
        [right; left; cbn [bind]; intuition congruence|].
      cbn [bind]. rewrite Hkr. cbn [bind].
      right; right. split; [eauto|]. split; [left; discriminate | tauto].
    - destruct transform as [[[[[[x0 rx] r1] y1] r2] ry]|];
        [|left; cbn [bind]; intuition congruence].
      cbn [bind].
      destruct (ceil_truediv_outcome w bw Hw Hbw) as [[-> ->] | [Hnbw (qc & kc & -> & Hkc)]];
        [right; left; cbn [bind]; intuition congruence|].
      cbn [bind]. rewrite Hkc. cbn [bind].
      destruct (ceil_truediv_outcome h bh Hh Hbh) as [[-> ->] | [Hnbh (qr & kr & -> & Hkr)]];
        [right; left; cbn [bind]; intuition congruence|].
      cbn [bind]. rewrite Hkr. cbn [bind].
      right; right. split; [eauto|]. split; [right; discriminate | tauto]. }
  destruct H3 as [[E Hn] | [[E [Hy Hz]] | [[g E] [Hy Hz]]]]; rewrite E;
    (split; [|split]); split; try tauto; try discriminate;
    try (intros [g' ?]; discriminate); eauto.
Qed.

End Outcome.

(* ================================================================== *)
(** ** [tile_index] *)

Section TileIndexFacts.
Context {F : Type} {num : Number F} {laws : NumberLaws F}.
Context {PandasFrame PolarsFrame : Type}.
Variable pd_DataFrame : list (TileSpec.t F) -> PandasFrame.
Variable pl_DataFrame : list (TileSpec.t F) -> PolarsFrame.
Import Grout TileIndex String.

Abbreviation tile_index :=
  (TileIndex.tile_index PandasFrame PolarsFrame pd_DataFrame pl_DataFrame).

(** X10: on a grid of valid sizes whose tile count is at most [sys.maxsize],
    [tile_index] with the backend ['list'] returns a list of [__len__]
    records whose element [i] is the record that lookup by the linear index
    [i] returns; the two table backends are given that same list. *)
Theorem tile_index_list dim blocksize extent transform (g : Grout.t F) :
  valid_dims dim blocksize ->
  __init__ dim blocksize extent transform = Ok g ->
  __len__ g <= maxsize ->
  exists tiles,
    tile_index g "list" = Ok (Tiles PandasFrame PolarsFrame tiles) /\
    tile_index g "pandas" = Ok (Pandas PandasFrame PolarsFrame (pd_DataFrame tiles)) /\
    tile_index g "polars" = Ok (Polars PandasFrame PolarsFrame (pl_DataFrame tiles)) /\
    Z.of_nat (List.length tiles) = __len__ g /\
    forall i, 0 <= i < __len__ g ->
      __getitem__ g (Linear i) = nth (Z.to_nat i) (map Ok tiles) (Raise IndexError).
Proof.
  intros Hv Hg Hmax. pose proof (init_well_formed _ _ _ _ _ Hv Hg) as Hwf.
  pose proof (well_formed_cols g Hwf) as (HC & _).
  pose proof (well_formed_rows g Hwf) as (HR & _).
  pose proof (iter_getitem g ltac:(lia) ltac:(lia)) as Hit.
  destruct (for_in_yield_ok (range (__len__ g)) (fun i => __getitem__ g (Linear i)))
    as (tiles & Htiles & Hmap).
  { intros i Hi. apply range_In in Hi. unfold __len__ in Hi.
    rewrite getitem_linear by lia.
    rewrite getitem_in by (apply (divmod_in_grid (tile_cols g) (tile_rows g)); lia).
    apply tile_ok; trivial; apply (divmod_in_grid (tile_cols g) (tile_rows g)); lia. }
  assert (Hpos : 0 <= __len__ g) by (apply Z.mul_nonneg_nonneg; lia).
  exists tiles. unfold TileIndex.tile_index, list_of, len.
  destruct (Z.ltb_spec (__len__ g) 0); [lia|].
  destruct (Z.ltb_spec maxsize (__len__ g)); [lia|].
  rewrite Hit, Htiles. cbn [bind].
  do 3 (split; [reflexivity|]).
  assert (Hlen : Z.of_nat (List.length tiles) = __len__ g).
  { apply (f_equal (@List.length _)) in Hmap. rewrite !length_map, range_length in Hmap.
    rewrite Hmap. lia. }
  split; trivial.
  intros i Hi. rewrite Hmap.
  rewrite (nth_indep _ _ (__getitem__ g (Linear 0)))
    by (rewrite length_map, range_length; lia).
  rewrite (map_nth (fun i => __getitem__ g (Linear i)) (range (__len__ g)) 0).
  f_equal. f_equal. symmetry. apply nth_error_nth. rewrite range_nth by lia. f_equal. lia.
Qed.

(** X11: [tile_index] materialises the grid with [list] before it looks at
    the backend.  So, whatever the backend: a negative [__len__] raises
    [ValueError] and one above [sys.maxsize] raises [OverflowError], without
    a tile being built; and an exception of the iteration is raised as it
    is.  When the list is complete, the backend ['list'] returns it, and a
    backend other than ['list'], ['pandas'] and ['polars'] raises
    [ValueError].  (Nothing is said of the two table backends, whose import
    can fail; and allocation is taken never to fail.) *)
Theorem tile_index_backend (g : Grout.t F) (backend : string) :
  (__len__ g < 0 -> tile_index g backend = Raise ValueError) /\
  (maxsize < __len__ g -> tile_index g backend = Raise OverflowError) /\
  (0 <= __len__ g <= maxsize ->
   (forall e, snd (__iter__ g) = Some e -> tile_index g backend = Raise e) /\
   (snd (__iter__ g) = None ->
    (backend = "list" ->
     tile_index g backend = Ok (Tiles PandasFrame PolarsFrame (fst (__iter__ g)))) /\
    (backend <> "list" -> backend <> "pandas" -> backend <> "polars" ->
     tile_index g backend = Raise ValueError))%string).
Proof.
  unfold TileIndex.tile_index, list_of, len.
  destruct (Z.ltb_spec (__len__ g) 0) as [Hneg | Hpos]; cbn [bind].
  { split; [reflexivity|]. split; intros; unfold maxsize in *; lia. }
  destruct (Z.ltb_spec maxsize (__len__ g)) as [Hbig | Hfit]; cbn [bind].
  { split; [lia|]. split; [reflexivity | lia]. }
  split; [lia|]. split; [lia|]. intros _.
  destruct (__iter__ g) as [tiles [e|]]; cbn [fst snd bind].
  - split; [intros e' [= <-]; reflexivity | discriminate].
  - split; [discriminate|]. intros _. split.
    + intros ->. reflexivity.
    + intros H1 H2 H3.
      destruct (String.eqb_spec backend "list"); [contradiction|].
      destruct (String.eqb_spec backend "pandas"); [contradiction|].
      destruct (String.eqb_spec backend "polars"); [contradiction|].
      reflexivity.
Qed.

End TileIndexFacts.

(* ================================================================== *)
(** ** [__repr__] *)

Section ReprFacts.
Import Ascii String Repr.
Local Open Scope string_scope.

Lemma append_inv_head (p x y : string) : p ++ x = p ++ y -> x = y.
Proof. induction p as [|c p IH]; cbn [append]; [trivial | intros [= H]; auto]. Qed.

(** A run of numeric characters ends where the first other character is. *)
Lemma numeric_run (s1 s2 : string) c1 c2 (r1 r2 : string) :
  all_numeric s1 = true -> all_numeric s2 = true ->
  numeric c1 = false -> numeric c2 = false ->
  s1 ++ String c1 r1 = s2 ++ String c2 r2 ->
  s1 = s2 /\ String c1 r1 = String c2 r2.
Proof.
  revert s2. induction s1 as [|a s1 IH]; intros [|b s2]; cbn [append all_numeric];
    intros H1 H2 N1 N2 E.
  - auto.
  - injection E as -> _. apply andb_prop in H2. destruct H2; congruence.
  - injection E as -> _. apply andb_prop in H1. destruct H1; congruence.
  - injection E as -> E. apply andb_prop in H1. apply andb_prop in H2.
    destruct (IH s2) as [-> ->]; tauto.
Qed.

Lemma uint_numeric (d : Decimal.uint) :
  all_numeric (DecimalString.NilEmpty.string_of_uint d) = true.
Proof. induction d; cbn; trivial. Qed.

Lemma str_numeric z : all_numeric (str z) = true.
Proof.
  unfold str. destruct (Z.to_int z) as [d|d]; cbn [DecimalString.NilEmpty.string_of_int];
    [|cbn [all_numeric]]; now rewrite ?uint_numeric.
Qed.

Lemma str_inj a b : str a = str b -> a = b.
Proof.
  unfold str. intros H. apply DecimalZ.to_int_inj.
  apply (f_equal DecimalString.NilEmpty.int_of_string) in H.
  rewrite !DecimalString.NilEmpty.isi in H. congruence.
Qed.

(** X12: [__repr__] shows the grid size, the tile size and the tile counts,
    and nothing else: two grids have the same [repr] exactly when these six
    integers agree; the origin and the resolutions do not appear in it. *)
Theorem repr_injective {F : Type} (g1 g2 : Grout.t F) :
  __repr__ g1 = __repr__ g2 <->
  Grout.ncol g1 = Grout.ncol g2 /\ Grout.nrow g1 = Grout.nrow g2 /\
  Grout.block_width g1 = Grout.block_width g2 /\
  Grout.block_height g1 = Grout.block_height g2 /\
  Grout.tile_cols g1 = Grout.tile_cols g2 /\ Grout.tile_rows g1 = Grout.tile_rows g2.
Proof.
  unfold __repr__. split.
  - intros H.
    repeat match type of H with
    | String ?c ?x = String ?c ?y => injection H as H
    | ?p ++ ?x = ?p ++ ?y => apply append_inv_head in H; cbn [append] in H
    | str ?a ++ String _ _ = str ?b ++ String _ _ =>
        let E := fresh "E" in
        apply numeric_run in H; try apply str_numeric; try reflexivity;
        destruct H as [E H]; apply str_inj in E
    end.
    auto 10.
  - intros (-> & -> & -> & -> & -> & ->). reflexivity.
Qed.

(** [test_grout_repr]: the [repr] of the grid of the test. *)
Example test_grout_repr :
  exists g, Example.basic = Ok g /\
    Repr.__repr__ g =
      "Grout(dim=(1000, 500), blocksize=(256, 256), tiles=(4, 2))".
Proof.
  eexists. split; [vm_compute; reflexivity|]. vm_compute. reflexivity.
Qed.

End ReprFacts.

(* ================================================================== *)
(** ** The ranges of [index_partition] *)

(** A cover holds every index once. *)
Lemma covers_once a b l i r1 r2 :
  covers a b l -> In r1 l -> In r2 l ->
  fst r1 <= i < snd r1 -> fst r2 <= i < snd r2 -> r1 = r2.
Proof.
  revert a. induction l as [|[s e] l IH]; cbn [covers]; intros a; [intros _ []|].
  intros (-> & Hlt & Hc) H1 H2 I1 I2.
  destruct (covers_sorted _ _ _ Hc) as [Hall _].
  rewrite Forall_forall in Hall.
  destruct H1 as [<- | H1], H2 as [<- | H2]; trivial.
  - apply Hall in H2. cbn in I1. lia.
  - apply Hall in H1. cbn in I2. lia.
  - eauto.
Qed.

Section PartitionRanges.
Context {F : Type} {num : Number F} {laws : NumberLaws F}.
Import Grout.

(** X13: for a grid of [L] tiles and [n] chunks, both from 1 up to [2^53],
    [index_partition(n)] yields the ranges [(i * c, min(i * c + c, L))] for
    [i = 0, ..., ceil(L / c) - 1], where [c = ceil(L / n)] is the chunk size:
    all ranges but the last have length [c], and there are [ceil(L / c)] of
    them, which can be fewer than [n].  So [index_partition(1)] yields
    [(0, L)] alone, and for [n >= L] the ranges are the [L] single indices. *)
Theorem index_partition_ranges (g : Grout.t F) n :
  0 < __len__ g < 2 ^ 53 -> 1 <= n < 2 ^ 53 ->
  let L := __len__ g in
  let c := Float.ceil_div L n in
  index_partition g n =
    (map (fun i => (i * c, Z.min (i * c + c) L)) (range (Float.ceil_div L c)), None) /\
  1 <= Float.ceil_div L c <= n /\
  (n = 1 -> index_partition g n = ([(0, L)], None)) /\
  (L <= n -> index_partition g n = (map (fun i => (i, i + 1)) (range L), None)).
Proof.
  intros HL Hn L c. assert (HL' : 0 < L < 2 ^ 53) by exact HL.
  pose proof (FloatFacts.ceil_div_spec L n ltac:(lia)) as Hc. fold c in Hc.
  assert (Hcpos : 0 < c).
  { destruct (Z_lt_le_dec 0 c); trivial.
    assert (c * n <= 0) by (apply Z.mul_nonpos_nonneg; lia). lia. }
  pose proof (FloatFacts.ceil_div_spec L c Hcpos) as HK.
  set (K := Float.ceil_div L c) in *.
  assert (HKn : 1 <= K <= n).
  { split.
    - destruct (Z_lt_le_dec 0 K); [lia|].
      assert (K * c <= 0) by (apply Z.mul_nonpos_nonneg; lia). lia.
    - destruct (Z_le_gt_dec K n); trivial.
      assert (n * c <= (K - 1) * c) by (apply Z.mul_le_mono_nonneg_r; lia). lia. }
  assert (Hmain : index_partition g n =
            (map (fun i => (i * c, Z.min (i * c + c) L)) (range K), None)).
  { rewrite index_partition_len by (unfold maxsize; lia). fold L.
    destruct (FloatFacts.int_truediv_ceil L n) as (q & -> & Hq); try lia.
    cbn [bind]. rewrite Hq. fold c.
    replace n with (K + (n - K)) at 1 by lia.
    rewrite range_app, for_in_app by lia.
    rewrite (for_in_ext (range K) _
               (fun i => yield (Ok (i * c, Z.min (i * c + c) L)))).
    - rewrite for_in_total.
      rewrite (for_in_ext _ _ (fun _ => gen_done)), for_in_done.
      + cbn [gen_seq gen_done fst snd]. now rewrite app_nil_r.
      + intros i Hi. apply in_map_iff in Hi. destruct Hi as (j & <- & Hj).
        apply range_In in Hj. cbv zeta.
        destruct (Z.ltb_spec ((K + j) * c) (Z.min ((K + j) * c + c) L)); trivial.
        assert (K * c <= (K + j) * c) by (apply Z.mul_le_mono_nonneg_r; lia). lia.
    - intros i Hi. apply range_In in Hi. cbv zeta.
      destruct (Z.ltb_spec (i * c) (Z.min (i * c + c) L)); trivial.
      assert (i * c <= (K - 1) * c) by (apply Z.mul_le_mono_nonneg_r; lia). lia. }
  split; [exact Hmain|]. split; [exact HKn|]. split.
  - intros ->. rewrite Hmain.
    assert (Ec : c = L) by (unfold c, Float.ceil_div; rewrite Z.div_1_r; lia).
    assert (EK : K = 1) by lia.
    rewrite EK, Ec. change (range 1) with [0]. cbn [map].
    replace (0 * L) with 0 by lia. replace (Z.min (0 + L) L) with L by lia.
    reflexivity.
  - intros HLn. rewrite Hmain.
    assert (Ec : c = 1).
    { destruct (Z_le_gt_dec c 1); [lia|].
      assert (1 * n <= (c - 1) * n) by (apply Z.mul_le_mono_nonneg_r; lia). lia. }
    rewrite Ec in HK. assert (EK : K = L) by lia.
    rewrite EK, Ec. f_equal. apply map_ext_in. intros i Hi. apply range_In in Hi.
    f_equal; lia.
Qed.

(** X14: on a grid of valid sizes with fewer than [2^53] tiles, the ranges
    of [index_partition(n)], [n >= 1], split the tiles among the chunks:
    every linear index of the grid lies in exactly one range, and every index
    of a range is one at which lookup returns a record. *)
Theorem index_partition_tiles dim blocksize extent transform (g : Grout.t F) n :
  valid_dims dim blocksize ->
  __init__ dim blocksize extent transform = Ok g ->
  __len__ g < 2 ^ 53 -> 1 <= n < 2 ^ 53 ->
  exists rs,
    index_partition g n = (rs, None) /\
    (forall i, 0 <= i < __len__ g ->
       exists r, In r rs /\ fst r <= i < snd r /\
         forall r', In r' rs -> fst r' <= i < snd r' -> r' = r) /\
    (forall r i, In r rs -> fst r <= i < snd r ->
       exists s, __getitem__ g (Linear i) = Ok s).
Proof.
  intros Hv Hg HL Hn. pose proof (init_well_formed _ _ _ _ _ Hv Hg) as Hwf.
  pose proof (well_formed_cols g Hwf) as (HC & _).
  pose proof (well_formed_rows g Hwf) as (HR & _).
  assert (0 <= __len__ g) by (apply Z.mul_nonneg_nonneg; lia).
  destruct (index_partition_complete g n ltac:(lia) Hn) as (rs & Hrs & Hcov & _).
  exists rs. split; [exact Hrs|]. split.
  - intros i Hi. destruct (proj1 (covers_union _ _ _ i Hcov) Hi) as (r & Hr & Hin).
    exists r. repeat split; trivial; try lia.
    intros r' Hr' Hin'. eapply covers_once; eauto.
  - intros r i Hr Hin.
    assert (Hi : 0 <= i < __len__ g) by (apply (covers_union _ _ _ i Hcov); eauto).
    unfold __len__ in Hi. rewrite getitem_linear by lia.
    rewrite getitem_in by (apply (divmod_in_grid (tile_cols g) (tile_rows g)); lia).
    apply tile_ok; trivial; apply (divmod_in_grid (tile_cols g) (tile_rows g)); lia.
Qed.

End PartitionRanges.

(* ================================================================== *)
(** ** Tiles and the extent, in exact arithmetic *)

Section ExactExtent.
Import Grout.

Lemma Z2Qc_le a b : a <= b -> (Z2Qc a <= Z2Qc b)%Qc.
Proof.
  intros H. unfold Z2Qc, Qcle. cbn [this Q2Qc]. rewrite !Qred_correct.
  now rewrite <- Zle_Qle.
Qed.

Lemma Z2Qc_lt a b : a < b -> (Z2Qc a < Z2Qc b)%Qc.
Proof.
  intros H. unfold Z2Qc, Qclt. cbn [this Q2Qc]. rewrite !Qred_correct.
  now rewrite <- Zlt_Qlt.
Qed.

Lemma Z2Qc_nonzero z : z <> 0 -> Z2Qc z <> 0%Qc.
Proof.
  intros Hz E. apply Q2Qc_eq_iff in E. unfold Qeq in E. cbn in E. lia.
Qed.

(** The resolution a grid on rationals got from an extent. *)
Lemma exact_resolution (x : Fraction) (z : Z) (r : Fraction) :
  0 < z -> truediv_int x z = Ok r -> (Z2Qc z * r)%Qc = x.
Proof.
  intros Hz. unfold truediv_int. cbn [of_int fraction_number].
  destruct (is_zero _); [discriminate|]. intros [= <-].
  apply Qcmult_div_r. apply Z2Qc_nonzero. lia.
Qed.

Lemma Qc_add_le (a b c : Qc) : (b <= c)%Qc -> (a + b <= a + c)%Qc.
Proof. intros H. apply Qcplus_le_compat; [apply Qcle_refl | exact H]. Qed.

Lemma Qc_scale_le (a b r : Qc) : (0 < r)%Qc -> (a <= b)%Qc -> (a * r <= b * r)%Qc.
Proof. intros Hr H. apply Qcmult_le_compat_r; [exact H | now apply Qclt_le_weak]. Qed.

Lemma Qc_scale_pos (a r : Qc) : (0 < r)%Qc -> (0 < a)%Qc -> (0 < a * r)%Qc.
Proof.
  intros Hr Ha. rewrite <- (Qcmult_0_l r). now apply Qcmult_lt_compat_r.
Qed.

Lemma Qc_pos_factor (a r : Qc) : (0 < a)%Qc -> (0 < a * r)%Qc -> (0 < r)%Qc.
Proof.
  intros Ha Har. destruct (Qclt_le_dec 0 r) as [H | H]; trivial. exfalso.
  apply (Qclt_not_le _ _ Har). rewrite Qcmult_comm, <- (Qcmult_0_l a).
  apply Qcmult_le_compat_r; [exact H | now apply Qclt_le_weak].
Qed.

Lemma Qc_lt_add_pos (a p : Qc) : (0 < p)%Qc -> (a < a + p)%Qc.
Proof. intros Hp. apply Qclt_minus_iff. now replace (a + p + - a)%Qc with p by ring. Qed.

Lemma Qc_sub_lt_pos (a p : Qc) : (0 < p)%Qc -> (a - p < a)%Qc.
Proof. intros Hp. apply Qclt_minus_iff. now replace (a + - (a - p))%Qc with p by ring. Qed.

Lemma Qc_sub_le (a b c : Qc) : (b <= c)%Qc -> (a - c <= a - b)%Qc.
Proof. intros H. unfold Qcminus. apply Qc_add_le. now apply Qcopp_le_compat. Qed.

(** X15: in exact arithmetic, on a grid of valid sizes built from the extent
    [(x0, x1, y0, y1)], the tiles reproduce the extent: a tile spans
    [ncol * xres] by [nrow * yres], the first column starts at [x0], the last
    column ends at [x1], the first row starts at [y1] and the last row ends
    at [y0], with no rounding. *)
Theorem extent_exact dim blocksize x0 x1 y0 y1 transform (g : Grout.t Fraction) :
  valid_dims dim blocksize ->
  __init__ dim blocksize (Some (x0, x1, y0, y1)) transform = Ok g ->
  (Z2Qc (ncol g) * xres g = x1 - x0 /\ Z2Qc (nrow g) * yres g = y1 - y0)%Qc /\
  forall idx s, __getitem__ g idx = Ok s ->
    (TileSpec.xmax s - TileSpec.xmin s = Z2Qc (TileSpec.ncol s) * xres g)%Qc /\
    (TileSpec.ymax s - TileSpec.ymin s = Z2Qc (TileSpec.nrow s) * yres g)%Qc /\
    (TileSpec.col s = 0 -> TileSpec.xmin s = x0) /\
    (TileSpec.col s = tile_cols g - 1 -> TileSpec.xmax s = x1) /\
    (TileSpec.row s = 0 -> TileSpec.ymax s = y1) /\
    (TileSpec.row s = tile_rows g - 1 -> TileSpec.ymin s = y0).
Proof.
  intros Hv Hg. pose proof (init_well_formed _ _ _ _ _ Hv Hg) as Hwf.
  pose proof (well_formed_cols g Hwf) as (HC & HlastC & HupC).
  pose proof (well_formed_rows g Hwf) as (HR & HlastR & HupR).
  destruct Hwf as ((Hw & Hh & Hbw & Hbh) & _). cbn [fst snd] in *.
  destruct (init_inv _ _ _ _ _ Hg) as (E1 & E2 & _ & _ & _ & _ & Hx & Hy & Ex0 & Ey1).
  rewrite <- E1 in Hx. rewrite <- E2 in Hy.
  apply exact_resolution in Hx; [|lia]. apply exact_resolution in Hy; [|lia].
  change (sub x1 x0) with (x1 - x0)%Qc in Hx. change (sub y1 y0) with (y1 - y0)%Qc in Hy.
  split; [split; trivial|].
  intros idx s Hs.
  destruct (getitem_ok_inv g idx s Hs) as (Hc & Hr & Ht).
  remember (TileSpec.col s) as c eqn:Ec. remember (TileSpec.row s) as r eqn:Er.
  clear Ec Er Hs. rewrite tile_exact in Ht. injection Ht as <-.
  cbn [exact_tile TileSpec.xmin TileSpec.xmax TileSpec.ymin TileSpec.ymax
       TileSpec.ncol TileSpec.nrow TileSpec.col TileSpec.row].
  split; [ring|]. split; [ring|]. split; [|split; [|split]].
  - intros ->. cbn [Z.mul]. change (Z2Qc 0) with 0%Qc. rewrite <- Ex0. ring.
  - intros E. rewrite E.
    replace (Z.min (block_width g) (ncol g - (tile_cols g - 1) * block_width g))
      with (ncol g - (tile_cols g - 1) * block_width g) by lia.
    replace (Z2Qc (ncol g))
      with (Z2Qc ((tile_cols g - 1) * block_width g) +
            Z2Qc (ncol g - (tile_cols g - 1) * block_width g))%Qc in Hx
      by (rewrite <- Z2Qc_plus; f_equal; lia).
    rewrite Ex0. replace x1 with (x0 + (x1 - x0))%Qc at 1 by ring.
    rewrite <- Hx. ring.
  - intros ->. cbn [Z.mul]. change (Z2Qc 0) with 0%Qc. rewrite <- Ey1. ring.
  - intros E. rewrite E.
    replace (Z.min (block_height g) (nrow g - (tile_rows g - 1) * block_height g))
      with (nrow g - (tile_rows g - 1) * block_height g) by lia.
    replace (Z2Qc (nrow g))
      with (Z2Qc ((tile_rows g - 1) * block_height g) +
            Z2Qc (nrow g - (tile_rows g - 1) * block_height g))%Qc in Hy
      by (rewrite <- Z2Qc_plus; f_equal; lia).
    rewrite Ey1. replace y0 with (y1 - (y1 - y0))%Qc at 1 by ring.
    rewrite <- Hy. ring.
Qed.

(** X16: in exact arithmetic, on a grid of valid sizes built from an extent
    with [x0 < x1] and [y0 < y1], both resolutions are positive and every
    tile is a non-empty box inside the extent:
    [x0 <= xmin < xmax <= x1] and [y0 <= ymin < ymax <= y1]. *)
Theorem tile_within_extent dim blocksize x0 x1 y0 y1 transform (g : Grout.t Fraction) :
  valid_dims dim blocksize ->
  __init__ dim blocksize (Some (x0, x1, y0, y1)) transform = Ok g ->
  (x0 < x1)%Qc -> (y0 < y1)%Qc ->
  (0 < xres g /\ 0 < yres g)%Qc /\
  forall idx s, __getitem__ g idx = Ok s ->
    (x0 <= TileSpec.xmin s /\ TileSpec.xmin s < TileSpec.xmax s /\ TileSpec.xmax s <= x1)%Qc /\
    (y0 <= TileSpec.ymin s /\ TileSpec.ymin s < TileSpec.ymax s /\ TileSpec.ymax s <= y1)%Qc.
Proof.
  intros Hv Hg Hx01 Hy01. pose proof (init_well_formed _ _ _ _ _ Hv Hg) as Hwf.
  pose proof (well_formed_cols g Hwf) as (HC & HlastC & HupC).
  pose proof (well_formed_rows g Hwf) as (HR & HlastR & HupR).
  destruct Hwf as ((Hw & Hh & Hbw & Hbh) & _). cbn [fst snd] in *.
  destruct (init_inv _ _ _ _ _ Hg) as (E1 & E2 & _ & _ & _ & _ & Hx & Hy & Ex0 & Ey1).
  rewrite <- E1 in Hx. rewrite <- E2 in Hy.
  apply exact_resolution in Hx; [|lia]. apply exact_resolution in Hy; [|lia].
  change (sub x1 x0) with (x1 - x0)%Qc in Hx. change (sub y1 y0) with (y1 - y0)%Qc in Hy.
  assert (HX : (0 < xres g)%Qc).
  { apply (Qc_pos_factor (Z2Qc (ncol g))); [apply (Z2Qc_lt 0); lia|].
    rewrite Hx. apply Qclt_minus_iff in Hx01. exact Hx01. }
  assert (HY : (0 < yres g)%Qc).
  { apply (Qc_pos_factor (Z2Qc (nrow g))); [apply (Z2Qc_lt 0); lia|].
    rewrite Hy. apply Qclt_minus_iff in Hy01. exact Hy01. }
  split; [split; trivial|].
  intros idx s Hs.
  destruct (getitem_ok_inv g idx s Hs) as (Hc & Hr & Ht).
  remember (TileSpec.col s) as c eqn:Ec. remember (TileSpec.row s) as r eqn:Er.
  clear Ec Er Hs. rewrite tile_exact in Ht. injection Ht as <-.
  cbn [exact_tile TileSpec.xmin TileSpec.xmax TileSpec.ymin TileSpec.ymax
       TileSpec.ncol TileSpec.nrow TileSpec.col TileSpec.row].
  rewrite Ex0, Ey1.
  set (ox := c * block_width g). set (oy := r * block_height g).
  set (w := Z.min (block_width g) (ncol g - ox)).
  set (h := Z.min (block_height g) (nrow g - oy)).
  destruct (tile_span (ncol g) (block_width g) (tile_cols g) c)
    as (Hox & Hw1 & Hw2 & _); [lia | lia | lia |].
  destruct (tile_span (nrow g) (block_height g) (tile_rows g) r)
    as (Hoy & Hh1 & Hh2 & _); [lia | lia | lia |].
  fold ox in Hox, Hw1, Hw2. fold w in Hw1, Hw2.
  fold oy in Hoy, Hh1, Hh2. fold h in Hh1, Hh2.
  assert (Hw' : 0 < w /\ ox + w <= ncol g) by lia.
  assert (Hh' : 0 < h /\ oy + h <= nrow g) by lia.
  clearbody ox oy w h.
  assert (Hnn : forall z, 0 <= z -> forall q, (0 < q)%Qc -> (0 <= Z2Qc z * q)%Qc).
  { intros z Hz q Hq. rewrite <- (Qcmult_0_l q).
    apply Qc_scale_le; [exact Hq | apply (Z2Qc_le 0 z Hz)]. }
  assert (Hpp : forall z, 0 < z -> forall q, (0 < q)%Qc -> (0 < Z2Qc z * q)%Qc).
  { intros z Hz q Hq. apply Qc_scale_pos; [exact Hq | apply (Z2Qc_lt 0 z Hz)]. }
  repeat split.
  - apply Qcle_trans with (x0 + 0)%Qc; [rewrite Qcplus_0_r; apply Qcle_refl|].
    apply Qc_add_le. now apply Hnn.
  - apply Qc_lt_add_pos. apply Hpp; tauto.
  - rewrite <- Qcplus_assoc, <- Qcmult_plus_distr_l, <- Z2Qc_plus.
    apply Qcle_trans with (x0 + Z2Qc (ncol g) * xres g)%Qc;
      [|rewrite Hx; replace (x0 + (x1 - x0))%Qc with x1 by ring; apply Qcle_refl].
    apply Qc_add_le. apply Qc_scale_le; [exact HX | apply Z2Qc_le; lia].
  - replace (y1 - Z2Qc oy * yres g - Z2Qc h * yres g)%Qc
      with (y1 - Z2Qc (oy + h) * yres g)%Qc by (rewrite Z2Qc_plus; ring).
    apply Qcle_trans with (y1 - Z2Qc (nrow g) * yres g)%Qc;
      [rewrite Hy; replace (y1 - (y1 - y0))%Qc with y0 by ring; apply Qcle_refl|].
    apply Qc_sub_le. apply Qc_scale_le; [exact HY | apply Z2Qc_le; lia].
  - apply Qc_sub_lt_pos. apply Hpp; tauto.
  - apply Qcle_trans with (y1 - 0)%Qc;
      [|replace (y1 - 0)%Qc with y1 by ring; apply Qcle_refl].
    apply Qc_sub_le. now apply Hnn.
Qed.

End ExactExtent.

(* ================================================================== *)
(** ** The properties above on concrete grids *)

(** In the grid of [test_grout_basic] the two tiles of column 1 have the
    same bounds in x. *)
Lemma tiles_aligned_basic :
  exists g s s',
    Example.basic = Ok g /\
    Grout.__getitem__ g (Grout.Pair 1 0) = Ok s /\
    Grout.__getitem__ g (Grout.Linear 5) = Ok s' /\
    TileSpec.xmin s = TileSpec.xmin s' /\ TileSpec.xmax s = TileSpec.xmax s'.
Proof.
  do 3 eexists. split; [vm_compute; reflexivity|].
  match goal with |- Grout.__getitem__ ?g _ = _ /\ _ => set (G := g) end.
  split; [vm_compute; reflexivity|]. split; [vm_compute; reflexivity|].
  match goal with |- TileSpec.xmin ?s = TileSpec.xmin ?s' /\ _ =>
    assert (Hs : Grout.__getitem__ G (Grout.Pair 1 0) = Ok s)
      by (vm_compute; reflexivity);
    assert (Hs' : Grout.__getitem__ G (Grout.Linear 5) = Ok s')
      by (vm_compute; reflexivity)
  end.
  destruct (tiles_aligned G _ _ _ _ Hs Hs') as [H _].
  destruct H as (_ & _ & H1 & H2); [reflexivity|]. split; [exact H1 | exact H2].
Defined.

(** The edge-tile grid has two tile columns, the least number reaching
    across its 300 pixels. *)
Lemma tile_counts_least_edge :
  exists g,
    Example.edge = Ok g /\
    (forall k, Grout.ncol g <= k * Grout.block_width g <-> Grout.tile_cols g <= k).
Proof.
  eexists. split; [vm_compute; reflexivity|].
  match goal with |- context [Grout.tile_cols ?g] =>
    assert (Hv : Grout.valid_dims (300, 200) (256, 256))
      by (unfold Grout.valid_dims; cbn [fst snd]; lia);
    assert (Hg : Example.edge = Ok g) by (vm_compute; reflexivity);
    unfold Example.edge in Hg;
    destruct (tile_counts_least _ _ _ _ g Hv Hg) as (H & _)
  end.
  exact H.
Defined.

(** Its second tile ends at the right edge of the grid. *)
Lemma tile_inside_grid_edge :
  exists g s,
    Example.edge = Ok g /\
    Grout.__getitem__ g (Grout.Linear 1) = Ok s /\
    TileSpec.offset_x s + TileSpec.ncol s = Grout.ncol g.
Proof.
  do 2 eexists. split; [vm_compute; reflexivity|]. split; [vm_compute; reflexivity|].
  match goal with |- TileSpec.offset_x ?s + _ = Grout.ncol ?g =>
    assert (Hv : Grout.valid_dims (300, 200) (256, 256))
      by (unfold Grout.valid_dims; cbn [fst snd]; lia);
    assert (Hg : Example.edge = Ok g) by (vm_compute; reflexivity);
    unfold Example.edge in Hg;
    assert (Hs : In s (fst (Grout.__iter__ g)) \/
                 exists idx, Grout.__getitem__ g idx = Ok s)
      by (right; exists (Grout.Linear 1); vm_compute; reflexivity);
    destruct (tile_inside_grid _ _ _ _ g s Hv Hg Hs) as (_ & _ & _ & H & _)
  end.
  apply H. reflexivity.
Defined.

(** Its pixel [(270, 10)] lies in the tile at column 1 and row 0. *)
Lemma pixel_in_one_tile_edge :
  exists g,
    Example.edge = Ok g /\
    exists s, Grout.__getitem__ g (Grout.Pair 1 0) = Ok s /\ pixel_in s 270 10.
Proof.
  eexists. split; [vm_compute; reflexivity|].
  match goal with |- context [Grout.__getitem__ ?g] =>
    assert (Hv : Grout.valid_dims (300, 200) (256, 256))
      by (unfold Grout.valid_dims; cbn [fst snd]; lia);
    assert (Hg : Example.edge = Ok g) by (vm_compute; reflexivity);
    unfold Example.edge in Hg;
    destruct (pixel_in_one_tile _ _ _ _ g 270 10 Hv Hg) as (H & _);
      [cbn; lia | cbn; lia |]
  end.
  exact H.
Defined.

(** A grid of width 0 built from a transform has no tiles. *)
Lemma empty_grid_zero_width :
  exists g : Grout.t Float.float,
    Grout.__init__ (0, 5) (2, 2) None
      (Some (Example.fl 0, Example.fl 1, Example.fl 0, Example.fl 5,
             Example.fl 0, Example.fl (-1))) = Ok g /\
    Grout.__iter__ g = gen_done /\
    forall i, Grout.__getitem__ g (Grout.Linear i) = Raise ZeroDivisionError.
Proof.
  eexists. split; [vm_compute; reflexivity|].
  match goal with |- context [Grout.__iter__ ?g] =>
    destruct (empty_grid g) as (H1 & _ & H2 & _); [left; cbn; lia|]
  end.
  split; [exact H1 | exact H2].
Defined.

(** The edge-tile grid, built from an extent, is rebuilt from its
    transform. *)
Lemma init_transform_round_trip_edge :
  exists g,
    Example.edge = Ok g /\
    Grout.__init__ (Grout.ncol g, Grout.nrow g) (Grout.block_width g, Grout.block_height g)
      None (Some (Grout.xmin g, Grout.xres g, Example.fl 0, Grout.ymax g, Example.fl 0,
                  neg (Grout.yres g))) = Ok g.
Proof.
  eexists. split; [vm_compute; reflexivity|].
  match goal with |- _ = Ok ?g =>
    assert (Hg : Example.edge = Ok g) by (vm_compute; reflexivity);
    unfold Example.edge in Hg;
    exact (init_transform_round_trip _ _ _ _ g Hg (Example.fl 0) (Example.fl 0))
  end.
Defined.

(** A grid of width 0 is accepted with a transform and refused with an
    extent. *)
Lemma init_outcome_zero_width :
  (exists g : Grout.t Float.float,
     Grout.__init__ (0, 5) (2, 2) None
       (Some (Example.fl 0, Example.fl 1, Example.fl 0, Example.fl 5,
              Example.fl 0, Example.fl (-1))) = Ok g) /\
  @Grout.__init__ Float.float _ (0, 5) (2, 2)
    (Some (Example.fl 0, Example.fl 1, Example.fl 0, Example.fl 5)) None
  = Raise ZeroDivisionError.
Proof.
  split.
  - apply (init_outcome (0, 5) (2, 2)); cbn [fst snd]; try lia.
    split; [right; discriminate|].
    intros [H | [H | [H _]]]; [lia | lia | now apply H].
  - apply (init_outcome (0, 5) (2, 2)); cbn [fst snd]; try lia.
    split; [left; discriminate|]. right; right. split; [discriminate | now left].
Defined.

Section TileIndexExample.
Import String.

(** [tile_index] of the edge-tile grid, with tables that keep nothing of the
    records. *)
Lemma tile_index_list_edge :
  exists g,
    Example.edge = Ok g /\
    exists tiles,
      TileIndex.tile_index unit unit (fun _ => tt) (fun _ => tt) g "list"
      = Ok (TileIndex.Tiles unit unit tiles) /\
      Z.of_nat (List.length tiles) = Grout.__len__ g.
Proof.
  eexists. split; [vm_compute; reflexivity|].
  match goal with |- context [Grout.__len__ ?g] =>
    assert (Hv : Grout.valid_dims (300, 200) (256, 256))
      by (unfold Grout.valid_dims; cbn [fst snd]; lia);
    assert (Hg : Example.edge = Ok g) by (vm_compute; reflexivity);
    unfold Example.edge in Hg;
    destruct (tile_index_list (fun _ => tt) (fun _ => tt) _ _ _ _ g Hv Hg)
      as (tiles & H1 & _ & _ & H2 & _); [vm_compute; discriminate|]
  end.
  exists tiles. split; [exact H1 | exact H2].
Defined.

(** [test_tile_index_list]: four records. *)
Example test_tile_index_list :
  exists g tiles,
    Grout.__init__ (100, 100) (50, 50)
      (Some (Example.fl 0, Example.fl 1, Example.fl 0, Example.fl 1)) None = Ok g /\
    TileIndex.tile_index unit unit (fun _ => tt) (fun _ => tt) g "list"
    = Ok (TileIndex.Tiles unit unit tiles) /\
    List.length tiles = 4%nat.
Proof.
  do 2 eexists. split; [vm_compute; reflexivity|].
  split; [vm_compute; reflexivity | reflexivity].
Qed.

End TileIndexExample.

(** [test_grout_iteration]: four tiles, the first one at the top-left corner
    of the extent. *)
Example test_grout_iteration :
  exists g t0 rest,
    Grout.__init__ (512, 512) (256, 256)
      (Some (Example.fl 0, Example.fl 1, Example.fl 0, Example.fl 1)) None = Ok g /\
    Grout.__iter__ g = (t0 :: rest, None) /\ length rest = 3%nat /\
    (TileSpec.col t0, TileSpec.row t0, TileSpec.offset_x t0, TileSpec.offset_y t0,
     TileSpec.ncol t0, TileSpec.nrow t0) = (0, 0, 0, 0, 256, 256) /\
    TileSpec.xmin t0 = Example.fl 0 /\ TileSpec.ymax t0 = Example.fl 1.
Proof.
  do 3 eexists. split; [vm_compute; reflexivity|].
  split; [vm_compute; reflexivity|]. split; [reflexivity|].
  split; [reflexivity|]. split; vm_compute; reflexivity.
Qed.

(** [index_partition(1)] of the edge-tile grid is the whole index range. *)
Lemma index_partition_ranges_edge :
  exists g,
    Example.edge = Ok g /\
    Grout.index_partition g 1 = ([(0, Grout.__len__ g)], None).
Proof.
  eexists. split; [vm_compute; reflexivity|].
  match goal with |- context [Grout.index_partition ?g] =>
    destruct (index_partition_ranges g 1) as (_ & _ & H & _);
      [cbn; lia | lia |]
  end.
  apply H. reflexivity.
Defined.

(** Every index of a range of [index_partition(2)] of the edge-tile grid is
    the index of a tile. *)
Lemma index_partition_tiles_edge :
  exists g,
    Example.edge = Ok g /\
    exists rs,
      Grout.index_partition g 2 = (rs, None) /\
      forall r i, In r rs -> fst r <= i < snd r ->
        exists s, Grout.__getitem__ g (Grout.Linear i) = Ok s.
Proof.
  eexists. split; [vm_compute; reflexivity|].
  match goal with |- context [Grout.index_partition ?g] =>
    assert (Hv : Grout.valid_dims (300, 200) (256, 256))
      by (unfold Grout.valid_dims; cbn [fst snd]; lia);
    assert (Hg : Example.edge = Ok g) by (vm_compute; reflexivity);
    unfold Example.edge in Hg;
    destruct (index_partition_tiles _ _ _ _ g 2 Hv Hg) as (rs & H1 & _ & H2);
      [cbn; lia | lia |]
  end.
  exists rs. split; [exact H1 | exact H2].
Defined.

(** On rationals the first tile of the far grid starts at the corner of the
    extent. *)
Lemma extent_exact_far :
  exists g,
    Example.far_exact = Ok g /\
    forall s, Grout.__getitem__ g (Grout.Linear 0) = Ok s ->
      TileSpec.col s = 0 -> TileSpec.xmin s = Q2Qc 1000000000.
Proof.
  eexists. split; [vm_compute; reflexivity|].
  match goal with |- context [Grout.__getitem__ ?g] =>
    assert (Hv : Grout.valid_dims (1000, 1000) (256, 256))
      by (unfold Grout.valid_dims; cbn [fst snd]; lia);
    assert (Hg : Example.far_exact = Ok g) by (vm_compute; reflexivity);
    unfold Example.far_exact in Hg;
    destruct (extent_exact _ _ _ _ _ _ _ g Hv Hg) as (_ & H)
  end.
  intros s Hs. destruct (H _ s Hs) as (_ & _ & H0 & _). exact H0.
Defined.

(** On rationals every tile of the far grid lies inside the extent. *)
Lemma tile_within_extent_far :
  exists g,
    Example.far_exact = Ok g /\
    forall idx s, Grout.__getitem__ g idx = Ok s ->
      (Q2Qc 1000000000 <= TileSpec.xmin s /\ TileSpec.xmax s <= Q2Qc 1000000100)%Qc.
Proof.
  eexists. split; [vm_compute; reflexivity|].
  match goal with |- context [Grout.__getitem__ ?g] =>
    assert (Hv : Grout.valid_dims (1000, 1000) (256, 256))
      by (unfold Grout.valid_dims; cbn [fst snd]; lia);
    assert (Hg : Example.far_exact = Ok g) by (vm_compute; reflexivity);
    unfold Example.far_exact in Hg;
    destruct (tile_within_extent _ _ _ _ _ _ _ g Hv Hg) as (_ & H);
      [vm_compute; reflexivity | vm_compute; reflexivity |]
  end.
  intros idx s Hs. destruct (H idx s Hs) as ((H1 & _ & H2) & _). split; [exact H1 | exact H2].
Defined.
